(** * libvfn: the IOVA index, the IOVA allocator, the vfio mapping calls,
      the NVMe one-shot helper and CRC-64-NVMe

    A shallow embedding of
      - src/vfio/core.c    (vfio_open, vfio_set_irq, vfio_map_vaddr,
                            vfio_unmap_vaddr and, in its second part, the
                            skip list behind the IOMMU state: iova_map_*,
                            iommu_get_iova, iommu_vaddr_to_iova),
      - the NVMe utility file (nvme_crc64, nvme_set_errno_from_cqe,
                            nvme_oneshot, nvme_admin, nvme_cq_get_cqes,
                            nvme_cq_wait_cqes).

    Conventions.  A [uint64_t], a [size_t] and a [void *] are a [Z] in
    [0, 2^64); arithmetic that can leave that interval is wrapped with
    [wrap64].  A dereference of a NULL pointer is [None] in the [option]
    monad.  Calls that leave the process (the DMA ioctls, [calloc], [rand],
    the tick counter, the completion queue) take their outcome from an
    explicit environment record. *)

From Stdlib Require Import ZArith Lia Bool.
From Stdlib.Strings Require Byte.
From stdpp Require Import base option list sorting.

Local Open Scope Z_scope.

(** ** Machine integers and errno *)

Definition UINT64_MAX : Z := 2 ^ 64 - 1.
Definition wrap64 (z : Z) : Z := z mod 2 ^ 64.

Definition ENOENT : Z := 2.
Definition EIO : Z := 5.
Definition EAGAIN : Z := 11.
Definition ENOMEM : Z := 12.
Definition EBUSY : Z := 16.
Definition EEXIST : Z := 17.
Definition EINVAL : Z := 22.
Definition ETIMEDOUT : Z := 110.

(** ** The IOVA index: an eight-level skip list *)

Definition SKIPLIST_LEVELS : nat := 8.

(** [struct iova_mapping]. *)
Record iova_mapping : Type := Mapping {
  vaddr : Z;
  len : Z;
  iova : Z;
}.

(** The address of a [struct iova_map_entry]: the two entries embedded in
    [struct iova_map], or a block returned by [znew_t]. *)
Inductive node_ptr : Type :=
| PSentinel
| PNil
| PHeap (a : nat).

Global Instance node_ptr_eq_dec : EqDecision node_ptr.
Proof. solve_decision. Defined.

(** [struct iova_map_entry].  The mapping of an entry is written once, before
    the entry is linked, so a list of entries can carry it by value; identity
    is [e_ptr]. *)
Record iova_map_entry : Type := Entry {
  e_ptr : node_ptr;
  mapping : iova_mapping;
}.

(** [struct iova_map].  [heads !! k] is the ccan list anchored at
    [heads[k]], front to back. *)
Record iova_map : Type := IovaMap {
  height : nat;
  heads : list (list iova_map_entry);
}.

(** The map is allocated with [znew_t], so the sentinel is all zeroes;
    [iova_map_init] sets [nil.mapping.vaddr = UINT64_MAX]. *)
Definition sentinel : iova_map_entry := Entry PSentinel (Mapping 0 0 0).
Definition nil_entry : iova_map_entry := Entry PNil (Mapping UINT64_MAX 0 0).

(** [next->mapping.vaddr + next->mapping.len] (pointer plus [size_t]). *)
Definition m_end (e : iova_map_entry) : Z :=
  wrap64 (vaddr (mapping e) + len (mapping e)).

(** [vaddr >= p->mapping.vaddr && vaddr < p->mapping.vaddr + p->mapping.len] *)
Definition contains (e : iova_map_entry) (q : Z) : bool :=
  (vaddr (mapping e) <=? q) && (q <? m_end e).

Definition level (hd : list (list iova_map_entry)) (k : nat) : list iova_map_entry :=
  default [] (hd !! k).

(** [list_add]: link at the front. *)
Definition list_add (n : iova_map_entry) (l : list iova_map_entry) : list iova_map_entry :=
  n :: l.

(** [iova_map_init]: on every level first [nil], then the sentinel in front
    of it. *)
Definition iova_map_init : iova_map :=
  IovaMap 0 (replicate SKIPLIST_LEVELS (list_add sentinel (list_add nil_entry []))).

(** The chain of [next] pointers that starts behind the entry at [p]. *)
Fixpoint list_after (p : node_ptr) (l : list iova_map_entry) : list iova_map_entry :=
  match l with
  | [] => []
  | e :: l' => if decide (e_ptr e = p) then l' else list_after p l'
  end.

(** [skip_list_next(h, n, k)]: NULL behind the last entry. *)
Definition skip_list_next (hd : list (list iova_map_entry)) (p : iova_map_entry) (k : nat)
  : option iova_map_entry :=
  head (list_after (e_ptr p) (level hd k)).

(** [skip_list_add_after(h, p, n, k)] on the list of level [k]. *)
Fixpoint list_add_after (p : node_ptr) (n : iova_map_entry) (l : list iova_map_entry)
  : option (list iova_map_entry) :=
  match l with
  | [] => None
  | e :: l' =>
      if decide (e_ptr e = p) then Some (e :: n :: l')
      else (e ::.) <$> list_add_after p n l'
  end.

(** [skip_list_del_from(h, n, k)] on the list of level [k]. *)
Definition list_del_from (p : node_ptr) (l : list iova_map_entry) : list iova_map_entry :=
  filter (λ e, e_ptr e ≠ p) l.

(** The inner loop of [__iova_map_find_path] on one level:
[[
    next = skip_list_next(map, p, k);
    while (vaddr >= next->mapping.vaddr + next->mapping.len) {
        p = next;
        next = skip_list_next(map, p, k);
    }
]]
    [rest] is the chain behind [p], so its tail is the chain behind [next]
    (lemma [list_after_next]); running off its end dereferences NULL. *)
Fixpoint skip_walk (q : Z) (p : iova_map_entry) (rest : list iova_map_entry)
  : option iova_map_entry :=
  match rest with
  | [] => None
  | next :: rest' =>
      if m_end next <=? q then skip_walk q next rest' else Some p
  end.

(** The [update]/[path] array: [SKIPLIST_LEVELS] pointers, NULL at first. *)
Abbreviation path_t := (list (option iova_map_entry)).
Definition empty_path : path_t := replicate SKIPLIST_LEVELS None.
Definition path_at (path : path_t) (k : nat) : option iova_map_entry :=
  mjoin (path !! k).

(** The [do { ... } while (--k >= 0)] loop of [__iova_map_find_path]. *)
Fixpoint find_descend (hd : list (list iova_map_entry)) (q : Z)
    (p : iova_map_entry) (k : nat) (path : path_t)
  : option (iova_map_entry * path_t) :=
  p' ← skip_walk q p (list_after (e_ptr p) (level hd k));
  let path' := <[k := Some p']> path in
  match k with
  | O => Some (p', path')
  | S k' => find_descend hd q p' k' path'
  end.

(** [__iova_map_find_path].  The result is [None] when the search dereferences
    NULL, [Some (None, _)] for a NULL return.  A caller that passes
    [path == NULL] drops the second component. *)
Definition __iova_map_find_path (m : iova_map) (q : Z) (path : path_t)
  : option (option iova_map_entry * path_t) :=
  '(p, path') ← find_descend (heads m) q sentinel (height m) path;
  p0 ← skip_list_next (heads m) p 0;
  Some (if contains p0 q then Some p0 else None, path').

(** [iommu_find_mapping] ([iova_map_find_path] with no path). *)
Definition iommu_find_mapping (m : iova_map) (q : Z) : option (option iova_map_entry) :=
  fst <$> __iova_map_find_path m q empty_path.

(** [random_level]: [rand i] is what the [i]-th call of [rand()] returns. *)
Definition RAND_MAX : Z := 2147483647.

Fixpoint random_level_from (rand : nat → Z) (n k : nat) : nat :=
  match n with
  | O => k
  | S n' => if RAND_MAX / 2 <? rand k then random_level_from rand n' (S k) else k
  end.

Definition random_level (rand : nat → Z) : nat :=
  random_level_from rand (SKIPLIST_LEVELS - 1) 0.

(** The [do { skip_list_add_after(map, update[k], n, k); } while (--k >= 0)]
    loop of [__iova_map_add]. *)
Fixpoint add_levels (n : iova_map_entry) (update : path_t) (k : nat)
    (hd : list (list iova_map_entry)) : option (list (list iova_map_entry)) :=
  p ← path_at update k;
  l ← list_add_after (e_ptr p) n (level hd k);
  let hd' := <[k := l]> hd in
  match k with
  | O => Some hd'
  | S k' => add_levels n update k' hd'
  end.

(** [__iova_map_add]; [k0] is the value of [random_level()]. *)
Definition __iova_map_add (m : iova_map) (n : iova_map_entry) (update : path_t) (k0 : nat)
  : option iova_map :=
  if decide (height m < k0)%nat then
    let k := S (height m) in
    IovaMap k <$> add_levels n (<[k := Some sentinel]> update) k (heads m)
  else
    IovaMap (height m) <$> add_levels n update k0 (heads m).

(** What the process hands to [iova_map_add]: the block [znew_t] returns
    (or NULL) and the values of [rand()]. *)
Record add_env : Type := AddEnv {
  alloc : option nat;
  rand : nat → Z;
}.

(** [iova_map_add]: the return value with the [errno] it sets, and the map. *)
Definition iova_map_add (env : add_env) (m : iova_map) (v l i : Z)
  : option (Z * option Z * iova_map) :=
  '(found, update) ← __iova_map_find_path m v empty_path;
  match found with
  | Some _ => Some (-1, Some EEXIST, m)
  | None =>
      match alloc env with
      | None => Some (-1, Some ENOMEM, m)
      | Some a =>
          m' ← __iova_map_add m (Entry (PHeap a) (Mapping v l i)) update
                 (random_level (rand env));
          Some (0, None, m')
      end
  end.

(** The [for (int r = 0; r <= map->height; r++)] loop of [__iova_map_remove],
    with [cnt] iterations left:
[[
    next = skip_list_next(map, update[r], r);
    if (next != p)
        break;
    skip_list_del_from(map, p, r);
]] *)
Fixpoint remove_levels (p : iova_map_entry) (update : path_t) (r cnt : nat)
    (hd : list (list iova_map_entry)) : option (list (list iova_map_entry)) :=
  match cnt with
  | O => Some hd
  | S cnt' =>
      u ← path_at update r;
      if decide (e_ptr <$> skip_list_next hd u r = Some (e_ptr p)) then
        remove_levels p update (S r) cnt' (<[r := list_del_from (e_ptr p) (level hd r)]> hd)
      else Some hd
  end.

(** [while (map->height && skip_list_next(map, &map->sentinel, map->height) == &map->nil)
       map->height--;] *)
Fixpoint reduce_height (hd : list (list iova_map_entry)) (h : nat) : nat :=
  match h with
  | O => O
  | S h' =>
      if decide (e_ptr <$> skip_list_next hd sentinel h = Some PNil)
      then reduce_height hd h' else h
  end.

(** [__iova_map_remove]. *)
Definition __iova_map_remove (m : iova_map) (p : iova_map_entry) (update : path_t)
  : option iova_map :=
  hd ← remove_levels p update 0 (S (height m)) (heads m);
  Some (IovaMap (reduce_height hd (height m)) hd).

(** [iova_map_remove]. *)
Definition iova_map_remove (m : iova_map) (v : Z) : option (Z * option Z * iova_map) :=
  '(found, update) ← __iova_map_find_path m v empty_path;
  match found with
  | None => Some (-1, Some ENOENT, m)
  | Some p => m' ← __iova_map_remove m p update; Some (0, None, m')
  end.

(** [iova_map_clear_with].  What leaves the function are the calls of the
    callback and of [free], in order. *)
Inductive clear_event : Type :=
| EvCallback (p : node_ptr) (m : iova_mapping)
| EvFree (p : node_ptr).

(** One turn of the [skip_list_for_each_safe] body for the entry [n]:
[[
    skip_list_del_from(map, n, 0);
    if (n == &map->nil && n == &map->sentinel)
        continue;
    if (fn)
        fn(opaque, &n->mapping);
    free(n);
]] *)
Definition clear_one (fn : bool) (n : iova_map_entry) (l0 : list iova_map_entry)
  : list iova_map_entry * list clear_event :=
  let l0' := list_del_from (e_ptr n) l0 in
  if bool_decide (e_ptr n = PNil) && bool_decide (e_ptr n = PSentinel) then (l0', [])
  else (l0', (if fn then [EvCallback (e_ptr n) (mapping n)] else []) ++ [EvFree (e_ptr n)]).

(** The iteration visits the entries that were linked on level 0 at entry. *)
Fixpoint clear_loop (fn : bool) (todo l0 : list iova_map_entry)
  : list iova_map_entry * list clear_event :=
  match todo with
  | [] => (l0, [])
  | n :: todo' =>
      let '(l0', ev) := clear_one fn n l0 in
      let '(l0'', evs) := clear_loop fn todo' l0' in
      (l0'', ev ++ evs)
  end.

(** [fn] says whether a callback was passed. *)
Definition iova_map_clear_with (m : iova_map) (fn : bool) : iova_map * list clear_event :=
  let '(l0, evs) := clear_loop fn (level (heads m) 0) (level (heads m) 0) in
  (IovaMap (height m) (<[0%nat := l0]> (heads m)), evs).

(** ** The IOMMU state: index plus bump allocator *)

(** [struct vfio_iova_range]. *)
Record iova_range : Type := IovaRange {
  r_start : Z;
  r_end : Z;
}.

(** [struct iommu_state]; [nranges] is the length of [i_ranges]. *)
Record iommu_state : Type := IommuState {
  i_map : iova_map;
  i_next : Z;
  i_ranges : list iova_range;
}.

Definition __VFN_IOVA_MIN : Z := 0x10000.
Definition IOVA_MAX_39BITS : Z := 2 ^ 39.

(** [iommu_init]. *)
Definition iommu_init : iommu_state :=
  IommuState iova_map_init __VFN_IOVA_MIN
    [IovaRange __VFN_IOVA_MIN (IOVA_MAX_39BITS - 1)].

(** A C call that returns 0, or -1 with [errno] set. *)
Inductive res (A : Type) : Type :=
| Ok (a : A)
| Err (errno : Z).
Arguments Ok {A} a.
Arguments Err {A} errno.

(** [iommu_add_mapping]. *)
Definition iommu_add_mapping (env : add_env) (st : iommu_state) (v l i : Z)
  : option (res unit * iommu_state) :=
  if l =? 0 then Some (Err EINVAL, st)
  else
    '(ret, err, m') ← iova_map_add env (i_map st) v l i;
    if ret =? 0 then Some (Ok (), IommuState m' (i_next st) (i_ranges st))
    else Some (Err (default 0 err), st).

(** [iommu_remove_mapping]: the result of [iova_map_remove] is dropped. *)
Definition iommu_remove_mapping (st : iommu_state) (v : Z) : option iommu_state :=
  '(_, _, m') ← iova_map_remove (i_map st) v;
  Some (IommuState m' (i_next st) (i_ranges st)).

(** Modelled from the spec: the [ALIGNED] macro of vfn/support/align.h, which
    is not among the sources; the spec asks for a multiple of the page size. *)
Definition ALIGNED (x a : Z) : bool := x mod a =? 0.

(** The [for] loop of [iommu_get_iova] over the ranges; [cur] is
    [iommu->next].  The result is the local [next] of the range taken. *)
Fixpoint get_iova_ranges (ranges : list iova_range) (cur l : Z) : option Z :=
  match ranges with
  | [] => None
  | r :: ranges' =>
      if r_end r <? cur then get_iova_ranges ranges' cur l
      else
        let next := Z.max cur (r_start r) in
        if (r_end r <? next) || (wrap64 (r_end r - next + 1) <? l)
        then get_iova_ranges ranges' cur l
        else Some next
  end.

(** [iommu_get_iova]; [pagesize] is [__VFN_PAGESIZE]. *)
Definition iommu_get_iova (pagesize : Z) (st : iommu_state) (l : Z)
  : res Z * iommu_state :=
  if negb (ALIGNED l pagesize) then (Err EINVAL, st)
  else
    match get_iova_ranges (i_ranges st) (i_next st) l with
    | Some next => (Ok next, IommuState (i_map st) (wrap64 (next + l)) (i_ranges st))
    | None => (Err ENOMEM, st)
    end.

(** [iommu_vaddr_to_iova]: [Some (Some iova)] for [true]. *)
Definition iommu_vaddr_to_iova (st : iommu_state) (v : Z) : option (option Z) :=
  m ← iommu_find_mapping (i_map st) v;
  Some (match m with
        | Some e => Some (wrap64 (iova (mapping e) + (v - vaddr (mapping e))))
        | None => None
        end).

(** ** The vfio mapping calls *)

(** A DMA mapping installed in the kernel. *)
Record dma_mapping : Type := Dma {
  dma_vaddr : Z;
  dma_iova : Z;
  dma_len : Z;
}.

Global Instance dma_mapping_eq_dec : EqDecision dma_mapping.
Proof. solve_decision. Defined.

Inductive backend_call : Type :=
| DMA_MAP (v i l : Z)
| DMA_UNMAP (i l : Z).

(** [struct vfio_state] with the part of the kernel it talks to: the
    installed DMA mappings and the backend calls issued so far. *)
Record vfio_state : Type := VfioState {
  iommu : iommu_state;
  kernel : list dma_mapping;
  calls : list backend_call;
}.

(** Modelled from the spec: the backend call [DMA_MAP(vaddr, iova, len)]
    ([vfio_iommu_map_dma] is not among the sources).  [outcome] is [None] when
    the ioctl succeeds, which installs the mapping, or the errno it fails
    with. *)
Definition vfio_iommu_map_dma (outcome : option Z) (st : vfio_state) (v l i : Z)
  : res unit * vfio_state :=
  let cs := calls st ++ [DMA_MAP v i l] in
  match outcome with
  | None => (Ok (), VfioState (iommu st) (kernel st ++ [Dma v i l]) cs)
  | Some e => (Err e, VfioState (iommu st) (kernel st) cs)
  end.

(** Modelled from the spec: the backend call [DMA_UNMAP(iova, len)]
    ([vfio_iommu_unmap_dma] is not among the sources); on success the mapping
    installed at [iova] is gone. *)
Definition vfio_iommu_unmap_dma (outcome : option Z) (st : vfio_state) (l i : Z)
  : res unit * vfio_state :=
  let cs := calls st ++ [DMA_UNMAP i l] in
  match outcome with
  | None => (Ok (), VfioState (iommu st) (filter (λ d, dma_iova d ≠ i) (kernel st)) cs)
  | Some e => (Err e, VfioState (iommu st) (kernel st) cs)
  end.

(** What the process hands to one [vfio_map_vaddr]. *)
Record map_env : Type := MapEnv {
  dma_map_outcome : option Z;
  insert_env : add_env;
}.

Definition with_iommu (st : vfio_state) (io : iommu_state) : vfio_state :=
  VfioState io (kernel st) (calls st).

(** [vfio_map_vaddr]; the [Z] of an [Ok] is the [_iova] stored through
    [iova].  The [vfio_iommu_*] helpers it calls are the [iommu_*] functions
    above ([vfio_iommu_allocate_sticky_iova] is [iommu_get_iova]). *)
Definition vfio_map_vaddr (pagesize : Z) (env : map_env) (st : vfio_state) (v l : Z)
  : option (res Z * vfio_state) :=
  tr ← iommu_vaddr_to_iova (iommu st) v;
  match tr with
  | Some _iova => Some (Ok _iova, st)
  | None =>
      match iommu_get_iova pagesize (iommu st) l with
      | (Err e, io1) => Some (Err e, with_iommu st io1)
      | (Ok _iova, io1) =>
          match vfio_iommu_map_dma (dma_map_outcome env) (with_iommu st io1) v l _iova with
          | (Err e, st2) => Some (Err e, st2)
          | (Ok _, st2) =>
              '(r, io3) ← iommu_add_mapping (insert_env env) (iommu st2) v l _iova;
              match r with
              | Err e => Some (Err e, with_iommu st2 io3)
              | Ok _ => Some (Ok _iova, with_iommu st2 io3)
              end
          end
      end
  end.

(** [vfio_unmap_vaddr]; [outcome] is that of the [DMA_UNMAP] ioctl. *)
Definition vfio_unmap_vaddr (outcome : option Z) (st : vfio_state) (v : Z)
  : option (res unit * vfio_state) :=
  m ← iommu_find_mapping (i_map (iommu st)) v;
  match m with
  | None => Some (Ok (), st)
  | Some e =>
      match vfio_iommu_unmap_dma outcome st (len (mapping e)) (iova (mapping e)) with
      | (Err er, st1) => Some (Err er, st1)
      | (Ok _, st1) =>
          io ← iommu_remove_mapping (iommu st1) (vaddr (mapping e));
          Some (Ok (), with_iommu st1 io)
      end
  end.

(** [vfio_open] leaves the IOMMU state of [iommu_init] (the ranges the
    kernel reports replace the default one). *)
Definition vfio_open (ranges : list iova_range) : vfio_state :=
  VfioState (IommuState iova_map_init __VFN_IOVA_MIN ranges) [] [].

(** A sequence of calls on one context. *)
Inductive ctx_op : Type :=
| OpMap (v l : Z) (env : map_env)
| OpUnmap (v : Z) (outcome : option Z).

Definition ctx_step (pagesize : Z) (st : vfio_state) (op : ctx_op) : option vfio_state :=
  match op with
  | OpMap v l env => snd <$> vfio_map_vaddr pagesize env st v l
  | OpUnmap v outcome => snd <$> vfio_unmap_vaddr outcome st v
  end.

Fixpoint ctx_run (pagesize : Z) (st : vfio_state) (ops : list ctx_op) : option vfio_state :=
  match ops with
  | [] => Some st
  | op :: ops' => st' ← ctx_step pagesize st op; ctx_run pagesize st' ops'
  end.

(** ** CRC-64-NVMe *)

(** [buffer[i]], an [unsigned char]. *)
Definition byte_val (b : Byte.byte) : Z := Z.of_N (Byte.to_N b).

(** The [for (i = 0; i < len; i++)] loop of [nvme_crc64] with [cnt] turns
    left; reading behind the end of [buffer] is [None].  [table] is
    [crc64_nvme_table] of crc64table.h, which is not among the sources. *)
Fixpoint crc64_loop (table : Z → Z) (buffer : list Byte.byte) (i cnt : nat) (crc : Z)
  : option Z :=
  match cnt with
  | O => Some crc
  | S cnt' =>
      b ← buffer !! i;
      crc64_loop table buffer (S i) cnt'
        (Z.lxor (Z.shiftr crc 8) (table (Z.lxor (Z.land crc 0xff) (byte_val b))))
  end.

(** [nvme_crc64]; [(uint64_t)~0] is [UINT64_MAX]. *)
Definition nvme_crc64 (table : Z → Z) (crc : Z) (buffer : list Byte.byte) (l : nat)
  : option Z :=
  c ← crc64_loop table buffer 0 l crc;
  Some (Z.lxor c UINT64_MAX).

(** The spec's wording of the same computation: fold each byte as
    [crc = (crc >> 8) ^ table[(crc ^ byte) & 0xff]], then XOR with all-ones. *)
Definition crc64_spec_step (table : Z → Z) (crc : Z) (b : Byte.byte) : Z :=
  Z.lxor (Z.shiftr crc 8) (table (Z.land (Z.lxor crc (byte_val b)) 0xff)).

Definition crc64_spec (table : Z → Z) (crc : Z) (bytes : list Byte.byte) : Z :=
  Z.lxor (fold_left (crc64_spec_step table) bytes crc) (2 ^ 64 - 1).

(** ** Waiting on a completion queue *)

(** [struct nvme_cqe], as far as the code below looks into it. *)
Record nvme_cqe : Type := Cqe {
  cqe_dw0 : Z;
  cqe_cid : Z;
  cqe_sfp : Z;
}.

(** The controller and the clock as the waiting thread sees them:
    [cq_get_cqe i] is what the [i]-th call of [nvme_cq_get_cqe] returns (NULL
    while no new entry is posted), [get_ticks j] what the [j]-th call of
    [get_ticks()] returns. *)
Record cq_env : Type := CqEnv {
  cq_get_cqe : nat → option nvme_cqe;
  get_ticks : nat → Z;
  __vfn_ticks_freq : Z;
}.

(** [nvme_cq_get_cqes]: [fuel] bounds the turns of the [do ... while (n > 0)]
    loop, [i] counts the calls of [nvme_cq_get_cqe] so far; [None] is a loop
    that is still spinning when the fuel is gone.  [continue] in a
    [do]-[while] jumps to the test.  The result is what was copied to [cqes]
    (nothing when [cqes] is NULL, [copy = false]). *)
Fixpoint nvme_cq_get_cqes (fuel : nat) (env : cq_env) (i : nat) (n : Z) (copy : bool)
    (cqes : list nvme_cqe) : option (list nvme_cqe) :=
  match fuel with
  | O => None
  | S fuel' =>
      match cq_get_cqe env i with
      | None =>
          if 0 <? n then nvme_cq_get_cqes fuel' env (S i) n copy cqes else Some cqes
      | Some cqe =>
          let n' := n - 1 in
          let cqes' := if copy then cqes ++ [cqe] else cqes in
          if 0 <? n' then nvme_cq_get_cqes fuel' env (S i) n' copy cqes' else Some cqes'
      end
  end.

(** The [do ... while (n > 0 && get_ticks() < timeout)] loop of
    [nvme_cq_wait_cqes]; [j] counts the calls of [get_ticks]. *)
Fixpoint wait_loop (fuel : nat) (env : cq_env) (i j : nat) (n timeout : Z) (copy : bool)
    (cqes : list nvme_cqe) : option (Z * list nvme_cqe) :=
  match fuel with
  | O => None
  | S fuel' =>
      let '(n', cqes') :=
        match cq_get_cqe env i with
        | None => (n, cqes)
        | Some cqe => (n - 1, if copy then cqes ++ [cqe] else cqes)
        end in
      if (0 <? n') && (get_ticks env j <? timeout)
      then wait_loop fuel' env (S i) (S j) n' timeout copy cqes'
      else Some (n', cqes')
  end.

(** [nvme_cq_wait_cqes]: the return value, the [errno] it sets if any, and
    the entries copied out. *)
Definition nvme_cq_wait_cqes (fuel : nat) (env : cq_env) (n : Z) (copy : bool)
    (timeout_ns : Z) : option (Z * option Z * list nvme_cqe) :=
  if timeout_ns =? 0 then
    cqes ← nvme_cq_get_cqes fuel env 0 n copy [];
    Some (0, None, cqes)
  else
    let timeout :=
      wrap64 (get_ticks env 0
              + wrap64 (wrap64 (timeout_ns * 1000) * (__vfn_ticks_freq env / 1000000))) in
    '(n', cqes) ← wait_loop fuel env 0 1 n timeout copy [];
    Some (n', if 0 <? n' then Some ETIMEDOUT else None, cqes).

(** The entries the controller posts during the polls [i, i + k). *)
Definition posted (env : cq_env) (i k : nat) : list nvme_cqe :=
  omap (cq_get_cqe env) (seq i k).

(** ** The one-shot command helper *)

(** What a callee of [nvme_oneshot] leaves behind: its return value and the
    [errno] it stores, if it stores one. *)
Record call_result : Type := CallResult {
  c_ret : Z;
  c_errno : option Z;
}.

Definition errno_after (c : call_result) (errno : Z) : Z := default errno (c_errno c).

(** The callees, none of which is among the sources: [nvme_rq_acquire_atomic]
    ([acquire_ok = false] for NULL), [vfio_map_vaddr_ephemeral],
    [nvme_rq_map_prp], the [i]-th [nvme_rq_spin], [vfio_unmap_ephemeral_iova]. *)
Record oneshot_env : Type := OneshotEnv {
  acquire_ok : bool;
  acquire_errno : option Z;
  map_ephemeral : call_result;
  map_prp : call_result;
  rq_spin : nat → call_result;
  unmap_ephemeral : call_result;
}.

Inductive oneshot_call : Type :=
| CallAcquire | CallMapEphemeral | CallMapPrp | CallExec | CallSpin
| CallUnmapEphemeral | CallRelease.

(** The locals and [errno] while [nvme_oneshot] runs. *)
Record oneshot_st : Type := OneshotSt {
  errno : Z;
  savederrno : Z;
  ret : Z;
  trace : list oneshot_call;
}.

Definition called (c : oneshot_call) (r : call_result) (s : oneshot_st) : oneshot_st :=
  OneshotSt (errno_after r (errno s)) (savederrno s) (ret s) (trace s ++ [c]).

(** [while (nvme_rq_spin(rq, &cqe) < 0) { if (errno == EAGAIN) continue;
      savederrno = errno; ret = -1; break; }] *)
Fixpoint spin_loop (fuel : nat) (env : oneshot_env) (i : nat) (s : oneshot_st)
  : option oneshot_st :=
  match fuel with
  | O => None
  | S fuel' =>
      let s1 := called CallSpin (rq_spin env i) s in
      if c_ret (rq_spin env i) <? 0 then
        if errno s1 =? EAGAIN then spin_loop fuel' env (S i) s1
        else Some (OneshotSt (errno s1) (errno s1) (-1) (trace s1))
      else Some s1
  end.

(** The label [unmap:] and what follows. *)
Definition oneshot_unmap (env : oneshot_env) (buf : bool) (s : oneshot_st) : oneshot_st :=
  let s1 :=
    if buf then
      let s' := called CallUnmapEphemeral (unmap_ephemeral env) s in
      if c_ret (unmap_ephemeral env) =? 0 then s'
      else OneshotSt (savederrno s') (savederrno s') (-1) (trace s')
    else s in
  OneshotSt (errno s1) (savederrno s1) (ret s1) (trace s1 ++ [CallRelease]).

(** [nvme_oneshot]: the return value and the [errno] the caller sees, with
    the callees in call order.  [errno0] is [errno] at entry, [buf] says
    whether a buffer was passed. *)
Definition nvme_oneshot (fuel : nat) (env : oneshot_env) (errno0 : Z) (buf : bool)
  : option (Z * Z * list oneshot_call) :=
  let result (s : oneshot_st) := Some (ret s, errno s, trace s) in
  let s0 := called CallAcquire (CallResult 0 (acquire_errno env)) (OneshotSt errno0 0 0 []) in
  if negb (acquire_ok env) then result (OneshotSt (errno s0) 0 (-1) (trace s0))
  else
    let run (s : oneshot_st) :=
      s' ← spin_loop fuel env 0 (OneshotSt (errno s) (savederrno s) (ret s) (trace s ++ [CallExec]));
      result (oneshot_unmap env buf s') in
    if buf then
      let s1 := called CallMapEphemeral (map_ephemeral env) s0 in
      let s1 := OneshotSt (errno s1) (savederrno s1) (c_ret (map_ephemeral env)) (trace s1) in
      if negb (ret s1 =? 0) then
        result (OneshotSt (errno s1) (savederrno s1) (ret s1) (trace s1 ++ [CallRelease]))
      else
        let s2 := called CallMapPrp (map_prp env) s1 in
        let s2 := OneshotSt (errno s2) (savederrno s2) (c_ret (map_prp env)) (trace s2) in
        if negb (ret s2 =? 0) then
          result (oneshot_unmap env buf (OneshotSt (errno s2) (errno s2) (ret s2) (trace s2)))
        else run s2
    else run s0.

(** [nvme_admin]. *)
Definition nvme_admin (fuel : nat) (env : oneshot_env) (errno0 : Z) (buf : bool)
  : option (Z * Z * list oneshot_call) :=
  nvme_oneshot fuel env errno0 buf.

(** ** Well-formed indexes *)

Definition ptrs (l : list iova_map_entry) : list node_ptr := e_ptr <$> l.

(** The entries a search for [q] walks past on a level, and the ones it
    stops in front of. *)
Definition lo (q : Z) (l : list iova_map_entry) : list iova_map_entry :=
  filter (λ e, m_end e ≤ q) l.
Definition hi (q : Z) (l : list iova_map_entry) : list iova_map_entry :=
  filter (λ e, q < m_end e) l.
Definition parted (q : Z) (l : list iova_map_entry) : Prop :=
  l = lo q l ++ hi q l.

(** The linking discipline of the skip list: every level runs from the
    sentinel to nil, a level is a sub-sequence of the one below, and the
    levels above [height] are empty. *)
Record skiplist_shape (m : iova_map) : Prop := SkiplistShape {
  shape_height : (height m < SKIPLIST_LEVELS)%nat;
  shape_length : length (heads m) = SKIPLIST_LEVELS;
  shape_nodup : NoDup (ptrs (level (heads m) 0));
  shape_ends : ∀ k, (k < SKIPLIST_LEVELS)%nat →
    ∃ l, level (heads m) k = sentinel :: l ++ [nil_entry];
  shape_chain : ∀ k, (S k < SKIPLIST_LEVELS)%nat →
    level (heads m) (S k) `sublist_of` level (heads m) k;
  shape_above : ∀ k, (height m < k < SKIPLIST_LEVELS)%nat →
    level (heads m) k = [sentinel; nil_entry];
}.

(** An entry that lies inside the 64-bit address space. *)
Definition valid_entry (e : iova_map_entry) : Prop :=
  0 ≤ vaddr (mapping e) ∧ 0 ≤ len (mapping e)
  ∧ vaddr (mapping e) + len (mapping e) ≤ UINT64_MAX.

(** [a] ends before [b] starts. *)
Definition before (a b : iova_map_entry) : Prop := m_end a ≤ vaddr (mapping b).

(** The data-model invariant: the entries are ordered by [vaddr] and do not
    overlap. *)
Record skiplist_ok (m : iova_map) : Prop := SkiplistOk {
  ok_shape : skiplist_shape m;
  ok_valid : Forall valid_entry (level (heads m) 0);
  ok_sorted : StronglySorted before (level (heads m) 0);
}.

(** [q] lies in the mapping of [e], in unbounded integers. *)
Definition inside (e : iova_map_entry) (q : Z) : Prop :=
  vaddr (mapping e) ≤ q < vaddr (mapping e) + len (mapping e).

(** The range [v, v + l) meets no entry of the index. *)
Definition range_free (m : iova_map) (v l : Z) : Prop :=
  ∀ e, e ∈ level (heads m) 0 →
    v + l ≤ vaddr (mapping e) ∨ vaddr (mapping e) + len (mapping e) ≤ v.

(** The block [znew_t] returns is not one that is still linked. *)
Definition fresh (m : iova_map) (env : add_env) : Prop :=
  ∀ a, alloc env = Some a → PHeap a ∉ ptrs (level (heads m) 0).

(** ** Sticky allocation in the spec's words *)

(** The range [r] fits: [max(next, r.start) + len - 1 <= r.last]. *)
Definition fits (next l : Z) (r : iova_range) : bool :=
  Z.max next (r_start r) + l - 1 <=? r_end r.

(** Find the first range that fits; set [next = max(next, r.start) + len];
    return [next - len]; NoSpace when no range fits. *)
Definition sticky_allocate_spec (st : iommu_state) (l : Z) : res Z * iommu_state :=
  match List.find (fits (i_next st) l) (i_ranges st) with
  | Some r =>
      let next := Z.max (i_next st) (r_start r) + l in
      (Ok (next - l), IommuState (i_map st) next (i_ranges st))
  | None => (Err ENOMEM, st)
  end.

(** What is left of the range [r] above the cursor. *)
Definition remaining (st : iommu_state) (r : iova_range) : Z :=
  r_end r - Z.max (i_next st) (r_start r) + 1.

(** ** Call sequences and the mappings they leave *)

(** [v] lies in the range of the mapping [m]. *)
Definition covers (m : iova_mapping) (v : Z) : Prop :=
  vaddr m ≤ v < vaddr m + len m.

Global Instance covers_dec (m : iova_mapping) (v : Z) : Decision (covers m v).
Proof. unfold covers. apply _. Defined.

(** The mappings an index stores: what is linked on level 0 between the
    sentinel and nil. *)
Definition stored (l : list iova_map_entry) : list iova_mapping :=
  mapping <$> filter (λ e, e_ptr e ≠ PSentinel ∧ e_ptr e ≠ PNil) l.

(** The caller's ledger of still-mapped ranges, kept from what the calls
    return: a [map] that returns an IOVA for an address no ledger entry
    covers adds [(vaddr, len, iova)]; an [unmap] that returns 0 strikes the
    entries covering its address. *)
Definition ledger_step (pagesize : Z) (st : vfio_state) (led : list iova_mapping)
    (op : ctx_op) : list iova_mapping :=
  match op with
  | OpMap v l env =>
      match vfio_map_vaddr pagesize env st v l with
      | Some (Ok i, _) =>
          if decide (Exists (λ m, covers m v) led) then led else Mapping v l i :: led
      | _ => led
      end
  | OpUnmap v outcome =>
      match vfio_unmap_vaddr outcome st v with
      | Some (Ok _, _) => filter (λ m, ¬ covers m v) led
      | _ => led
      end
  end.

Fixpoint ledger_run (pagesize : Z) (st : vfio_state) (led : list iova_mapping)
    (ops : list ctx_op) : list iova_mapping :=
  match ops with
  | [] => led
  | op :: ops' =>
      match ctx_step pagesize st op with
      | Some st' => ledger_run pagesize st' (ledger_step pagesize st led op) ops'
      | None => led
      end
  end.

(** What a call has to respect for the index to stay in the data model: the
    address is a key below nil's, the block [znew_t] hands out is not in
    use, and a range to be mapped either starts inside a still-mapped range
    (and is then answered from it) or meets none of them. *)
Definition op_pre (st : vfio_state) (led : list iova_mapping) (op : ctx_op) : Prop :=
  match op with
  | OpMap v l env =>
      0 ≤ v < UINT64_MAX ∧ 0 ≤ l
      ∧ fresh (i_map (iommu st)) (insert_env env)
      ∧ (Exists (λ m, covers m v) led
         ∨ (v + l ≤ UINT64_MAX
            ∧ Forall (λ m, v + l ≤ vaddr m ∨ vaddr m + len m ≤ v) led))
  | OpUnmap v _ => 0 ≤ v < UINT64_MAX
  end.

Fixpoint ops_ok (pagesize : Z) (st : vfio_state) (led : list iova_mapping)
    (ops : list ctx_op) : Prop :=
  match ops with
  | [] => True
  | op :: ops' =>
      op_pre st led op
      ∧ ∀ st', ctx_step pagesize st op = Some st' →
          ops_ok pagesize st' (ledger_step pagesize st led op) ops'
  end.

(** What [iova_map_clear_with] does to an entry it treats as stored: the
    callback, if one was passed, then [free]. *)
Definition clear_events (fn : bool) (n : iova_map_entry) : list clear_event :=
  (if fn then [EvCallback (e_ptr n) (mapping n)] else []) ++ [EvFree (e_ptr n)].

(** ** Scenarios *)

(** A context as [vfio_open] leaves it when the kernel reports the range
    [[0x10000, 0x7fffffffff]]. *)
Definition default_ctx : vfio_state := vfio_open [IovaRange 0x10000 0x7fffffffff].

(** The same context after [map(0x7f0000000000, 4096)]. *)
Definition unmap_demo : vfio_state :=
  VfioState
    (IommuState
       (IovaMap 0 (<[0%nat := [sentinel; Entry (PHeap 0) (Mapping 0x7f0000000000 4096 0x10000);
                               nil_entry]]> (heads iova_map_init)))
       0x11000 [IovaRange 0x10000 0x7fffffffff])
    [Dma 0x7f0000000000 0x10000 4096] [DMA_MAP 0x7f0000000000 0x10000 4096].

(** [znew_t] hands out block 0 and [rand()] is large: a tall entry. *)
Definition index_env : add_env := AddEnv (Some 0%nat) (λ _, RAND_MAX).

(** [DMA_MAP] goes through, then there is no memory for the entry. *)
Definition nomem_env : map_env := MapEnv None (AddEnv None (λ _, 0)).

(** Two maps of ranges that lie apart. *)
Definition two_maps : list ctx_op :=
  [OpMap 0x7f0000000000 4096 (MapEnv None (AddEnv (Some 0%nat) (λ _, RAND_MAX)));
   OpMap 0x7f0000002000 8192 (MapEnv None (AddEnv (Some 1%nat) (λ _, 0)))].

(** Two maps of ranges that overlap: [[0x7f0000002000, 0x7f0000003000)],
    linked on two levels, then [[0x7f0000001000, 0x7f0000004000)], linked on
    one. *)
Definition overlapping_maps : list ctx_op :=
  [OpMap 0x7f0000002000 0x1000 (MapEnv None (AddEnv (Some 0%nat) (λ _, RAND_MAX)));
   OpMap 0x7f0000001000 0x3000 (MapEnv None (AddEnv (Some 1%nat) (λ _, 0)))].

(** A controller that never posts a completion, and one that posts its
    first at the third poll. *)
Definition idle_cq : cq_env := CqEnv (λ _, None) (λ j, Z.of_nat j) 1000000.
Definition late_cq : cq_env :=
  CqEnv (λ i, if decide (i = 2%nat) then Some (Cqe 0 7 0) else None) (λ j, Z.of_nat j) 1000000.

Definition call_ok : call_result := CallResult 0 None.

(** Every step succeeds, then [vfio_unmap_ephemeral_iova] fails with [e]. *)
Definition unmap_fails (e : Z) : oneshot_env :=
  OneshotEnv true None call_ok call_ok (λ _, call_ok) (CallResult (-1) (Some e)).

(** ** Status of a completion *)

(** [nvme_set_errno_from_cqe]: the return value and the [errno] it stores.
    [cqe_sfp] is [le16_to_cpu(cqe->sfp)]: the phase tag in bit 0, the status
    field above it. *)
Definition nvme_set_errno_from_cqe (cqe : nvme_cqe) : Z * Z :=
  let errno := if Z.shiftr (cqe_sfp cqe) 1 =? 0 then 0 else EIO in
  (if errno =? 0 then 0 else -1, errno).

(** The deadline [nvme_cq_wait_cqes] computes, in ticks:
    [get_ticks() + (timeout_ns*1000) * (__vfn_ticks_freq / 1000000ULL)]. *)
Definition wait_deadline (env : cq_env) (timeout_ns : Z) : Z :=
  wrap64 (get_ticks env 0
          + wrap64 (wrap64 (timeout_ns * 1000) * (__vfn_ticks_freq env / 1000000))).

(** What one turn of either polling loop does with the answer of
    [nvme_cq_get_cqe]. *)
Definition reaped (copy : bool) (c : option nvme_cqe) : list nvme_cqe :=
  match c with
  | Some cqe => if copy then [cqe] else []
  | None => []
  end.

(** The calls [nvme_oneshot] makes between acquiring and releasing the slot
    when it reaches [nvme_rq_exec] and polls [k + 1] times. *)
Definition oneshot_body (buf : bool) (k : nat) : list oneshot_call :=
  (if buf then [CallMapEphemeral; CallMapPrp] else [])
  ++ CallExec :: replicate (S k) CallSpin
  ++ (if buf then [CallUnmapEphemeral] else []).


(** The controller of [late_cq] seen with a clock that advances 1000 ticks
    between two readings. *)
Definition coarse_clock_cq : cq_env :=
  CqEnv (cq_get_cqe late_cq) (λ j, 1000 * Z.of_nat j) 1000000.


(** ** Opening a vfio group; setting up interrupts *)

(** Values of linux/vfio.h. *)
Definition VFIO_API_VERSION : Z := 0.
Definition VFIO_GROUP_FLAGS_VIABLE : Z := 1.
Definition VFIO_IOMMU_INFO_CAPS : Z := 2.
Definition VFIO_IRQ_INFO_EVENTFD : Z := 1.
Definition VFIO_IRQ_SET_DATA_EVENTFD : Z := 4.
Definition VFIO_IRQ_SET_ACTION_TRIGGER : Z := 32.

(** [sizeof(struct vfio_irq_set)] (five [__u32] in front of the flexible
    [data]) and [sizeof(int)]. *)
Definition SIZEOF_VFIO_IRQ_SET : Z := 20.
Definition SIZEOF_INT : Z := 4.

Definition wrap32 (z : Z) : Z := z mod 2 ^ 32.

(** What [vfio_open] and [vfio_set_irq] do outside the process, in order. *)
Inductive vfio_call : Type :=
| OpenContainer
| GetApiVersion
| CheckExtension
| OpenGroup
| GroupGetStatus
| GroupSetContainer
| SetIommu
| IommuInit
| IommuGetInfo (argsz : Z)
| IommuClose
| InitCapabilities
| CloseGroup
| CloseContainer
| Malloc (size : Z)
| Memcpy (offset bytes : Z)
| SetIrqs (argsz flags index start count : Z)
| Free.

(** What the kernel answers to the calls of one [vfio_open]: the return
    values of [open] and [ioctl], the flags of the group status, and the
    [argsz] and [flags] it writes into the IOMMU info. *)
Record open_env : Type := OpenEnv {
  open_container : Z;
  get_api_version : Z;
  check_extension : Z;
  open_group : Z;
  group_get_status : Z;
  group_status_flags : Z;
  group_set_container : Z;
  set_iommu : Z;
  iommu_get_info : Z;
  iommu_info_argsz : Z;
  iommu_get_extended_info : Z;
  iommu_info_flags : Z;
}.

(** The labels [err:] and [err_close_container:] of [vfio_open]. *)
Definition open_err (tr : list vfio_call) : Z * list vfio_call :=
  (-1, tr ++ [CloseGroup; CloseContainer]).
Definition open_err_close_container (tr : list vfio_call) : Z * list vfio_call :=
  (-1, tr ++ [CloseContainer]).

(** [vfio_open] as the sequence of calls it makes, with its return value;
    [info_size] is [sizeof(struct vfio_iommu_type1_info)].  (The state it
    leaves on success is [vfio_open] above.) *)
Definition vfio_open_calls (info_size : Z) (env : open_env) : Z * list vfio_call :=
  let tr := [OpenContainer] in
  if open_container env <? 0 then (-1, tr)
  else
    let tr := tr ++ [GetApiVersion] in
    if negb (get_api_version env =? VFIO_API_VERSION) then open_err_close_container tr
    else
      let tr := tr ++ [CheckExtension] in
      if check_extension env =? 0 then open_err_close_container tr
      else
        let tr := tr ++ [OpenGroup] in
        if open_group env <? 0 then open_err_close_container tr
        else
          let tr := tr ++ [GroupGetStatus] in
          if negb (group_get_status env =? 0) then open_err tr
          else if Z.land (group_status_flags env) VFIO_GROUP_FLAGS_VIABLE =? 0
          then open_err tr
          else
            let tr := tr ++ [GroupSetContainer] in
            if negb (group_set_container env =? 0) then open_err tr
            else
              let tr := tr ++ [SetIommu] in
              if negb (set_iommu env =? 0) then open_err tr
              else
                let tr := tr ++ [IommuInit; IommuGetInfo info_size] in
                if negb (iommu_get_info env =? 0) then open_err tr
                else if info_size <? iommu_info_argsz env then
                  let tr := tr ++ [IommuGetInfo (iommu_info_argsz env)] in
                  if negb (iommu_get_extended_info env =? 0)
                  then open_err (tr ++ [IommuClose])
                  else if negb (Z.land (iommu_info_flags env) VFIO_IOMMU_INFO_CAPS =? 0)
                  then (0, tr ++ [InitCapabilities])
                  else (0, tr)
                else (0, tr).

(** [vfio_set_irq]: the return value, the [errno] the function itself
    stores, and its calls.  [irq_flags] and [irq_index] are the fields of
    [vfio->irq_info], [count] is an [unsigned int], [ioctl_ret] is what
    [VFIO_DEVICE_SET_IRQS] returns.  [irq_set_size] is a [uint32_t]; the
    product [sizeof(int) * count] is a [size_t]. *)
Definition vfio_set_irq (irq_flags irq_index count ioctl_ret : Z)
  : Z * option Z * list vfio_call :=
  if Z.land irq_flags VFIO_IRQ_INFO_EVENTFD =? 0 then (-1, Some EINVAL, [])
  else
    let irq_set_size := wrap32 (SIZEOF_VFIO_IRQ_SET + wrap64 (SIZEOF_INT * count)) in
    let tr :=
      [Malloc irq_set_size;
       Memcpy SIZEOF_VFIO_IRQ_SET (wrap64 (SIZEOF_INT * count));
       SetIrqs irq_set_size (Z.lor VFIO_IRQ_SET_DATA_EVENTFD VFIO_IRQ_SET_ACTION_TRIGGER)
         irq_index 0 count;
       Free] in
    if negb (ioctl_ret =? 0) then (-1, None, tr) else (0, None, tr).

(** Membership in a list that is written out. *)
Ltac list_in :=
  apply list_elem_of_In; simpl; tauto.
Ltac list_notin :=
  let H := fresh in
  intros H; apply list_elem_of_In in H; simpl in H; intuition discriminate.
Ltac no_close :=
  repeat (apply Forall_cons; split; [repeat split; discriminate|]); apply Forall_nil_2.
Ltac group_closed pre :=
  right; split; [done|]; exists pre; split; [no_close|];
  split; [right; right; split; [done|]; split; [list_in|]; split; [done|reflexivity]|].

(** * Proofs *)

(** ** Lists of entries *)

Lemma sublist_ptrs (l1 l2 : list iova_map_entry) :
  l1 `sublist_of` l2 → ptrs l1 `sublist_of` ptrs l2.
Proof. induction 1; simpl; constructor; auto. Qed.

Lemma sublist_filter_mono (P : iova_map_entry → Prop) `{!∀ x, Decision (P x)}
    (l1 l2 : list iova_map_entry) :
  l1 `sublist_of` l2 → filter P l1 `sublist_of` filter P l2.
Proof.
  induction 1 as [|x l1 l2 _ IH|x l1 l2 _ IH]; [done| |].
  - rewrite !filter_cons. destruct (decide (P x)); [by constructor|done].
  - rewrite filter_cons. destruct (decide (P x)); [by constructor|done].
Qed.

Lemma elem_of_ptrs (e : iova_map_entry) (l : list iova_map_entry) :
  e ∈ l → e_ptr e ∈ ptrs l.
Proof. intros. by apply list_elem_of_fmap_2. Qed.

Lemma list_after_app (p : iova_map_entry) (x a : list iova_map_entry) :
  e_ptr p ∉ ptrs x → list_after (e_ptr p) (x ++ p :: a) = a.
Proof.
  induction x as [|e x IH]; simpl; intros Hp.
  - by rewrite decide_True.
  - rewrite not_elem_of_cons in Hp. destruct Hp as [Hne Hp].
    rewrite decide_False by done. auto.
Qed.

Lemma list_after_elem (p : node_ptr) (l : list iova_map_entry) (x : iova_map_entry) :
  x ∈ list_after p l → x ∈ l.
Proof.
  induction l as [|e l IH]; simpl; [done|].
  case_decide; intros Hx; right; auto.
Qed.

(** On a list without repeated entries the chain behind an entry is
    what [list_next] walks: the chain behind its successor is its tail. *)
Lemma list_after_next (p : node_ptr) (l rest : list iova_map_entry) (n : iova_map_entry) :
  NoDup (ptrs l) → list_after p l = n :: rest → list_after (e_ptr n) l = rest.
Proof.
  induction l as [|e l IH]; simpl; [done|]. intros Hnd Hl.
  apply NoDup_cons in Hnd as [Hne Hnd]. case_decide as E.
  - subst l. simpl in Hne. rewrite not_elem_of_cons in Hne. destruct Hne as [Hne _].
    rewrite decide_False by done. simpl. by rewrite decide_True.
  - rewrite decide_False; [by apply IH|].
    intros Heq. apply Hne. rewrite Heq. apply elem_of_ptrs.
    apply (list_after_elem p). rewrite Hl. left.
Qed.

Lemma list_add_after_app (p n : iova_map_entry) (x a : list iova_map_entry) :
  e_ptr p ∉ ptrs x → list_add_after (e_ptr p) n (x ++ p :: a) = Some (x ++ p :: n :: a).
Proof.
  induction x as [|e x IH]; simpl; intros Hp.
  - by rewrite decide_True.
  - rewrite not_elem_of_cons in Hp. destruct Hp as [Hne Hp].
    rewrite decide_False by done. by rewrite IH.
Qed.

Lemma skip_walk_app (q : Z) (p b : iova_map_entry) (a t : list iova_map_entry) :
  Forall (λ e, m_end e ≤ q) a → q < m_end b →
  skip_walk q p (a ++ b :: t) = last (p :: a).
Proof.
  intros Ha Hb. revert p. induction Ha as [|e a He _ IH]; intros p; cbn [skip_walk app].
  - destruct (Z.leb_spec (m_end b) q); [lia|done].
  - destruct (Z.leb_spec (m_end e) q); [|lia].
    by rewrite IH, last_cons_cons.
Qed.

Lemma list_del_from_fresh (p : node_ptr) (l : list iova_map_entry) :
  p ∉ ptrs l → list_del_from p l = l.
Proof.
  intros Hp. unfold list_del_from. induction l as [|e l IH]; [done|].
  simpl in Hp. rewrite not_elem_of_cons in Hp. destruct Hp as [Hne Hp].
  rewrite filter_cons_True by done. by rewrite IH.
Qed.


(** ** Splitting a level at a query *)

Lemma lo_hi_disjoint (q : Z) (l : list iova_map_entry) :
  lo q (hi q l) = [] ∧ hi q (lo q l) = [].
Proof.
  unfold lo, hi. split; induction l as [|e l IH]; try done;
    rewrite filter_cons; case_decide; try done;
    rewrite filter_cons_False by lia; done.
Qed.

Lemma lo_lo (q : Z) (l : list iova_map_entry) : lo q (lo q l) = lo q l.
Proof.
  unfold lo. induction l as [|e l IH]; [done|].
  rewrite filter_cons; case_decide; [|done]. rewrite filter_cons_True by done. by rewrite IH.
Qed.

Lemma hi_hi (q : Z) (l : list iova_map_entry) : hi q (hi q l) = hi q l.
Proof.
  unfold hi. induction l as [|e l IH]; [done|].
  rewrite filter_cons; case_decide; [|done]. rewrite filter_cons_True by done. by rewrite IH.
Qed.

Lemma parted_app (q : Z) (a b : list iova_map_entry) :
  Forall (λ e, m_end e ≤ q) a → Forall (λ e, q < m_end e) b →
  lo q (a ++ b) = a ∧ hi q (a ++ b) = b.
Proof.
  intros Ha Hb. unfold lo, hi. rewrite !filter_app. split.
  - replace (filter (λ e, m_end e ≤ q) b) with (@nil iova_map_entry).
    + rewrite app_nil_r. induction Ha; [done|]. rewrite filter_cons_True by done. by f_equal.
    + induction Hb; [done|]. by rewrite filter_cons_False by lia.
  - replace (filter (λ e, q < m_end e) a) with (@nil iova_map_entry).
    + simpl. induction Hb; [done|]. rewrite filter_cons_True by done. by f_equal.
    + induction Ha; [done|]. by rewrite filter_cons_False by lia.
Qed.

Lemma lo_Forall (q : Z) (l : list iova_map_entry) : Forall (λ e, m_end e ≤ q) (lo q l).
Proof. apply Forall_forall. intros e He. apply list_elem_of_filter in He. tauto. Qed.

Lemma hi_Forall (q : Z) (l : list iova_map_entry) : Forall (λ e, q < m_end e) (hi q l).
Proof. apply Forall_forall. intros e He. apply list_elem_of_filter in He. tauto. Qed.

Lemma parted_sublist (q : Z) (l' l : list iova_map_entry) :
  l' `sublist_of` l → parted q l → parted q l'.
Proof.
  intros Hsub Hp. unfold parted in *. rewrite Hp in Hsub.
  apply sublist_app_r in Hsub as (a & b & -> & Ha & Hb).
  assert (Forall (λ e, m_end e ≤ q) a).
  { apply Forall_forall. intros e He. eapply elem_of_sublist in He; [|done].
    apply list_elem_of_filter in He. tauto. }
  assert (Forall (λ e, q < m_end e) b).
  { apply Forall_forall. intros e He. eapply elem_of_sublist in He; [|done].
    apply list_elem_of_filter in He. tauto. }
  destruct (parted_app q a b) as [-> ->]; done.
Qed.

Lemma m_end_sentinel : m_end sentinel = 0.
Proof. reflexivity. Qed.

Lemma m_end_nil : m_end nil_entry = UINT64_MAX.
Proof. reflexivity. Qed.

Lemma lo_ends (q : Z) (l : list iova_map_entry) :
  0 ≤ q < UINT64_MAX →
  lo q (sentinel :: l ++ [nil_entry]) = sentinel :: lo q l
  ∧ hi q (sentinel :: l ++ [nil_entry]) = hi q l ++ [nil_entry].
Proof.
  intros Hq. unfold lo, hi. split.
  - rewrite filter_cons_True by (rewrite m_end_sentinel; lia).
    rewrite filter_app. rewrite (filter_cons_False _ nil_entry) by (rewrite m_end_nil; lia).
    by rewrite filter_nil, app_nil_r.
  - rewrite filter_cons_False by (rewrite m_end_sentinel; lia).
    rewrite filter_app. rewrite (filter_cons_True _ nil_entry) by (rewrite m_end_nil; lia).
    by rewrite filter_nil.
Qed.

(** ** The levels of a well-formed index *)

Section Shape.
Context (m : iova_map) (Hm : skiplist_shape m).

Lemma level_sub (j k : nat) :
  (j ≤ k)%nat → (k < SKIPLIST_LEVELS)%nat →
  level (heads m) k `sublist_of` level (heads m) j.
Proof.
  induction 1 as [|k Hle IH]; intros Hk; [done|].
  etrans; [by apply (shape_chain m Hm)|]. apply IH. lia.
Qed.

Lemma level_nodup (k : nat) :
  (k < SKIPLIST_LEVELS)%nat → NoDup (ptrs (level (heads m) k)).
Proof.
  intros Hk. eapply sublist_NoDup; [apply (shape_nodup m Hm)|].
  apply sublist_ptrs, level_sub; [lia|done].
Qed.

Lemma level_parted (q : Z) (k : nat) :
  (k < SKIPLIST_LEVELS)%nat → parted q (level (heads m) 0) → parted q (level (heads m) k).
Proof. intros Hk. apply parted_sublist, level_sub; [lia|done]. Qed.

Lemma lo_level_sub (q : Z) (j k : nat) :
  (j ≤ k)%nat → (k < SKIPLIST_LEVELS)%nat →
  lo q (level (heads m) k) `sublist_of` lo q (level (heads m) j).
Proof. intros. by apply sublist_filter_mono, level_sub. Qed.

Lemma hi_level_sub (q : Z) (j k : nat) :
  (j ≤ k)%nat → (k < SKIPLIST_LEVELS)%nat →
  hi q (level (heads m) k) `sublist_of` hi q (level (heads m) j).
Proof. intros. by apply sublist_filter_mono, level_sub. Qed.

Lemma level_lo_hi (q : Z) (k : nat) :
  0 ≤ q < UINT64_MAX → (k < SKIPLIST_LEVELS)%nat →
  ∃ l, level (heads m) k = sentinel :: l ++ [nil_entry]
       ∧ lo q (level (heads m) k) = sentinel :: lo q l
       ∧ hi q (level (heads m) k) = hi q l ++ [nil_entry].
Proof.
  intros Hq Hk. destruct (shape_ends m Hm k Hk) as [l Hl].
  exists l. rewrite Hl. split; [done|]. by apply lo_ends.
Qed.

Lemma hi_level_cons (q : Z) (k : nat) :
  0 ≤ q < UINT64_MAX → (k < SKIPLIST_LEVELS)%nat →
  ∃ b t, hi q (level (heads m) k) = b :: t ∧ q < m_end b.
Proof.
  intros Hq Hk. destruct (level_lo_hi q k Hq Hk) as (l & _ & _ & Hhi).
  pose proof (hi_Forall q (level (heads m) k)) as HF.
  destruct (hi q (level (heads m) k)) as [|b t] eqn:E.
  - by destruct (hi q l).
  - exists b, t. split; [done|]. by inv HF.
Qed.

Lemma last_lo_level (q : Z) (k : nat) :
  0 ≤ q < UINT64_MAX → (k < SKIPLIST_LEVELS)%nat →
  ∃ p, last (lo q (level (heads m) k)) = Some p ∧ p ∈ lo q (level (heads m) k).
Proof.
  intros Hq Hk. destruct (level_lo_hi q k Hq Hk) as (l & _ & Hlo & _).
  rewrite Hlo. destruct (last (sentinel :: lo q l)) as [p|] eqn:E.
  - exists p. split; [done|]. by apply last_Some_elem_of.
  - by apply last_None in E.
Qed.

(** One level of the search: from an entry the search has passed, the
    walk ends at the last entry below the query. *)
Lemma skip_walk_level (q : Z) (k : nat) (p : iova_map_entry) :
  0 ≤ q < UINT64_MAX → (k < SKIPLIST_LEVELS)%nat →
  parted q (level (heads m) 0) →
  p ∈ lo q (level (heads m) k) →
  skip_walk q p (list_after (e_ptr p) (level (heads m) k))
  = last (lo q (level (heads m) k)).
Proof.
  intros Hq Hk Hpart Hp.
  pose proof (level_parted q k Hk Hpart) as Hl.
  pose proof (level_nodup k Hk) as Hnd.
  destruct (hi_level_cons q k Hq Hk) as (b & t & Hhi & Hb).
  apply list_elem_of_split in Hp as (x & a & Hlo).
  pose proof (lo_Forall q (level (heads m) k)) as HF.
  rewrite Hl in Hnd |- * at 1. rewrite Hlo, Hhi in *.
  rewrite <- app_assoc in *. simpl in *.
  unfold ptrs in Hnd. rewrite fmap_app in Hnd. apply NoDup_app in Hnd as (_ & Hnd & _).
  rewrite list_after_app.
  - rewrite skip_walk_app; [|by apply Forall_app in HF as [_ HF]; inv HF|done].
    by rewrite last_app_cons.
  - intros Hin. eapply Hnd; [done|]. simpl. left.
Qed.

Lemma skip_list_next_level (q : Z) (k : nat) (p : iova_map_entry) :
  0 ≤ q < UINT64_MAX → (k < SKIPLIST_LEVELS)%nat →
  parted q (level (heads m) 0) →
  last (lo q (level (heads m) k)) = Some p →
  skip_list_next (heads m) p k = head (hi q (level (heads m) k)).
Proof.
  intros Hq Hk Hpart Hp. unfold skip_list_next.
  pose proof (level_parted q k Hk Hpart) as Hl.
  pose proof (level_nodup k Hk) as Hnd.
  apply last_Some in Hp as [x Hlo].
  rewrite Hl in Hnd |- * at 1. rewrite Hlo in *.
  rewrite <- app_assoc in *. simpl in *.
  unfold ptrs in Hnd. rewrite fmap_app in Hnd. apply NoDup_app in Hnd as (_ & Hnd & _).
  rewrite list_after_app; [done|].
  intros Hin. eapply Hnd; [done|]. simpl. left.
Qed.

Lemma find_descend_spec (q : Z) (k : nat) :
  0 ≤ q < UINT64_MAX → parted q (level (heads m) 0) →
  (k < SKIPLIST_LEVELS)%nat →
  ∀ (p : iova_map_entry) (path : path_t),
  p ∈ lo q (level (heads m) k) → length path = SKIPLIST_LEVELS →
  ∃ p0 path',
    find_descend (heads m) q p k path = Some (p0, path')
    ∧ last (lo q (level (heads m) 0)) = Some p0
    ∧ length path' = SKIPLIST_LEVELS
    ∧ (∀ j, (j ≤ k)%nat → path_at path' j = last (lo q (level (heads m) j)))
    ∧ (∀ j, (k < j)%nat → path_at path' j = path_at path j).
Proof.
  intros Hq Hpart. induction k as [|k IH]; intros Hk p path Hp Hlen;
    destruct (last_lo_level q _ Hq Hk) as (p' & Hlast & Hp');
    cbn [find_descend]; rewrite skip_walk_level, Hlast by done; cbn [mbind option_bind].
  - eexists _, _. split; [done|]. split; [done|].
    split; [by rewrite length_insert|]. split.
    + intros j Hj. assert (j = 0%nat) as -> by lia.
      unfold path_at. rewrite list_lookup_insert_eq by (rewrite Hlen; done). by rewrite Hlast.
    + intros j Hj. unfold path_at. by rewrite list_lookup_insert_ne by lia.
  - destruct (IH ltac:(lia) p' (<[S k := Some p']> path)) as (p0 & path' & Hd & H0 & Hl' & Hle & Hgt).
    { eapply elem_of_sublist; [done|]. apply lo_level_sub; [lia|done]. }
    { by rewrite length_insert. }
    exists p0, path'. split; [done|]. split; [done|]. split; [done|]. split.
    + intros j Hj. destruct (decide (j = S k)) as [->|Hne].
      * rewrite Hgt by lia. unfold path_at.
        rewrite list_lookup_insert_eq by (rewrite Hlen; done). by rewrite Hlast.
      * apply Hle. lia.
    + intros j Hj. rewrite Hgt by lia. unfold path_at.
      by rewrite list_lookup_insert_ne by lia.
Qed.

(** What [__iova_map_find_path] computes on a level-0 list that splits at
    the query: the successor [c] of the split if it contains the query,
    and on every level in use the last entry before the split. *)
Lemma find_path_spec (q : Z) (path : path_t) :
  0 ≤ q < UINT64_MAX → parted q (level (heads m) 0) →
  length path = SKIPLIST_LEVELS →
  ∃ c t path',
    hi q (level (heads m) 0) = c :: t
    ∧ __iova_map_find_path m q path
      = Some (if contains c q then Some c else None, path')
    ∧ length path' = SKIPLIST_LEVELS
    ∧ (∀ j, (j ≤ height m)%nat → path_at path' j = last (lo q (level (heads m) j)))
    ∧ (∀ j, (height m < j)%nat → path_at path' j = path_at path j).
Proof.
  intros Hq Hpart Hlen. pose proof (shape_height m Hm) as Hh.
  destruct (level_lo_hi q (height m) Hq Hh) as (l & _ & Hlo & _).
  destruct (find_descend_spec q (height m) Hq Hpart Hh sentinel path)
    as (p0 & path' & Hd & H0 & Hl' & Hle & Hgt); [rewrite Hlo; left|done|].
  destruct (hi_level_cons q 0 Hq ltac:(lia)) as (c & t & Hhi & Hc).
  exists c, t, path'. split; [done|]. split; [|done].
  unfold __iova_map_find_path. rewrite Hd. cbn [mbind option_bind].
  rewrite (skip_list_next_level q 0 p0 Hq) by (done || lia). by rewrite Hhi.
Qed.
End Shape.

(** ** Searching an ordered index *)

Lemma m_end_valid (e : iova_map_entry) :
  valid_entry e → m_end e = vaddr (mapping e) + len (mapping e).
Proof.
  intros (? & ? & ?). unfold m_end, wrap64, UINT64_MAX in *.
  apply Z.mod_small. lia.
Qed.

Lemma contains_inside (e : iova_map_entry) (q : Z) :
  valid_entry e → contains e q = true ↔ inside e q.
Proof.
  intros He. unfold contains, inside. rewrite (m_end_valid e He).
  rewrite andb_true_iff, Z.leb_le, Z.ltb_lt. tauto.
Qed.

Lemma sorted_parted (q : Z) (l : list iova_map_entry) :
  Forall valid_entry l → StronglySorted before l → parted q l.
Proof.
  intros Hv Hs. induction Hs as [|a l Hs IH Ha]; [done|].
  inv Hv. unfold parted, lo, hi. destruct (decide (m_end a ≤ q)) as [Hle|Hgt].
  - rewrite filter_cons_True, filter_cons_False by lia. simpl. f_equal. by apply IH.
  - destruct (parted_app q [] (a :: l)) as [Hlo Hhi]; [done| |].
    + constructor; [lia|]. apply Forall_forall. intros b Hb.
      rewrite Forall_forall in Ha. specialize (Ha b Hb). unfold before in Ha.
      assert (valid_entry b) as Hvb by (eapply Forall_forall; eauto).
      rewrite (m_end_valid b Hvb). destruct Hvb as (? & ? & ?). lia.
    + simpl in Hlo, Hhi. unfold lo, hi in Hlo, Hhi. by rewrite Hlo, Hhi.
Qed.

Section Find.
Context (m : iova_map) (Hm : skiplist_ok m).

Lemma ok_parted (q : Z) : parted q (level (heads m) 0).
Proof. apply sorted_parted; [apply (ok_valid m Hm)|apply (ok_sorted m Hm)]. Qed.

Lemma ok_valid_entry (e : iova_map_entry) :
  e ∈ level (heads m) 0 → valid_entry e.
Proof. intros He. eapply Forall_forall; [apply (ok_valid m Hm)|done]. Qed.

Lemma length_empty_path : length empty_path = SKIPLIST_LEVELS.
Proof. reflexivity. Qed.

(** An address inside an entry is found, with that entry. *)
Lemma find_inside (q : Z) (e : iova_map_entry) :
  0 ≤ q < UINT64_MAX → e ∈ level (heads m) 0 → inside e q →
  iommu_find_mapping m q = Some (Some e).
Proof.
  intros Hq He Hin. unfold iommu_find_mapping.
  destruct (find_path_spec m (ok_shape m Hm) q empty_path Hq (ok_parted q) length_empty_path)
    as (c & t & path' & Hhi & -> & _).
  simpl. do 2 f_equal.
  pose proof (ok_parted q) as Hp. pose proof (ok_sorted m Hm) as Hs.
  rewrite Hp, Hhi in Hs.
  assert (e ∈ c :: t) as Hect.
  { rewrite <- Hhi. apply list_elem_of_filter. split; [|done].
    rewrite (m_end_valid e (ok_valid_entry e He)). unfold inside in Hin. lia. }
  assert (c ∈ level (heads m) 0) as Hc.
  { rewrite Hp, Hhi. apply elem_of_app. right. left. }
  apply elem_of_cons in Hect as [->|Het].
  - by rewrite (proj2 (contains_inside c q (ok_valid_entry c Hc))).
  - apply StronglySorted_app_1_r in Hs. inv Hs.
    match goal with H : Forall (before c) t |- _ => rewrite Forall_forall in H; specialize (H e Het); unfold before in H end.
    assert (q < m_end c).
    { pose proof (hi_Forall q (level (heads m) 0)) as HF. rewrite Hhi in HF. by inv HF. }
    unfold inside in Hin. lia.
Qed.

(** An address inside no entry is not found. *)
Lemma find_outside (q : Z) :
  0 ≤ q < UINT64_MAX →
  (∀ e, e ∈ level (heads m) 0 → ¬ inside e q) →
  iommu_find_mapping m q = Some None.
Proof.
  intros Hq Hout. unfold iommu_find_mapping.
  destruct (find_path_spec m (ok_shape m Hm) q empty_path Hq (ok_parted q) length_empty_path)
    as (c & t & path' & Hhi & -> & _).
  simpl. do 2 f_equal.
  assert (c ∈ level (heads m) 0) as Hc.
  { rewrite (ok_parted q), Hhi. apply elem_of_app. right. left. }
  destruct (contains c q) eqn:E; [|done].
  apply (contains_inside c q (ok_valid_entry c Hc)) in E. by destruct (Hout c Hc).
Qed.

(** The search never fails, and what it returns contains the query. *)
Lemma find_sound (q : Z) :
  0 ≤ q < UINT64_MAX →
  ∃ r, iommu_find_mapping m q = Some r
       ∧ ∀ e, r = Some e → e ∈ level (heads m) 0 ∧ inside e q.
Proof.
  intros Hq. unfold iommu_find_mapping.
  destruct (find_path_spec m (ok_shape m Hm) q empty_path Hq (ok_parted q) length_empty_path)
    as (c & t & path' & Hhi & -> & _).
  simpl. eexists. split; [done|]. intros e He.
  assert (c ∈ level (heads m) 0) as Hc.
  { rewrite (ok_parted q), Hhi. apply elem_of_app. right. left. }
  destruct (contains c q) eqn:E; [|done]. injection He as <-. split; [done|].
  by apply (contains_inside c q (ok_valid_entry c Hc)).
Qed.

Lemma inside_unique (q : Z) (e e' : iova_map_entry) :
  0 ≤ q < UINT64_MAX →
  e ∈ level (heads m) 0 → e' ∈ level (heads m) 0 →
  inside e q → inside e' q → e = e'.
Proof.
  intros Hq He He' Hi Hi'.
  pose proof (find_inside q e Hq He Hi) as H1.
  pose proof (find_inside q e' Hq He' Hi') as H2. congruence.
Qed.
End Find.

(** ** Linking an entry *)

Lemma level_insert (hd : list (list iova_map_entry)) (k j : nat) (l : list iova_map_entry) :
  (k < length hd)%nat →
  level (<[k := l]> hd) j = if decide (j = k) then l else level hd j.
Proof.
  intros Hk. unfold level. case_decide as E.
  - subst. by rewrite list_lookup_insert_eq.
  - by rewrite list_lookup_insert_ne.
Qed.

Lemma random_level_from_le (rand : nat → Z) (n k : nat) :
  (random_level_from rand n k ≤ n + k)%nat.
Proof.
  revert k. induction n as [|n IH]; intros k; simpl; [lia|].
  case_match; [|lia]. specialize (IH (S k)). lia.
Qed.

Lemma random_level_lt (rand : nat → Z) : (random_level rand < SKIPLIST_LEVELS)%nat.
Proof.
  unfold random_level. pose proof (random_level_from_le rand (SKIPLIST_LEVELS - 1) 0).
  unfold SKIPLIST_LEVELS in *. lia.
Qed.

Lemma list_add_after_last (p n : iova_map_entry) (a b : list iova_map_entry) :
  NoDup (ptrs (a ++ b)) → last a = Some p →
  list_add_after (e_ptr p) n (a ++ b) = Some (a ++ n :: b).
Proof.
  intros Hnd [x ->]%last_Some. rewrite <- !app_assoc. simpl.
  apply list_add_after_app. unfold ptrs in Hnd.
  rewrite <- app_assoc, fmap_app in Hnd. apply NoDup_app in Hnd as (_ & Hnd & _).
  intros Hin. eapply Hnd; [done|]. simpl. left.
Qed.

Lemma NoDup_ptrs_insert (n : iova_map_entry) (a b : list iova_map_entry) :
  NoDup (ptrs (a ++ b)) → e_ptr n ∉ ptrs (a ++ b) → NoDup (ptrs (a ++ n :: b)).
Proof.
  unfold ptrs. rewrite !fmap_app, fmap_cons. intros Hnd Hn.
  rewrite <- Permutation_middle. by constructor.
Qed.

Section Add.
Context (m : iova_map) (Hm : skiplist_shape m).
Context (q : Z) (Hq : 0 ≤ q < UINT64_MAX) (Hpart : parted q (level (heads m) 0)).
Context (n : iova_map_entry) (Hn : e_ptr n ∉ ptrs (level (heads m) 0)).

Lemma level_add_after (k : nat) (p : iova_map_entry) :
  (k < SKIPLIST_LEVELS)%nat → last (lo q (level (heads m) k)) = Some p →
  list_add_after (e_ptr p) n (level (heads m) k)
  = Some (lo q (level (heads m) k) ++ n :: hi q (level (heads m) k)).
Proof.
  intros Hk Hlast.
  pose proof (level_parted m Hm q _ Hk Hpart) as Hl.
  pose proof (level_nodup m Hm _ Hk) as Hnd.
  unfold parted in Hl. rewrite Hl in Hnd. rewrite Hl at 1.
  by apply list_add_after_last.
Qed.

Lemma add_levels_spec (update : path_t) (k : nat) :
  (k < SKIPLIST_LEVELS)%nat →
  (∀ j, (j ≤ k)%nat → path_at update j = last (lo q (level (heads m) j))) →
  ∀ hd, length hd = SKIPLIST_LEVELS →
  (∀ j, (j ≤ k)%nat → level hd j = level (heads m) j) →
  ∃ hd', add_levels n update k hd = Some hd'
    ∧ length hd' = SKIPLIST_LEVELS
    ∧ (∀ j, (j ≤ k)%nat →
         level hd' j = lo q (level (heads m) j) ++ n :: hi q (level (heads m) j))
    ∧ (∀ j, (k < j)%nat → level hd' j = level hd j).
Proof.
  induction k as [|k IH]; intros Hk Hup hd Hlen Hhd;
    destruct (last_lo_level m Hm q _ Hq Hk) as (p & Hlast & _);
    cbn [add_levels]; rewrite Hup, Hlast by lia; cbn [mbind option_bind];
    rewrite Hhd by lia;
    rewrite (level_add_after _ p) by done; cbn [mbind option_bind].
  - eexists. split; [done|]. split; [by rewrite length_insert|]. split.
    + intros j Hj. assert (j = 0%nat) as -> by lia.
      rewrite level_insert by lia. by rewrite decide_True.
    + intros j Hj. rewrite level_insert by lia. by rewrite decide_False by lia.
  - set (hd1 := <[S k := _]> hd).
    destruct (IH ltac:(lia) ltac:(intros; apply Hup; lia) hd1) as (hd' & Ha & Hlen' & Hle & Hgt).
    { unfold hd1. by rewrite length_insert. }
    { intros j Hj. unfold hd1. rewrite level_insert by lia.
      rewrite decide_False by lia. apply Hhd. lia. }
    exists hd'. split; [done|]. split; [done|]. split.
    + intros j Hj. destruct (decide (j = S k)) as [->|Hne].
      * rewrite Hgt by lia. unfold hd1. rewrite level_insert by lia. by rewrite decide_True.
      * apply Hle. lia.
    + intros j Hj. rewrite Hgt by lia. unfold hd1. rewrite level_insert by lia.
      by rewrite decide_False by lia.
Qed.

(** An index whose first [k + 1] levels have [n] linked at the split. *)
Lemma add_shape (h k : nat) (hd' : list (list iova_map_entry)) :
  (height m ≤ h)%nat → (k ≤ h)%nat → (h < SKIPLIST_LEVELS)%nat →
  length hd' = SKIPLIST_LEVELS →
  (∀ j, (j ≤ k)%nat →
     level hd' j = lo q (level (heads m) j) ++ n :: hi q (level (heads m) j)) →
  (∀ j, (k < j)%nat → level hd' j = level (heads m) j) →
  skiplist_shape (IovaMap h hd').
Proof.
  intros Hh Hk Hh8 Hlen Hle Hgt. split; simpl.
  - done.
  - done.
  - rewrite Hle by lia. apply NoDup_ptrs_insert.
    + rewrite <- Hpart. apply (shape_nodup m Hm).
    + by rewrite <- Hpart.
  - intros j Hj. destruct (level_lo_hi m Hm q j Hq Hj) as (l & Hl & Hlo & Hhi).
    destruct (decide (j ≤ k)%nat).
    + rewrite Hle, Hlo, Hhi by done. exists (lo q l ++ n :: hi q l).
      simpl. by rewrite <- app_assoc.
    + rewrite Hgt by lia. eauto.
  - intros j Hj. destruct (decide (S j ≤ k)%nat).
    + rewrite !Hle by lia. apply sublist_app; [apply lo_level_sub; [done|lia|done] |].
      apply sublist_skip. apply hi_level_sub; [done|lia|done].
    + rewrite (Hgt (S j)) by lia. destruct (decide (j ≤ k)%nat).
      * rewrite Hle by done.
        rewrite (level_parted m Hm q (S j)) at 1 by done.
        apply sublist_app; [apply lo_level_sub; [done|lia|done] |].
        apply sublist_cons. apply hi_level_sub; [done|lia|done].
      * rewrite Hgt by lia. by apply (shape_chain m Hm).
  - intros j Hj. rewrite Hgt by lia. apply (shape_above m Hm). lia.
Qed.

Lemma lo_above (j : nat) :
  (height m < j < SKIPLIST_LEVELS)%nat → last (lo q (level (heads m) j)) = Some sentinel.
Proof.
  intros Hj. rewrite (shape_above m Hm j Hj).
  destruct (lo_ends q [] Hq) as [Hlo _]. simpl in Hlo. by rewrite Hlo.
Qed.

(** [__iova_map_add] with the path [__iova_map_find_path] computed. *)
Lemma map_add_spec (update : path_t) (k0 : nat) :
  (k0 < SKIPLIST_LEVELS)%nat → length update = SKIPLIST_LEVELS →
  (∀ j, (j ≤ height m)%nat → path_at update j = last (lo q (level (heads m) j))) →
  ∃ m', __iova_map_add m n update k0 = Some m'
    ∧ skiplist_shape m'
    ∧ level (heads m') 0 = lo q (level (heads m) 0) ++ n :: hi q (level (heads m) 0).
Proof.
  intros Hk0 Hlen Hup. pose proof (shape_height m Hm) as Hh.
  unfold __iova_map_add. case_decide as Hcase.
  - destruct (add_levels_spec (<[S (height m) := Some sentinel]> update) (S (height m)))
      with (hd := heads m) as (hd' & -> & Hlen' & Hle & Hgt).
    + lia.
    + intros j Hj. unfold path_at. destruct (decide (j = S (height m))) as [->|Hne].
      * rewrite list_lookup_insert_eq by lia. simpl. symmetry. apply lo_above. lia.
      * rewrite list_lookup_insert_ne by done. apply Hup. lia.
    + apply (shape_length m Hm).
    + done.
    + eexists. split; [done|]. split; [|by apply Hle; lia].
      apply (add_shape _ (S (height m))); try done; lia.
  - destruct (add_levels_spec update k0) with (hd := heads m)
      as (hd' & -> & Hlen' & Hle & Hgt).
    + done.
    + intros j Hj. apply Hup. lia.
    + apply (shape_length m Hm).
    + done.
    + eexists. split; [done|]. split; [|by apply Hle; lia].
      apply (add_shape _ k0); try done; lia.
Qed.
End Add.

(** [iova_map_add] of an address no entry contains. *)
Lemma iova_map_add_spec (env : add_env) (m : iova_map) (v l i : Z) (a : nat) :
  skiplist_shape m → 0 ≤ v < UINT64_MAX → parted v (level (heads m) 0) →
  (∀ e, e ∈ level (heads m) 0 → contains e v = false) →
  alloc env = Some a → PHeap a ∉ ptrs (level (heads m) 0) →
  ∃ m', iova_map_add env m v l i = Some (0, None, m')
    ∧ skiplist_shape m'
    ∧ level (heads m') 0
      = lo v (level (heads m) 0) ++ Entry (PHeap a) (Mapping v l i) :: hi v (level (heads m) 0).
Proof.
  intros Hm Hv Hpart Hfree Ha Hfresh. unfold iova_map_add.
  destruct (find_path_spec m Hm v empty_path Hv Hpart eq_refl)
    as (c & t & path' & Hhi & -> & Hlen & Hle & _).
  cbn [mbind option_bind]. rewrite Hfree.
  2:{ rewrite Hpart, Hhi. apply elem_of_app. right. left. }
  rewrite Ha.
  destruct (map_add_spec m Hm v Hv Hpart (Entry (PHeap a) (Mapping v l i)) Hfresh
              path' (random_level (rand env))) as (m' & -> & Hm' & H0);
    [apply random_level_lt|done|done|].
  exists m'. done.
Qed.

(** ** Unlinking an entry *)

Lemma ptr_unique (l : list iova_map_entry) (x y : iova_map_entry) :
  NoDup (ptrs l) → x ∈ l → y ∈ l → e_ptr x = e_ptr y → x = y.
Proof.
  induction l as [|e l IH]; simpl; intros Hnd Hx Hy Heq; [by apply elem_of_nil in Hx|].
  apply NoDup_cons in Hnd as [Hne Hnd].
  apply elem_of_cons in Hx as [->|Hx]; apply elem_of_cons in Hy as [->|Hy]; auto.
  - destruct Hne. rewrite Heq. by apply elem_of_ptrs.
  - destruct Hne. rewrite <- Heq. by apply elem_of_ptrs.
Qed.

Lemma not_elem_of_ptrs_sublist (p : node_ptr) (l1 l2 : list iova_map_entry) :
  l1 `sublist_of` l2 → p ∉ ptrs l2 → p ∉ ptrs l1.
Proof. intros Hs Hp Hin. apply Hp. eapply elem_of_sublist; [done|]. by apply sublist_ptrs. Qed.

Lemma reduce_height_spec (hd : list (list iova_map_entry)) (h : nat) :
  (reduce_height hd h ≤ h)%nat
  ∧ ∀ j, (reduce_height hd h < j ≤ h)%nat →
      e_ptr <$> skip_list_next hd sentinel j = Some PNil.
Proof.
  induction h as [|h [IH1 IH2]]; simpl; [split; [done|intros; lia]|].
  case_decide as E; [|split; [done|intros; lia]].
  split; [lia|]. intros j Hj. destruct (decide (j = S h)) as [->|]; [done|].
  apply IH2. lia.
Qed.

Lemma StronglySorted_filter (P : iova_map_entry → Prop) `{!∀ x, Decision (P x)}
    (l : list iova_map_entry) :
  StronglySorted before l → StronglySorted before (filter P l).
Proof.
  induction 1 as [|a l Hs IH Ha]; [constructor|].
  rewrite filter_cons. case_decide; [|done]. constructor; [done|].
  apply Forall_forall. intros b Hb. apply list_elem_of_filter in Hb as [_ Hb].
  rewrite Forall_forall in Ha. auto.
Qed.

Section Remove.
Context (m : iova_map) (Hm : skiplist_shape m).
Context (q : Z) (Hq : 0 ≤ q < UINT64_MAX) (Hpart : parted q (level (heads m) 0)).
Context (c : iova_map_entry) (t : list iova_map_entry).
Context (Hhi : hi q (level (heads m) 0) = c :: t).
Context (Hc : contains c q = true).

Lemma found_in_level0 : c ∈ level (heads m) 0.
Proof. rewrite Hpart, Hhi. apply elem_of_app. right. left. Qed.

Lemma found_ptr_heap : e_ptr c ≠ PSentinel ∧ e_ptr c ≠ PNil.
Proof.
  pose proof found_in_level0 as Hin. pose proof (shape_nodup m Hm) as Hnd.
  destruct (shape_ends m Hm 0 ltac:(unfold SKIPLIST_LEVELS; lia)) as [l Hl].
  assert (sentinel ∈ level (heads m) 0) as Hs by (rewrite Hl; left).
  assert (nil_entry ∈ level (heads m) 0) as Hn.
  { rewrite Hl. right. apply elem_of_app. right. left. }
  split; intros E.
  - assert (c = sentinel) as -> by (by apply (ptr_unique _ _ _ Hnd)).
    unfold contains in Hc. simpl in Hc. rewrite m_end_sentinel in Hc.
    apply andb_true_iff in Hc as [H1 H2]. apply Z.ltb_lt in H2. lia.
  - assert (c = nil_entry) as -> by (by apply (ptr_unique _ _ _ Hnd)).
    unfold contains in Hc. simpl in Hc.
    apply andb_true_iff in Hc as [H1 H2]. apply Z.leb_le in H1. lia.
Qed.

(** On each level the found entry is either the successor of the path
    or not linked at all. *)
Lemma found_level (k : nat) :
  (k < SKIPLIST_LEVELS)%nat →
  (∃ b, head (hi q (level (heads m) k)) = Some b ∧ e_ptr b ≠ e_ptr c)
  → e_ptr c ∉ ptrs (level (heads m) k).
Proof.
  intros Hk (b & Hb & Hne) Hin.
  apply list_elem_of_fmap in Hin as (x & Hx & Hxin).
  pose proof (level_sub m Hm 0 k ltac:(lia) Hk) as Hsub.
  assert (x = c) as ->.
  { apply (ptr_unique (level (heads m) 0)); [apply (shape_nodup m Hm)| |apply found_in_level0|done].
    by eapply elem_of_sublist. }
  assert (q < m_end c) as Hend.
  { pose proof (hi_Forall q (level (heads m) 0)) as HF. rewrite Hhi in HF. by inv HF. }
  assert (c ∈ hi q (level (heads m) k)) as Hchi by (by apply list_elem_of_filter).
  pose proof (hi_level_sub m Hm q 0 k ltac:(lia) Hk) as Hsubhi. rewrite Hhi in Hsubhi.
  destruct (hi q (level (heads m) k)) as [|b' tk]; [done|]. simpl in Hb. injection Hb as ->.
  apply elem_of_cons in Hchi as [->|Hct]; [done|].
  apply sublist_cons_r in Hsubhi as [Hsubt|(l' & [= -> ->] & _)]; [|done].
  assert (c ∈ t) as Hin' by (eapply elem_of_sublist; [|done]; by right).
  pose proof (shape_nodup m Hm) as Hnd. apply NoDup_fmap_1 in Hnd.
  rewrite Hpart, Hhi in Hnd. apply NoDup_app in Hnd as (_ & _ & Hnd).
  apply NoDup_cons in Hnd as [Hnd _]. done.
Qed.

Lemma remove_levels_spec (update : path_t) :
  (∀ j, (j ≤ height m)%nat → path_at update j = last (lo q (level (heads m) j))) →
  ∀ cnt r hd, (r + cnt = S (height m))%nat → length hd = SKIPLIST_LEVELS →
  (∀ j, (j < r)%nat → level hd j = list_del_from (e_ptr c) (level (heads m) j)) →
  (∀ j, (r ≤ j)%nat → level hd j = level (heads m) j) →
  ∃ hd', remove_levels c update r cnt hd = Some hd'
    ∧ length hd' = SKIPLIST_LEVELS
    ∧ ∀ j, (j < SKIPLIST_LEVELS)%nat →
        level hd' j = list_del_from (e_ptr c) (level (heads m) j).
Proof.
  intros Hup. pose proof (shape_height m Hm) as Hh.
  destruct found_ptr_heap as [Hns Hnn].
  induction cnt as [|cnt IH]; intros r hd Hr Hlen Hlt Hge; cbn [remove_levels].
  - exists hd. split; [done|]. split; [done|].
    intros j Hj. destruct (decide (j < r)%nat); [by apply Hlt|].
    rewrite Hge by lia. rewrite (shape_above m Hm j) by lia.
    unfold list_del_from. by rewrite !filter_cons_True, filter_nil by done.
  - assert (r < SKIPLIST_LEVELS)%nat as Hr8 by lia.
    destruct (last_lo_level m Hm q r Hq Hr8) as (u & Hlast & _).
    rewrite Hup, Hlast by lia. cbn [mbind option_bind].
    assert (skip_list_next hd u r = head (hi q (level (heads m) r))) as ->.
    { rewrite <- (skip_list_next_level m Hm q r u) by done.
      unfold skip_list_next. by rewrite Hge. }
    case_decide as E.
    + apply IH; [lia|by rewrite length_insert| |].
      * intros j Hj. rewrite level_insert by lia. case_decide as Ej.
        -- subst. by rewrite Hge.
        -- apply Hlt. lia.
      * intros j Hj. rewrite level_insert by lia. rewrite decide_False by lia.
        apply Hge. lia.
    + exists hd. split; [done|]. split; [done|].
      intros j Hj. destruct (decide (j < r)%nat); [by apply Hlt|].
      rewrite Hge by lia. symmetry. apply list_del_from_fresh.
      apply (not_elem_of_ptrs_sublist _ _ (level (heads m) r)); [apply level_sub; [done|lia|done] |].
      apply found_level; [done|].
      destruct (hi_level_cons m Hm q r Hq Hr8) as (b & tb & Hb & _).
      exists b. rewrite Hb in E |- *. split; [done|]. simpl in E. congruence.
Qed.

Lemma remove_shape (h : nat) (hd' : list (list iova_map_entry)) :
  (h ≤ height m)%nat → length hd' = SKIPLIST_LEVELS →
  (∀ j, (j < SKIPLIST_LEVELS)%nat →
     level hd' j = list_del_from (e_ptr c) (level (heads m) j)) →
  (∀ j, (h < j ≤ height m)%nat → e_ptr <$> skip_list_next hd' sentinel j = Some PNil) →
  skiplist_shape (IovaMap h hd').
Proof.
  intros Hh Hlen Hlev Hred. pose proof (shape_height m Hm) as Hh8.
  destruct found_ptr_heap as [Hns Hnn].
  assert (∀ j, (j < SKIPLIST_LEVELS)%nat →
            ∃ l, level hd' j = sentinel :: l ++ [nil_entry]) as Hends.
  { intros j Hj. destruct (shape_ends m Hm j Hj) as [l Hl]. rewrite Hlev, Hl by done.
    exists (list_del_from (e_ptr c) l). unfold list_del_from.
    rewrite filter_cons_True by done. rewrite filter_app.
    by rewrite (filter_cons_True _ nil_entry) by done. }
  assert (∀ j, (j < SKIPLIST_LEVELS)%nat → NoDup (ptrs (level hd' j))) as Hnd.
  { intros j Hj. rewrite Hlev by done. eapply sublist_NoDup; [apply (level_nodup m Hm j Hj)|].
    apply sublist_ptrs, sublist_filter. }
  split; simpl.
  - lia.
  - done.
  - apply Hnd. unfold SKIPLIST_LEVELS. lia.
  - done.
  - intros j Hj. rewrite !Hlev by lia. apply sublist_filter_mono. by apply (shape_chain m Hm).
  - intros j Hj. destruct (decide (j ≤ height m)%nat) as [Hle|Hgt].
    + specialize (Hred j ltac:(lia)). destruct (Hends j ltac:(lia)) as [l Hl].
      specialize (Hnd j ltac:(lia)). unfold skip_list_next in Hred.
      rewrite Hl in Hred, Hnd |- *. simpl in Hred. destruct l as [|x l]; [done|].
      simpl in Hred. injection Hred as Hx. exfalso.
      simpl in Hnd. apply NoDup_cons in Hnd as [_ Hnd]. apply NoDup_cons in Hnd as [Hnd _].
      apply Hnd. rewrite Hx. unfold ptrs. rewrite fmap_app. apply elem_of_app. right. left.
    + rewrite Hlev by lia. rewrite (shape_above m Hm j) by lia.
      unfold list_del_from. by rewrite !filter_cons_True, filter_nil by done.
Qed.

(** [iova_map_remove] of an address inside the entry [c]. *)
Lemma iova_map_remove_spec :
  ∃ m', iova_map_remove m q = Some (0, None, m')
    ∧ skiplist_shape m'
    ∧ level (heads m') 0 = list_del_from (e_ptr c) (level (heads m) 0).
Proof.
  unfold iova_map_remove.
  destruct (find_path_spec m Hm q empty_path Hq Hpart eq_refl)
    as (c' & t' & path' & Hhi' & -> & Hlen & Hle & _).
  rewrite Hhi in Hhi'. injection Hhi' as <- <-. rewrite Hc. cbn [mbind option_bind].
  unfold __iova_map_remove.
  destruct (remove_levels_spec path' Hle (S (height m)) 0%nat (heads m))
    as (hd' & -> & Hlen' & Hlev); [lia|apply (shape_length m Hm)|intros; lia|done|].
  destruct (reduce_height_spec hd' (height m)) as [Hh1 Hh2].
  cbn [mbind option_bind]. eexists. split; [done|].
  split; [by apply remove_shape|]. simpl. apply Hlev. unfold SKIPLIST_LEVELS. lia.
Qed.
End Remove.

(** ** The data-model invariant is kept *)

Lemma level_init (k : nat) :
  (k < SKIPLIST_LEVELS)%nat → level (heads iova_map_init) k = [sentinel; nil_entry].
Proof.
  intros Hk. unfold level, iova_map_init. cbn [heads].
  by rewrite lookup_replicate_2.
Qed.

Lemma iova_map_init_ok : skiplist_ok iova_map_init.
Proof.
  assert (0 < SKIPLIST_LEVELS)%nat as H0 by (unfold SKIPLIST_LEVELS; lia).
  split; [split|..].
  - done.
  - reflexivity.
  - rewrite level_init by done. apply NoDup_cons.
    split; [by intros ?%list_elem_of_singleton|apply NoDup_singleton].
  - intros k Hk. exists []. by rewrite level_init.
  - intros k Hk. rewrite !level_init by lia. done.
  - intros k [_ Hk]. by rewrite level_init.
  - rewrite level_init by done.
    apply Forall_cons. split; [unfold valid_entry, sentinel, UINT64_MAX; simpl; lia|].
    apply Forall_cons. split; [unfold valid_entry, nil_entry, UINT64_MAX; simpl; lia|constructor].
  - rewrite level_init by done.
    apply StronglySorted_cons. split.
    + apply Forall_cons. split; [|constructor]. unfold before, nil_entry. simpl.
      rewrite m_end_sentinel. unfold UINT64_MAX. lia.
    + apply StronglySorted_cons. split; constructor.
Qed.

Lemma valid_inside_range (e : iova_map_entry) (q : Z) :
  valid_entry e → inside e q → 0 ≤ q < UINT64_MAX.
Proof. intros (? & ? & ?) [? ?]. lia. Qed.

Section Ok.
Context (m : iova_map) (Hm : skiplist_ok m).

Lemma hi_inside (q : Z) (e : iova_map_entry) :
  e ∈ level (heads m) 0 → inside e q →
  ∃ t, hi q (level (heads m) 0) = e :: t.
Proof.
  intros He Hin.
  pose proof (valid_inside_range e q (ok_valid_entry m Hm e He) Hin) as Hq.
  pose proof (find_inside m Hm q e Hq He Hin) as Hf. unfold iommu_find_mapping in Hf.
  destruct (find_path_spec m (ok_shape m Hm) q empty_path Hq (ok_parted m Hm q) eq_refl)
    as (c & t & path' & Hhi & Hfp & _).
  rewrite Hfp in Hf. simpl in Hf. exists t. rewrite Hhi. f_equal.
  destruct (contains c q); congruence.
Qed.

Lemma not_inside_contains (q : Z) :
  (∀ e, e ∈ level (heads m) 0 → ¬ inside e q) →
  ∀ e, e ∈ level (heads m) 0 → contains e q = false.
Proof.
  intros Hout e He. destruct (contains e q) eqn:E; [|done].
  apply (contains_inside e q (ok_valid_entry m Hm e He)) in E. by destruct (Hout e He).
Qed.

(** Inserting a range that meets no entry keeps the invariant. *)
Lemma iova_map_add_ok (env : add_env) (v l i : Z) (a : nat) :
  0 ≤ v → 0 < l → v + l ≤ UINT64_MAX →
  range_free m v l →
  alloc env = Some a → PHeap a ∉ ptrs (level (heads m) 0) →
  ∃ m', iova_map_add env m v l i = Some (0, None, m')
    ∧ skiplist_ok m'
    ∧ level (heads m') 0
      = lo v (level (heads m) 0) ++ Entry (PHeap a) (Mapping v l i) :: hi v (level (heads m) 0).
Proof.
  intros Hv Hl Hvl Hfree Ha Hfresh.
  assert (∀ e, e ∈ level (heads m) 0 → ¬ inside e v) as Hout.
  { intros e He [? ?]. destruct (Hfree e He); lia. }
  destruct (iova_map_add_spec env m v l i a (ok_shape m Hm) ltac:(lia) (ok_parted m Hm v)
              (not_inside_contains v Hout) Ha Hfresh) as (m' & Hadd & Hshape & H0).
  exists m'. split; [done|]. split; [|done].
  set (n := Entry (PHeap a) (Mapping v l i)) in *.
  assert (valid_entry n) as Hn by (unfold valid_entry, n; simpl; lia).
  pose proof (ok_parted m Hm v) as Hp. unfold parted in Hp.
  pose proof (ok_valid m Hm) as Hval. pose proof (ok_sorted m Hm) as Hsort.
  rewrite Hp in Hval, Hsort.
  apply Forall_app in Hval as [Hval1 Hval2].
  apply StronglySorted_app in Hsort as (Hcross & Hs1 & Hs2).
  split; [done|..]; rewrite H0.
  - apply Forall_app. split; [done|]. by constructor.
  - apply StronglySorted_app. split; [|split; [done|]].
    + intros x y Hx Hy. apply elem_of_cons in Hy as [->|Hy]; [|by apply Hcross].
      unfold before, n. simpl. apply list_elem_of_filter in Hx. tauto.
    + constructor; [done|]. apply Forall_forall. intros y Hy.
      unfold before. rewrite (m_end_valid n Hn). unfold n. simpl.
      assert (y ∈ level (heads m) 0) as Hy0 by (rewrite Hp; apply elem_of_app; by right).
      apply list_elem_of_filter in Hy as [Hy _].
      rewrite (m_end_valid y (ok_valid_entry m Hm y Hy0)) in Hy.
      destruct (Hfree y Hy0); lia.
Qed.

(** Removing at an address inside [e] unlinks [e] and keeps the invariant. *)
Lemma iova_map_remove_ok (q : Z) (e : iova_map_entry) :
  e ∈ level (heads m) 0 → inside e q →
  ∃ m', iova_map_remove m q = Some (0, None, m')
    ∧ skiplist_ok m'
    ∧ level (heads m') 0 = list_del_from (e_ptr e) (level (heads m) 0).
Proof.
  intros He Hin.
  pose proof (valid_inside_range e q (ok_valid_entry m Hm e He) Hin) as Hq.
  destruct (hi_inside q e He Hin) as [t Hhi].
  destruct (iova_map_remove_spec m (ok_shape m Hm) q Hq (ok_parted m Hm q) e t Hhi)
    as (m' & Hrem & Hshape & H0).
  { by apply (contains_inside e q (ok_valid_entry m Hm e He)). }
  exists m'. split; [done|]. split; [|done].
  split; [done|..]; rewrite H0; unfold list_del_from.
  - apply Forall_forall. intros x Hx. apply list_elem_of_filter in Hx as [_ Hx].
    by apply (ok_valid_entry m Hm).
  - apply StronglySorted_filter, (ok_sorted m Hm).
Qed.

Lemma removed_not_inside (q : Z) (e e' : iova_map_entry) :
  e ∈ level (heads m) 0 → inside e q →
  e' ∈ list_del_from (e_ptr e) (level (heads m) 0) → ¬ inside e' q.
Proof.
  intros He Hin He' Hin'. apply list_elem_of_filter in He' as [Hne He'].
  pose proof (valid_inside_range e q (ok_valid_entry m Hm e He) Hin) as Hq.
  rewrite (inside_unique m Hm q e' e) in Hne; done.
Qed.
End Ok.


(** ** Insert, find, remove; map and unmap *)




(** C10.  On a context whose index satisfies the data-model invariant, when
    [vaddr] lies inside an entry of the index, [vfio_map_vaddr] succeeds with
    [entry.iova + (vaddr - entry.vaddr)] and changes nothing: no IOVA is
    allocated and no [DMA_MAP] is issued, whatever [len] is, so also when
    [vaddr + len] reaches past the end of the entry. *)
Theorem map_inside_existing (pagesize : Z) (env : map_env) (st : vfio_state)
    (v l : Z) (e : iova_map_entry) :
  skiplist_ok (i_map (iommu st)) →
  e ∈ level (heads (i_map (iommu st))) 0 → inside e v →
  vfio_map_vaddr pagesize env st v l
  = Some (Ok (wrap64 (iova (mapping e) + (v - vaddr (mapping e)))), st).
Proof.
  intros Hm He Hin.
  pose proof (valid_inside_range e v (ok_valid_entry _ Hm e He) Hin) as Hq.
  unfold vfio_map_vaddr, iommu_vaddr_to_iova.
  by rewrite (find_inside _ Hm v e Hq He Hin).
Qed.

(** C9.  On a context whose index satisfies the data-model invariant, and
    for an address below nil's key [2^64 - 1], [vfio_unmap_vaddr] of an
    address no mapping contains returns 0 and leaves the index, the installed
    DMA mappings and the backend untouched, whatever the backend would
    answer.  Hence after an unmap of a mapped address whose [DMA_UNMAP] went
    through, a second unmap of the same address succeeds as well and does
    nothing. *)
Theorem unmap_absent_is_noop (st : vfio_state) (v : Z) :
  skiplist_ok (i_map (iommu st)) → 0 ≤ v < UINT64_MAX →
  ((∀ e, e ∈ level (heads (i_map (iommu st))) 0 → ¬ inside e v) →
   ∀ outcome, vfio_unmap_vaddr outcome st v = Some (Ok (), st))
  ∧ (∀ e, e ∈ level (heads (i_map (iommu st))) 0 → inside e v →
     ∃ st1, vfio_unmap_vaddr None st v = Some (Ok (), st1)
            ∧ calls st1 = calls st ++ [DMA_UNMAP (iova (mapping e)) (len (mapping e))]
            ∧ ∀ outcome, vfio_unmap_vaddr outcome st1 v = Some (Ok (), st1)).
Proof.
  intros Hm Hq. split.
  - intros Hout outcome. unfold vfio_unmap_vaddr.
    by rewrite (find_outside _ Hm v Hq Hout).
  - intros e He Hin. unfold vfio_unmap_vaddr at 1.
    rewrite (find_inside _ Hm v e Hq He Hin). cbn [mbind option_bind].
    unfold vfio_iommu_unmap_dma, iommu_remove_mapping. cbn [iommu i_map i_next i_ranges].
    assert (inside e (vaddr (mapping e))) as Hin0 by (unfold inside in *; lia).
    destruct (iova_map_remove_ok _ Hm _ e He Hin0) as (m' & -> & Hm' & H0).
    cbn [mbind option_bind]. eexists. split; [done|]. split; [done|].
    intros outcome. unfold vfio_unmap_vaddr, with_iommu. cbn [iommu i_map].
    rewrite (find_outside _ Hm' v Hq); [done|].
    intros e' He'. rewrite H0 in He'. by apply (removed_not_inside _ Hm v e e').
Qed.

Lemma unmap_demo_ok : skiplist_ok (i_map (iommu unmap_demo)).
Proof.
  pose (env := AddEnv (Some 0%nat) (λ _, 0)).
  destruct (iova_map_add_ok iova_map_init iova_map_init_ok env 0x7f0000000000 4096 0x10000 0)
    as (m' & Hadd & Hok & _).
  - lia.
  - lia.
  - unfold UINT64_MAX. lia.
  - intros e He. rewrite level_init in He by (unfold SKIPLIST_LEVELS; lia).
    apply elem_of_cons in He as [->|He]; [right; simpl; lia|].
    apply list_elem_of_singleton in He as ->. left. unfold nil_entry, UINT64_MAX. simpl. lia.
  - done.
  - rewrite level_init by (unfold SKIPLIST_LEVELS; lia). simpl.
    intros He. apply elem_of_cons in He as [?|He]; [done|].
    by apply list_elem_of_singleton in He.
  - vm_compute in Hadd. injection Hadd as <-. exact Hok.
Qed.

Lemma unmap_absent_is_noop_witness :
  vfio_unmap_vaddr (Some EIO) unmap_demo 0x7f0000002000 = Some (Ok (), unmap_demo).
Proof.
  refine (proj1 (unmap_absent_is_noop unmap_demo 0x7f0000002000 unmap_demo_ok _) _ (Some EIO)).
  - unfold UINT64_MAX. lia.
  - intros e He. vm_compute in He.
    repeat (apply elem_of_cons in He as [->|He]; [unfold inside; simpl; lia|]).
    by apply elem_of_nil in He.
Defined.

Lemma map_inside_existing_witness :
  vfio_map_vaddr 4096 (MapEnv None (AddEnv None (λ _, 0))) unmap_demo 0x7f0000000800 0x100000
  = Some (Ok 0x10800, unmap_demo).
Proof.
  refine (map_inside_existing 4096 _ unmap_demo 0x7f0000000800 0x100000
            (Entry (PHeap 0) (Mapping 0x7f0000000000 4096 0x10000)) unmap_demo_ok _ _).
  - vm_compute. right. left.
  - unfold inside. simpl. lia.
Defined.

(** C9 as stated fails outside these conditions.  At nil's key [2^64 - 1]
    the lookup of [vfio_unmap_vaddr] dereferences NULL.  And on the context
    reached by the two successful maps of overlapping ranges, the address
    [0x7f0000002800] lies in both mappings: its first unmap takes out the one
    at [0x7f0000001000], its second unmap then finds the other one, issues a
    second [DMA_UNMAP], and fails when that call fails. *)
Lemma unmap_twice_hits_other_entry :
  vfio_unmap_vaddr None default_ctx UINT64_MAX = None
  ∧ ∃ st st1 st2,
      ctx_run 4096 default_ctx overlapping_maps = Some st
      ∧ vfio_unmap_vaddr None st 0x7f0000002800 = Some (Ok (), st1)
      ∧ calls st1 = calls st ++ [DMA_UNMAP 0x11000 0x3000]
      ∧ vfio_unmap_vaddr (Some EIO) st1 0x7f0000002800 = Some (Err EIO, st2)
      ∧ calls st2 = calls st1 ++ [DMA_UNMAP 0x10000 0x1000].
Proof.
  split; [reflexivity|]. do 3 eexists.
  split; [vm_compute; reflexivity|].
  split; [vm_compute; reflexivity|].
  split; [vm_compute; reflexivity|].
  split; vm_compute; reflexivity.
Qed.

(** C10 as stated fails on an index outside the data model that two
    successful maps reach: after the maps of overlapping ranges the entry
    [[0x7f0000001000, 0x7f0000004000)] is linked on level 0 and contains
    [0x7f0000003800], yet [vfio_map_vaddr] of that address does not find it:
    it allocates the new IOVA [0x14000] and issues [DMA_MAP]. *)
Lemma map_inside_overlapped_entry_allocates :
  ∃ st st',
    ctx_run 4096 default_ctx overlapping_maps = Some st
    ∧ Entry (PHeap 1) (Mapping 0x7f0000001000 0x3000 0x11000)
      ∈ level (heads (i_map (iommu st))) 0
    ∧ inside (Entry (PHeap 1) (Mapping 0x7f0000001000 0x3000 0x11000)) 0x7f0000003800
    ∧ vfio_map_vaddr 4096 (MapEnv None (AddEnv (Some 2%nat) (λ _, 0))) st 0x7f0000003800 4096
      = Some (Ok 0x14000, st')
    ∧ calls st' = calls st ++ [DMA_MAP 0x7f0000003800 0x14000 4096]
    ∧ i_next (iommu st') = 0x15000.
Proof.
  do 2 eexists. split; [vm_compute; reflexivity|]. split; [vm_compute; right; left|].
  split; [unfold inside; simpl; lia|].
  split; [vm_compute; reflexivity|]. split; vm_compute; reflexivity.
Qed.

(** ** [vfio_map_vaddr] when the insert fails *)

Lemma iommu_add_mapping_err (env : add_env) (io io' : iommu_state) (v l i e : Z) :
  iommu_add_mapping env io v l i = Some (Err e, io') → io' = io.
Proof.
  unfold iommu_add_mapping. case_match; [congruence|].
  destruct (iova_map_add env (i_map io) v l i) as [[[r err] m']|]; [|done].
  cbn [mbind option_bind]. case_match; congruence.
Qed.

(** C1, as the code has it.  When [DMA_MAP] succeeds and the insert into the
    index then fails, [vfio_map_vaddr] returns -1 with the errno of the
    insert, and that is all it does: the only backend call of the whole
    operation is the [DMA_MAP], no [DMA_UNMAP] follows, and the mapping it
    installed stays installed (the IOVA it took stays taken, the index is
    as before). *)
Theorem map_insert_failure_keeps_dma (pagesize : Z) (env : map_env) (st : vfio_state)
    (v l _iova e : Z) (io1 io3 : iommu_state) :
  iommu_vaddr_to_iova (iommu st) v = Some None →
  iommu_get_iova pagesize (iommu st) l = (Ok _iova, io1) →
  dma_map_outcome env = None →
  iommu_add_mapping (insert_env env) io1 v l _iova = Some (Err e, io3) →
  ∃ st', vfio_map_vaddr pagesize env st v l = Some (Err e, st')
    ∧ calls st' = calls st ++ [DMA_MAP v _iova l]
    ∧ kernel st' = kernel st ++ [Dma v _iova l]
    ∧ iommu st' = io1.
Proof.
  intros Htr Hget Hdma Hadd. unfold vfio_map_vaddr.
  rewrite Htr. cbn [mbind option_bind]. rewrite Hget, Hdma.
  cbn [vfio_iommu_map_dma with_iommu iommu calls kernel].
  rewrite Hadd. cbn [mbind option_bind].
  apply iommu_add_mapping_err in Hadd as ->.
  eexists. split; [done|]. done.
Qed.

Lemma map_insert_failure_keeps_dma_witness :
  ∃ st', vfio_map_vaddr 4096 nomem_env default_ctx 0x7f0000000000 4096 = Some (Err ENOMEM, st')
    ∧ calls st' = calls default_ctx ++ [DMA_MAP 0x7f0000000000 0x10000 4096]
    ∧ kernel st' = kernel default_ctx ++ [Dma 0x7f0000000000 0x10000 4096]
    ∧ iommu st' = IommuState iova_map_init 0x11000 [IovaRange 0x10000 0x7fffffffff].
Proof.
  apply (map_insert_failure_keeps_dma 4096 nomem_env default_ctx 0x7f0000000000 4096
           0x10000 ENOMEM _ (IommuState iova_map_init 0x11000 [IovaRange 0x10000 0x7fffffffff]));
    reflexivity.
Defined.

(** C1 as stated fails: with [DMA_MAP] succeeding and no memory for the
    entry, the call returns -1 (ENOMEM), the only backend call issued is the
    [DMA_MAP], and the mapping is still installed. *)
Lemma map_insert_failure_no_unmap :
  ∃ st', vfio_map_vaddr 4096 nomem_env default_ctx 0x7f0000000000 4096 = Some (Err ENOMEM, st')
    ∧ calls st' = [DMA_MAP 0x7f0000000000 0x10000 4096]
    ∧ kernel st' = [Dma 0x7f0000000000 0x10000 4096]
    ∧ iommu_vaddr_to_iova (iommu st') 0x7f0000000000 = Some None.
Proof. eexists. split; [reflexivity|]. by vm_compute. Qed.

(** ** [iova_map_clear_with] *)

Lemma filter_all {A : Type} (P : A → Prop) `{!∀ x, Decision (P x)} (l : list A) :
  (∀ e, e ∈ l → P e) → filter P l = l.
Proof.
  induction l as [|e l IH]; intros Hall; [done|].
  rewrite filter_cons_True by (apply Hall; left). f_equal.
  apply IH. intros. apply Hall. by right.
Qed.

Lemma filter_none {A : Type} (P : A → Prop) `{!∀ x, Decision (P x)} (l : list A) :
  (∀ e, e ∈ l → ¬ P e) → filter P l = [].
Proof.
  induction l as [|e l IH]; intros Hall; [done|].
  rewrite filter_cons_False by (apply Hall; left).
  apply IH. intros. apply Hall. by right.
Qed.

Lemma clear_one_events (fn : bool) (n : iova_map_entry) (l0 : list iova_map_entry) :
  clear_one fn n l0 = (list_del_from (e_ptr n) l0, clear_events fn n).
Proof.
  unfold clear_one. destruct (decide (e_ptr n = PNil)) as [E|E].
  - rewrite (bool_decide_eq_false_2 (e_ptr n = PSentinel)) by congruence.
    by rewrite andb_false_r.
  - by rewrite (bool_decide_eq_false_2 (e_ptr n = PNil)).
Qed.

Lemma clear_loop_events (fn : bool) (todo l0 : list iova_map_entry) :
  clear_loop fn todo l0
  = (filter (λ e, e_ptr e ∉ ptrs todo) l0, todo ≫= clear_events fn).
Proof.
  revert l0. induction todo as [|n todo IH]; intros l0; cbn [clear_loop].
  - f_equal. symmetry. apply filter_all. intros e _ He. by apply elem_of_nil in He.
  - rewrite clear_one_events, IH. f_equal. unfold list_del_from.
    rewrite list_filter_filter. apply list_filter_iff. intros e. simpl.
    rewrite not_elem_of_cons. tauto.
Qed.

(** C2, on the code.  The guard [n == &map->nil && n == &map->sentinel] never
    holds, so [iova_map_clear_with] treats the sentinel and nil like stored
    entries: on the freshly initialised (empty) index the callback runs on
    both and both are handed to [free].  In general every entry linked on
    level 0, sentinel and nil included, gets the callback once (if there is
    one) and then [free], and level 0 is left empty. *)
Theorem clear_with_visits_sentinels :
  snd (iova_map_clear_with iova_map_init true)
  = [EvCallback PSentinel (mapping sentinel); EvFree PSentinel;
     EvCallback PNil (mapping nil_entry); EvFree PNil]
  ∧ ∀ (m : iova_map) (fn : bool),
      snd (iova_map_clear_with m fn) = level (heads m) 0 ≫= clear_events fn
      ∧ ((0 < length (heads m))%nat → level (heads (fst (iova_map_clear_with m fn))) 0 = []).
Proof.
  split; [reflexivity|]. intros m fn. unfold iova_map_clear_with.
  rewrite clear_loop_events. cbn [fst snd heads]. split; [done|]. intros Hlen.
  rewrite level_insert by done. rewrite decide_True by done.
  apply filter_none. intros e He Hn. apply Hn. by apply elem_of_ptrs.
Qed.

(** ** Waiting without a deadline *)

Lemma get_cqes_idle (env : cq_env) (copy : bool) :
  (∀ i, cq_get_cqe env i = None) →
  ∀ fuel i n cqes, 0 < n → nvme_cq_get_cqes fuel env i n copy cqes = None.
Proof.
  intros Hidle. induction fuel as [|fuel IH]; intros i n cqes Hn; [done|].
  cbn [nvme_cq_get_cqes]. rewrite Hidle.
  destruct (Z.ltb_spec 0 n); [by apply IH|lia].
Qed.

Lemma posted_S (env : cq_env) (i k : nat) :
  posted env i (S k)
  = match cq_get_cqe env i with
    | Some c => c :: posted env (S i) k
    | None => posted env (S i) k
    end.
Proof. unfold posted. simpl. by destruct (cq_get_cqe env i). Qed.

Lemma get_cqes_posted (env : cq_env) :
  ∀ k i n cqes, 0 < n → n ≤ Z.of_nat (length (posted env i k)) →
  nvme_cq_get_cqes k env i n true cqes
  = Some (cqes ++ take (Z.to_nat n) (posted env i k)).
Proof.
  induction k as [|k IH]; intros i n cqes Hn Hle.
  - unfold posted in Hle. simpl in Hle. lia.
  - cbn [nvme_cq_get_cqes]. rewrite posted_S in Hle |- *.
    destruct (cq_get_cqe env i) as [c|].
    + simpl in Hle. replace (Z.to_nat n) with (S (Z.to_nat (n - 1))) by lia.
      cbn [take]. destruct (Z.ltb_spec 0 (n - 1)).
      * rewrite IH by lia. by rewrite <- app_assoc.
      * replace (n - 1) with 0 by lia. by rewrite take_0.
    + destruct (Z.ltb_spec 0 n); [|lia]. by apply IH.
Qed.

(** C3, as the code has it.  With [timeout_ns == 0] the wait has no
    deadline: whenever [nvme_cq_wait_cqes] returns it returns 0 and leaves
    [errno] alone, so it never fails with a timeout; while no completion is
    posted and [n >= 1] it does not return at all; and it returns 0 with the
    first [n] completions once the controller has posted that many. *)
Theorem wait_zero_timeout_blocks (env : cq_env) (n : Z) :
  (∀ fuel copy r, nvme_cq_wait_cqes fuel env n copy 0 = Some r → fst r = (0, None))
  ∧ (0 < n → (∀ i, cq_get_cqe env i = None) →
     ∀ fuel copy, nvme_cq_wait_cqes fuel env n copy 0 = None)
  ∧ (∀ k, 0 < n → n ≤ Z.of_nat (length (posted env 0 k)) →
     nvme_cq_wait_cqes k env n true 0
     = Some (0, None, take (Z.to_nat n) (posted env 0 k))).
Proof.
  unfold nvme_cq_wait_cqes. simpl. split; [|split].
  - intros fuel copy r. destruct (nvme_cq_get_cqes fuel env 0 n copy []); [|done].
    simpl. by intros [= <-].
  - intros Hn Hidle fuel copy. by rewrite get_cqes_idle.
  - intros k Hn Hle. by rewrite get_cqes_posted.
Qed.

Lemma wait_zero_timeout_blocks_witness :
  nvme_cq_wait_cqes 1000 idle_cq 1 true 0 = None
  ∧ nvme_cq_wait_cqes 3 late_cq 1 true 0 = Some (0, None, [Cqe 0 7 0]).
Proof.
  split.
  - apply (proj1 (proj2 (wait_zero_timeout_blocks idle_cq 1))); [lia|done].
  - apply (proj2 (proj2 (wait_zero_timeout_blocks late_cq 1)) 3%nat); [lia|].
    vm_compute. discriminate.
Defined.

(** C3 as stated fails: called with [timeout_ns == 0] on a queue with no
    completion available, the wait does not fail with ETIMEDOUT, neither on
    an idle controller, where it never returns, nor on one that posts a
    completion two polls later, where it keeps polling and returns 0. *)
Lemma wait_zero_timeout_no_timeout :
  ¬ (∃ fuel r, nvme_cq_wait_cqes fuel idle_cq 1 true 0 = Some r)
  ∧ cq_get_cqe late_cq 0 = None
  ∧ nvme_cq_wait_cqes 3 late_cq 1 true 0 = Some (0, None, [Cqe 0 7 0]).
Proof.
  split; [|split; reflexivity]. intros (fuel & r & Hr).
  unfold nvme_cq_wait_cqes in Hr. simpl in Hr.
  by rewrite (get_cqes_idle idle_cq true) in Hr.
Qed.

(** ** [nvme_oneshot] and [errno] *)

(** C4, on the code.  When the ephemeral unmap of the teardown is the step
    that fails, [nvme_oneshot] (and [nvme_admin]) returns -1 with [errno] 0:
    [errno = savederrno] stores the initial value of [savederrno] over the
    errno of the unmap, whatever that was and whatever [errno] was at
    entry. *)
Theorem oneshot_unmap_failure_zeroes_errno (errno0 e : Z) (fuel : nat) :
  nvme_oneshot (S fuel) (unmap_fails e) errno0 true
  = Some (-1, 0, [CallAcquire; CallMapEphemeral; CallMapPrp; CallExec; CallSpin;
                  CallUnmapEphemeral; CallRelease])
  ∧ nvme_admin (S fuel) (unmap_fails e) errno0 true
    = nvme_oneshot (S fuel) (unmap_fails e) errno0 true.
Proof. split; reflexivity. Qed.

(** The sibling paths keep the errno of the failing step across the
    teardown: a failing [nvme_rq_map_prp] followed by a failing unmap. *)
Lemma oneshot_prp_failure_keeps_errno (errno0 e e' : Z) (fuel : nat) :
  nvme_oneshot fuel
    (OneshotEnv true None call_ok (CallResult (-1) (Some e)) (λ _, call_ok)
       (CallResult (-1) (Some e'))) errno0 true
  = Some (-1, e, [CallAcquire; CallMapEphemeral; CallMapPrp; CallUnmapEphemeral; CallRelease]).
Proof. reflexivity. Qed.

(** ** CRC-64-NVMe *)

Lemma byte_val_range (b : Byte.byte) : 0 ≤ byte_val b < 256.
Proof.
  unfold byte_val. pose proof (Byte.to_N_bounded b) as H.
  assert (Byte.to_N b <= 255)%N by exact H. lia.
Qed.

(** The table index of the code and that of the spec are the same number. *)
Lemma byte_val_high_bits (b : Byte.byte) (n : Z) : 8 ≤ n → Z.testbit (byte_val b) n = false.
Proof.
  intros Hn. pose proof (byte_val_range b) as Hb.
  rewrite <- (Z.mod_small (byte_val b) (2 ^ 8)) by (change (2 ^ 8) with 256; lia).
  apply Z.mod_pow2_bits_high. lia.
Qed.

Lemma crc64_index (crc : Z) (b : Byte.byte) :
  Z.lxor (Z.land crc 0xff) (byte_val b) = Z.land (Z.lxor crc (byte_val b)) 0xff.
Proof.
  change 0xff with (Z.ones 8). apply Z.bits_inj'. intros n Hn.
  rewrite Z.lxor_spec, !Z.land_spec, Z.lxor_spec.
  destruct (Z.lt_ge_cases n 8) as [Hlt|Hge].
  - rewrite Z.ones_spec_low by lia. by rewrite !andb_true_r.
  - rewrite Z.ones_spec_high by lia. rewrite byte_val_high_bits by done.
    by rewrite !andb_false_r.
Qed.

Section Crc.
Variable crc64_nvme_table : Z → Z.

Lemma crc64_loop_fold (buffer : list Byte.byte) :
  ∀ (cnt i : nat) (crc : Z), (i + cnt ≤ length buffer)%nat →
  crc64_loop crc64_nvme_table buffer i cnt crc
  = Some (fold_left (crc64_spec_step crc64_nvme_table) (take cnt (drop i buffer)) crc).
Proof.
  induction cnt as [|cnt IH]; intros i crc Hlen; [done|].
  cbn [crc64_loop].
  destruct (buffer !! i) as [b|] eqn:Hb; [|apply lookup_ge_None in Hb; lia].
  cbn [mbind option_bind]. rewrite IH by lia.
  rewrite (drop_S _ _ _ Hb). cbn [take fold_left].
  unfold crc64_spec_step at 2. by rewrite crc64_index.
Qed.

(** C8.  [nvme_crc64(crc, buffer, len)] is the left-to-right fold of
    [crc' = (crc >> 8) ^ table[(crc ^ byte) & 0xff]] over the first [len]
    bytes of the buffer, starting from the seed, XORed at the end with
    [2^64 - 1]. *)
Theorem nvme_crc64_is_fold (crc : Z) (buffer : list Byte.byte) (l : nat) :
  (l ≤ length buffer)%nat →
  nvme_crc64 crc64_nvme_table crc buffer l
  = Some (crc64_spec crc64_nvme_table crc (take l buffer)).
Proof.
  intros Hl. unfold nvme_crc64, crc64_spec.
  by rewrite crc64_loop_fold, drop_0 by lia.
Qed.
End Crc.

Lemma nvme_crc64_is_fold_witness :
  nvme_crc64 (λ i, i * 0x9a6c9329ac4bc9b5 mod 2 ^ 64) 0 [Byte.x31; Byte.x32; Byte.x33] 2
  = Some (crc64_spec (λ i, i * 0x9a6c9329ac4bc9b5 mod 2 ^ 64) 0 [Byte.x31; Byte.x32]).
Proof.
  apply (nvme_crc64_is_fold (λ i, i * 0x9a6c9329ac4bc9b5 mod 2 ^ 64) 0
           [Byte.x31; Byte.x32; Byte.x33] 2).
  simpl. lia.
Defined.

(** ** The bump allocator *)

Lemma get_iova_ranges_find (ranges : list iova_range) (cur l : Z) :
  0 ≤ cur → 0 < l → Forall (λ r, r_end r < UINT64_MAX) ranges →
  get_iova_ranges ranges cur l
  = (λ r, Z.max cur (r_start r)) <$> List.find (fits cur l) ranges.
Proof.
  intros Hcur Hl Hr. induction Hr as [|r ranges Hr _ IH]; [done|].
  cbn [get_iova_ranges List.find]. unfold fits at 1.
  destruct (Z.ltb_spec (r_end r) cur) as [H1|H1].
  { destruct (Z.leb_spec (Z.max cur (r_start r) + l - 1) (r_end r)); [lia|done]. }
  destruct (Z.ltb_spec (r_end r) (Z.max cur (r_start r))) as [H2|H2]; cbn [orb].
  { destruct (Z.leb_spec (Z.max cur (r_start r) + l - 1) (r_end r)); [lia|done]. }
  unfold wrap64. rewrite Z.mod_small by (unfold UINT64_MAX in Hr; lia).
  destruct (Z.ltb_spec (r_end r - Z.max cur (r_start r) + 1) l);
    destruct (Z.leb_spec (Z.max cur (r_start r) + l - 1) (r_end r)); try lia; done.
Qed.

Lemma find_fits_none (ranges : list iova_range) (cur l : Z) :
  (∀ r, r ∈ ranges → fits cur l r = false) → List.find (fits cur l) ranges = None.
Proof.
  induction ranges as [|r ranges IH]; intros H; [done|]. simpl.
  rewrite H by left. apply IH. intros. apply H. by right.
Qed.

Lemma find_fits_some (ranges : list iova_range) (cur l : Z) (r : iova_range) :
  r ∈ ranges → fits cur l r = true → is_Some (List.find (fits cur l) ranges).
Proof.
  induction ranges as [|r' ranges IH]; intros Hr Hf; [by apply elem_of_nil in Hr|]. simpl.
  destruct (fits cur l r') eqn:E; [done|].
  apply elem_of_cons in Hr as [->|Hr]; [congruence|by apply IH].
Qed.

(** C5, as the code has it.  For a positive [len] that is a multiple of the
    page size, on ranges that end below [2^64 - 1], [iommu_get_iova] is the
    spec's first fit under the bump policy.  A request equal to what is left
    of a range succeeds; a request larger than what is left of every range
    fails with ENOMEM; one byte more than a multiple of a page size above 1
    is not a multiple of it and fails with EINVAL, before the ranges are
    looked at. *)
Theorem sticky_first_fit (pagesize : Z) (st : iommu_state) (l : Z) :
  0 < pagesize → 0 < l → l mod pagesize = 0 →
  0 ≤ i_next st → Forall (λ r, r_end r < UINT64_MAX) (i_ranges st) →
  iommu_get_iova pagesize st l = sticky_allocate_spec st l
  ∧ (∀ r, r ∈ i_ranges st → l = remaining st r →
       ∃ i st', iommu_get_iova pagesize st l = (Ok i, st'))
  ∧ ((∀ r, r ∈ i_ranges st → remaining st r < l) →
       iommu_get_iova pagesize st l = (Err ENOMEM, st))
  ∧ (1 < pagesize → iommu_get_iova pagesize st (l + 1) = (Err EINVAL, st)).
Proof.
  intros Hps Hl Hal Hnext Hr.
  assert (iommu_get_iova pagesize st l = sticky_allocate_spec st l) as Heq.
  { unfold iommu_get_iova, sticky_allocate_spec, ALIGNED.
    rewrite Hal. cbn [Z.eqb negb]. rewrite get_iova_ranges_find by done.
    destruct (List.find (fits (i_next st) l) (i_ranges st)) as [r|] eqn:E; [|done].
    apply List.find_some in E as [Hin Hfit]. cbn [fmap option_fmap option_map].
    unfold fits in Hfit. apply Z.leb_le in Hfit.
    apply list_elem_of_In in Hin. rewrite Forall_forall in Hr. specialize (Hr r Hin).
    unfold wrap64. rewrite Z.mod_small by (unfold UINT64_MAX in Hr; lia).
    do 2 f_equal. lia. }
  split; [done|]. split; [|split].
  - intros r Hin Hcap. rewrite Heq. unfold sticky_allocate_spec.
    destruct (find_fits_some (i_ranges st) (i_next st) l r Hin) as [r' ->]; [|eauto].
    unfold fits, remaining in *. apply Z.leb_le. lia.
  - intros Hnone. rewrite Heq. unfold sticky_allocate_spec.
    rewrite find_fits_none; [done|]. intros r Hin. specialize (Hnone r Hin).
    unfold fits, remaining in *. apply Z.leb_gt. lia.
  - intros Hps1. unfold iommu_get_iova, ALIGNED.
    rewrite Z.add_mod, Hal, (Z.mod_small 1), Z.add_0_l, Z.mod_small by lia. done.
Qed.

Lemma sticky_first_fit_witness :
  iommu_get_iova 4096 iommu_init 8192 = sticky_allocate_spec iommu_init 8192
  ∧ fst (iommu_get_iova 4096 iommu_init 8192) = Ok 0x10000
  ∧ iommu_get_iova 4096 iommu_init 8193 = (Err EINVAL, iommu_init).
Proof.
  assert (0 < 4096 ∧ 0 < 8192 ∧ 8192 mod 4096 = 0 ∧ 0 ≤ i_next iommu_init
          ∧ Forall (λ r, r_end r < UINT64_MAX) (i_ranges iommu_init)) as (H1 & H2 & H3 & H4 & H5).
  { repeat split; try done. repeat constructor. }
  pose proof (sticky_first_fit 4096 iommu_init 8192 H1 H2 H3 H4 H5) as (Hspec & _ & _ & Hbyte).
  split; [exact Hspec|]. split; [reflexivity|]. apply Hbyte. lia.
Defined.

(** Why the theorem asks for a positive length and for ranges that end below
    [2^64 - 1]: on an exhausted range a zero length is refused although
    [max(next, r.start) + 0 - 1 <= r.last] holds, and on the range
    [[0, 2^64 - 1]] the test [r->end - next + 1 < len] wraps to [0 < len]. *)
Example sticky_zero_length_exhausted :
  fst (iommu_get_iova 4096 (IommuState iova_map_init 0x11000 [IovaRange 0x10000 0x10fff]) 0)
  = Err ENOMEM
  ∧ fst (sticky_allocate_spec (IommuState iova_map_init 0x11000 [IovaRange 0x10000 0x10fff]) 0)
    = Ok 0x11000.
Proof. split; reflexivity. Qed.

Example sticky_full_range_wraps :
  fst (iommu_get_iova 4096 (IommuState iova_map_init 0 [IovaRange 0 UINT64_MAX]) 4096)
  = Err ENOMEM
  ∧ fst (sticky_allocate_spec (IommuState iova_map_init 0 [IovaRange 0 UINT64_MAX]) 4096)
    = Ok 0.
Proof. split; reflexivity. Qed.

(** C5 as stated fails at its boundary case: with 4096-byte pages and the
    default range, a request for all that is left succeeds, and one byte more
    fails with EINVAL, not ENOMEM. *)
Lemma sticky_one_byte_more_is_invalid :
  fst (iommu_get_iova 4096 iommu_init (remaining iommu_init (IovaRange 0x10000 (2 ^ 39 - 1))))
  = Ok 0x10000
  ∧ fst (iommu_get_iova 4096 iommu_init
           (remaining iommu_init (IovaRange 0x10000 (2 ^ 39 - 1)) + 1))
    = Err EINVAL
  ∧ EINVAL ≠ ENOMEM.
Proof. repeat split; done. Qed.

(** ** Sequences of [map] and [unmap] *)

Lemma iommu_get_iova_map (pagesize : Z) (io : iommu_state) (l : Z) :
  i_map (snd (iommu_get_iova pagesize io l)) = i_map io.
Proof.
  unfold iommu_get_iova. case_match; [done|]. by case_match.
Qed.

Lemma find_none_outside (m : iova_map) (v : Z) :
  skiplist_ok m → 0 ≤ v < UINT64_MAX → iommu_find_mapping m v = Some None →
  ∀ e, e ∈ level (heads m) 0 → ¬ inside e v.
Proof.
  intros Hm Hv Hf e He Hin. rewrite (find_inside m Hm v e Hv He Hin) in Hf. done.
Qed.

(** [iommu_add_mapping] of a range that meets no entry: it fails and changes
    nothing, or links the new entry at its place. *)
Lemma iommu_add_mapping_cases (env : add_env) (io : iommu_state) (v l i : Z) :
  skiplist_ok (i_map io) → 0 ≤ v < UINT64_MAX → 0 ≤ l →
  fresh (i_map io) env → range_free (i_map io) v l →
  (∀ e, e ∈ level (heads (i_map io)) 0 → ¬ inside e v) →
  ∃ r io', iommu_add_mapping env io v l i = Some (r, io')
    ∧ skiplist_ok (i_map io')
    ∧ ((∃ er, r = Err er ∧ io' = io)
       ∨ (∃ a, r = Ok ()
            ∧ level (heads (i_map io')) 0
              = lo v (level (heads (i_map io)) 0)
                ++ Entry (PHeap a) (Mapping v l i) :: hi v (level (heads (i_map io)) 0))).
Proof.
  intros Hm Hv Hl Hfresh Hfree Hout. unfold iommu_add_mapping.
  destruct (Z.eqb_spec l 0) as [->|Hl0]; [by eauto 10|].
  assert (v + l ≤ UINT64_MAX) as Hvl.
  { destruct (shape_ends _ (ok_shape _ Hm) 0 ltac:(unfold SKIPLIST_LEVELS; lia)) as [x Hx].
    destruct (Hfree nil_entry) as [H|H].
    - rewrite Hx. right. apply elem_of_app. right. left.
    - exact H.
    - unfold nil_entry in H. simpl in H. lia. }
  destruct (alloc env) as [a|] eqn:Ha.
  - destruct (iova_map_add_ok _ Hm env v l i a) as (m' & -> & Hm' & H0);
      [lia|lia|done|done|done|by apply Hfresh|].
    cbn [mbind option_bind Z.eqb]. eexists _, _. split; [done|]. split; [done|].
    right. by exists a.
  - unfold iova_map_add.
    destruct (find_path_spec _ (ok_shape _ Hm) v empty_path Hv (ok_parted _ Hm v) eq_refl)
      as (c & t & path' & Hhi & -> & _).
    rewrite (not_inside_contains _ Hm v Hout c), Ha.
    2:{ rewrite (ok_parted _ Hm v), Hhi. apply elem_of_app. right. left. }
    cbn [mbind option_bind]. simpl. by eauto 10.
Qed.

(** [vfio_map_vaddr] on a well-formed context: answered from an existing
    entry, failed without touching the index, or a new entry linked. *)
Lemma vfio_map_vaddr_cases (pagesize : Z) (env : map_env) (st : vfio_state) (v l : Z) :
  skiplist_ok (i_map (iommu st)) → 0 ≤ v < UINT64_MAX → 0 ≤ l →
  fresh (i_map (iommu st)) (insert_env env) →
  ((∃ e, e ∈ level (heads (i_map (iommu st))) 0 ∧ inside e v)
   ∨ range_free (i_map (iommu st)) v l) →
  ∃ r st', vfio_map_vaddr pagesize env st v l = Some (r, st')
    ∧ skiplist_ok (i_map (iommu st'))
    ∧ ((∃ e i, e ∈ level (heads (i_map (iommu st))) 0 ∧ inside e v ∧ r = Ok i ∧ st' = st)
       ∨ ((∀ e, e ∈ level (heads (i_map (iommu st))) 0 → ¬ inside e v)
          ∧ ((∃ er, r = Err er
                ∧ level (heads (i_map (iommu st'))) 0 = level (heads (i_map (iommu st))) 0)
             ∨ (∃ i a, r = Ok i
                  ∧ level (heads (i_map (iommu st'))) 0
                    = lo v (level (heads (i_map (iommu st))) 0)
                      ++ Entry (PHeap a) (Mapping v l i)
                         :: hi v (level (heads (i_map (iommu st))) 0))))).
Proof.
  intros Hm Hv Hl Hfresh Hcase. unfold vfio_map_vaddr, iommu_vaddr_to_iova.
  destruct (find_sound _ Hm v Hv) as (r & Hfind & Hr). rewrite Hfind. cbn [mbind option_bind].
  destruct r as [e|].
  { destruct (Hr e eq_refl) as [He Hin]. eexists _, _. split; [done|]. split; [done|].
    left. by eauto 10. }
  pose proof (find_none_outside _ v Hm Hv Hfind) as Hout.
  destruct Hcase as [(e & He & Hin)|Hfree]; [by destruct (Hout e He)|].
  pose proof (iommu_get_iova_map pagesize (iommu st) l) as Hmap.
  destruct (iommu_get_iova pagesize (iommu st) l) as [[i|er] io1]; cbn [snd] in Hmap.
  2:{ eexists _, _. split; [done|]. simpl. rewrite Hmap. split; [done|]. right. by eauto 10. }
  unfold vfio_iommu_map_dma. destruct (dma_map_outcome env) as [er|].
  { eexists _, _. split; [done|]. simpl. rewrite Hmap. split; [done|]. right. by eauto 10. }
  cbn [iommu with_iommu].
  destruct (iommu_add_mapping_cases (insert_env env) io1 v l i)
    as (r & io3 & -> & Hm3 & Hres);
    [by rewrite Hmap|done|done|by rewrite Hmap|by rewrite Hmap|by rewrite Hmap|].
  cbn [mbind option_bind]. rewrite Hmap in Hres.
  destruct Hres as [(er & -> & ->)|(a & -> & H0)].
  - eexists _, _. split; [done|]. simpl. rewrite Hmap. split; [done|]. right. by eauto 10.
  - eexists _, _. split; [done|]. simpl. split; [done|]. right. split; [done|]. right.
    by exists i, a.
Qed.

(** [vfio_unmap_vaddr] on a well-formed context. *)
Lemma vfio_unmap_vaddr_cases (outcome : option Z) (st : vfio_state) (v : Z) :
  skiplist_ok (i_map (iommu st)) → 0 ≤ v < UINT64_MAX →
  ∃ r st', vfio_unmap_vaddr outcome st v = Some (r, st')
    ∧ skiplist_ok (i_map (iommu st'))
    ∧ (((∀ e, e ∈ level (heads (i_map (iommu st))) 0 → ¬ inside e v)
        ∧ r = Ok () ∧ st' = st)
       ∨ (∃ e, e ∈ level (heads (i_map (iommu st))) 0 ∧ inside e v
            ∧ ((∃ er, r = Err er
                  ∧ level (heads (i_map (iommu st'))) 0 = level (heads (i_map (iommu st))) 0)
               ∨ (r = Ok ()
                  ∧ level (heads (i_map (iommu st'))) 0
                    = list_del_from (e_ptr e) (level (heads (i_map (iommu st))) 0))))).
Proof.
  intros Hm Hv. unfold vfio_unmap_vaddr.
  destruct (find_sound _ Hm v Hv) as (r & Hfind & Hr). rewrite Hfind. cbn [mbind option_bind].
  destruct r as [e|].
  2:{ eexists _, _. split; [done|]. split; [done|]. left.
      split; [by apply find_none_outside|done]. }
  destruct (Hr e eq_refl) as [He Hin].
  unfold vfio_iommu_unmap_dma. destruct outcome as [er|].
  { eexists _, _. split; [done|]. split; [done|]. right. exists e. by eauto 10. }
  unfold iommu_remove_mapping. cbn [iommu i_map i_next i_ranges].
  assert (inside e (vaddr (mapping e))) as Hin0 by (unfold inside in *; lia).
  destruct (iova_map_remove_ok _ Hm _ e He Hin0) as (m' & -> & Hm' & H0).
  cbn [mbind option_bind]. eexists _, _. split; [done|]. split; [done|].
  right. exists e. split; [done|]. split; [done|]. right. done.
Qed.

(** *** The ledger and the index agree *)

Lemma stored_app (a b : list iova_map_entry) : stored (a ++ b) = stored a ++ stored b.
Proof. unfold stored. by rewrite filter_app, fmap_app. Qed.

Lemma stored_heap (a : nat) (m0 : iova_mapping) (l : list iova_map_entry) :
  stored (Entry (PHeap a) m0 :: l) = m0 :: stored l.
Proof. unfold stored. by rewrite filter_cons_True. Qed.

Lemma elem_of_stored (m0 : iova_mapping) (l : list iova_map_entry) :
  m0 ∈ stored l ↔ ∃ e, e ∈ l ∧ e_ptr e ≠ PSentinel ∧ e_ptr e ≠ PNil ∧ mapping e = m0.
Proof.
  unfold stored. rewrite list_elem_of_fmap. split.
  - intros (e & -> & He). apply list_elem_of_filter in He as [[? ?] ?]. by exists e.
  - intros (e & He & H1 & H2 & <-). exists e. split; [done|]. by apply list_elem_of_filter.
Qed.

Lemma filter_ext_in {A : Type} (P Q : A → Prop) `{!∀ x, Decision (P x)} `{!∀ x, Decision (Q x)}
    (l : list A) :
  (∀ x, x ∈ l → P x ↔ Q x) → filter P l = filter Q l.
Proof.
  induction l as [|x l IH]; intros Hext; [done|].
  rewrite !filter_cons. rewrite IH by (intros; apply Hext; by right).
  destruct (decide (P x)) as [HP|HP], (decide (Q x)) as [HQ|HQ]; try done;
    [destruct HQ|destruct HP]; by apply (Hext x); [left|].
Qed.

Lemma filter_fmap_mapping (Q : iova_mapping → Prop) `{!∀ x, Decision (Q x)}
    (l : list iova_map_entry) :
  filter Q (mapping <$> l) = mapping <$> filter (λ e, Q (mapping e)) l.
Proof.
  induction l as [|e l IH]; [done|]. rewrite fmap_cons, !filter_cons, IH.
  by destruct (decide (Q (mapping e))).
Qed.

Section Ledger.
Context (m : iova_map) (Hm : skiplist_ok m).
Context (led : list iova_mapping) (Hled : stored (level (heads m) 0) ≡ₚ led).

Lemma entry_cases (e : iova_map_entry) :
e ∈ level (heads m) 0 → e = sentinel ∨ e = nil_entry ∨ mapping e ∈ led.
Proof.
intros He. pose proof (shape_nodup m (ok_shape m Hm)) as Hnd.
destruct (shape_ends m (ok_shape m Hm) 0 ltac:(unfold SKIPLIST_LEVELS; lia)) as [l Hl].
assert (sentinel ∈ level (heads m) 0) as Hs by (rewrite Hl; left).
assert (nil_entry ∈ level (heads m) 0) as Hn.
{ rewrite Hl. right. apply elem_of_app. right. left. }
destruct (decide (e_ptr e = PSentinel)) as [E1|E1].
{ left. by apply (ptr_unique _ _ _ Hnd). }
destruct (decide (e_ptr e = PNil)) as [E2|E2].
{ right. left. by apply (ptr_unique _ _ _ Hnd). }
right. right. rewrite <- Hled. apply elem_of_stored. by exists e.
Qed.

Lemma inside_ledger (e : iova_map_entry) (v : Z) :
e ∈ level (heads m) 0 → inside e v → mapping e ∈ led ∧ covers (mapping e) v.
Proof.
intros He Hin. split; [|exact Hin].
destruct (entry_cases e He) as [->|[->|?]]; [| |done];
  unfold inside, sentinel, nil_entry in Hin; simpl in Hin; lia.
Qed.

Lemma ledger_entry (m0 : iova_mapping) :
m0 ∈ led → ∃ e, e ∈ level (heads m) 0 ∧ mapping e = m0.
Proof.
rewrite <- Hled. intros (e & He & _ & _ & Hmap)%elem_of_stored. by exists e.
Qed.

Lemma ledger_covered (v : Z) :
Exists (λ m0, covers m0 v) led ↔ ∃ e, e ∈ level (heads m) 0 ∧ inside e v.
Proof.
rewrite Exists_exists. split.
- intros (m0 & Hin & Hc). destruct (ledger_entry m0 Hin) as (e & He & <-). by exists e.
- intros (e & He & Hin). exists (mapping e). by apply inside_ledger.
Qed.

Lemma ledger_range_free (v l : Z) :
0 ≤ v → v + l ≤ UINT64_MAX →
Forall (λ m0, v + l ≤ vaddr m0 ∨ vaddr m0 + len m0 ≤ v) led →
range_free m v l.
Proof.
intros Hv Hvl Hfree e He. rewrite Forall_forall in Hfree.
destruct (entry_cases e He) as [->|[->|Hin]]; [right; simpl; lia|left; simpl; lia|].
by apply Hfree.
Qed.

Lemma ledger_unmapped (v : Z) (e : iova_map_entry) :
0 ≤ v < UINT64_MAX → e ∈ level (heads m) 0 → inside e v →
stored (list_del_from (e_ptr e) (level (heads m) 0)) ≡ₚ filter (λ m0, ¬ covers m0 v) led.
Proof.
intros Hv He Hin. rewrite <- Hled. unfold stored at 2. rewrite filter_fmap_mapping.
unfold stored, list_del_from. apply reflexive_eq. f_equal.
rewrite !list_filter_filter. apply filter_ext_in. intros x Hx.
pose proof (shape_nodup m (ok_shape m Hm)) as Hnd.
split.
- intros [H1 H2]. split; [|done]. intros Hc. apply H2. f_equal.
  by apply (inside_unique m Hm v x e).
- intros [H1 H2]. split; [done|]. intros E. apply H1.
  rewrite (ptr_unique _ _ _ Hnd Hx He E). exact Hin.
Qed.
End Ledger.

Lemma ctx_step_ledger (pagesize : Z) (st : vfio_state) (led : list iova_mapping)
    (op : ctx_op) :
  skiplist_ok (i_map (iommu st)) →
  stored (level (heads (i_map (iommu st))) 0) ≡ₚ led →
  op_pre st led op →
  ∃ st', ctx_step pagesize st op = Some st'
    ∧ skiplist_ok (i_map (iommu st'))
    ∧ stored (level (heads (i_map (iommu st'))) 0) ≡ₚ ledger_step pagesize st led op.
Proof.
  intros Hm Hled Hpre. destruct op as [v l env|v outcome]; cbn [ctx_step ledger_step op_pre] in *.
  - destruct Hpre as (Hv & Hl & Hfresh & Hcase).
    destruct (vfio_map_vaddr_cases pagesize env st v l Hm Hv Hl Hfresh)
      as (r & st' & -> & Hm' & Hres).
    { destruct Hcase as [Hex|[Hvl Hfree]].
      - left. by apply (ledger_covered _ Hm led Hled).
      - right. apply (ledger_range_free _ Hm led Hled); [lia|done|done]. }
    exists st'. split; [done|]. split; [done|].
    destruct Hres as [(e & i & He & Hin & -> & ->)|[Hout [(er & -> & ->)|(i & a & -> & ->)]]].
    + rewrite decide_True; [done|]. apply (ledger_covered _ Hm led Hled). by exists e.
    + done.
    + rewrite decide_False.
      2:{ intros (e & He & Hin)%(ledger_covered _ Hm led Hled). by destruct (Hout e He). }
      rewrite stored_app, stored_heap, <- Permutation_middle. constructor.
      rewrite <- stored_app, <- (ok_parted _ Hm v). done.
  - destruct (vfio_unmap_vaddr_cases outcome st v Hm Hpre) as (r & st' & -> & Hm' & Hres).
    exists st'. split; [done|]. split; [done|].
    destruct Hres as [(Hout & -> & ->)|(e & He & Hin & [(er & -> & ->)|[-> ->]])].
    + rewrite filter_all; [done|]. intros m0 Hm0 Hc.
      destruct (ledger_entry _ led Hled m0 Hm0) as (e & He & <-). by destruct (Hout e He).
    + done.
    + by apply ledger_unmapped.
Qed.

Lemma ctx_run_ledger (pagesize : Z) (ops : list ctx_op) :
  ∀ st led, skiplist_ok (i_map (iommu st)) →
  stored (level (heads (i_map (iommu st))) 0) ≡ₚ led →
  ops_ok pagesize st led ops →
  ∃ st', ctx_run pagesize st ops = Some st'
    ∧ skiplist_ok (i_map (iommu st'))
    ∧ stored (level (heads (i_map (iommu st'))) 0) ≡ₚ ledger_run pagesize st led ops.
Proof.
  induction ops as [|op ops IH]; intros st led Hm Hled Hops; [by eauto|].
  destruct Hops as [Hpre Hrest]. cbn [ctx_run ledger_run].
  destruct (ctx_step_ledger pagesize st led op Hm Hled Hpre) as (st1 & Hstep & Hm1 & Hled1).
  rewrite Hstep. cbn [mbind option_bind]. apply IH; [done|done|]. by apply Hrest.
Qed.

(** C6, as the code has it.  Take any sequence of [map] and [unmap] calls on
    a fresh context in which each range mapped starts inside a still-mapped
    range or meets none of them (each address being a key below nil's).
    Then every call returns, and with the still-mapped entries being those
    that a successful [map] created and no successful [unmap] has struck,
    [translate(v)] yields [entry.iova + (v - entry.vaddr)] when [v] lies
    within a still-mapped entry and reports no mapping when it lies within
    none. *)
Theorem translate_after_disjoint_ops (pagesize : Z) (ranges : list iova_range)
    (ops : list ctx_op) :
  ops_ok pagesize (vfio_open ranges) [] ops →
  ∃ st, ctx_run pagesize (vfio_open ranges) ops = Some st
    ∧ ∀ v, 0 ≤ v < UINT64_MAX →
        (∀ m, m ∈ ledger_run pagesize (vfio_open ranges) [] ops → covers m v →
           iommu_vaddr_to_iova (iommu st) v = Some (Some (wrap64 (iova m + (v - vaddr m)))))
        ∧ ((∀ m, m ∈ ledger_run pagesize (vfio_open ranges) [] ops → ¬ covers m v) →
           iommu_vaddr_to_iova (iommu st) v = Some None).
Proof.
  intros Hops.
  destruct (ctx_run_ledger pagesize ops (vfio_open ranges) [] iova_map_init_ok) as (st & Hrun & Hm & Hled).
  { simpl. rewrite level_init by (unfold SKIPLIST_LEVELS; lia). done. }
  { done. }
  exists st. split; [done|]. intros v Hv. unfold iommu_vaddr_to_iova. split.
  - intros m0 Hm0 Hc. destruct (ledger_entry _ _ Hled m0 Hm0) as (e & He & <-).
    by rewrite (find_inside _ Hm v e Hv He Hc).
  - intros Hout. rewrite (find_outside _ Hm v Hv); [done|].
    intros e He Hin. destruct (inside_ledger _ Hm _ Hled e v He Hin) as [Hin' Hc].
    by destruct (Hout _ Hin').
Qed.

Lemma two_maps_ok : ops_ok 4096 default_ctx [] two_maps.
Proof.
  split.
  - split; [unfold UINT64_MAX; lia|]. split; [lia|]. split.
    + intros a [= <-]. intros He. vm_compute in He.
      repeat (apply elem_of_cons in He as [?|He]; [done|]). by apply elem_of_nil in He.
    + right. split; [unfold UINT64_MAX; lia|constructor].
  - intros st' Hstep. vm_compute in Hstep. injection Hstep as <-. split; [|done].
    split; [unfold UINT64_MAX; lia|]. split; [lia|]. split.
    + intros a [= <-]. intros He. vm_compute in He.
      repeat (apply elem_of_cons in He as [?|He]; [done|]). by apply elem_of_nil in He.
    + right. split; [unfold UINT64_MAX; lia|].
      replace (ledger_step _ _ _ _) with [Mapping 0x7f0000000000 4096 0x10000]
        by (vm_compute; reflexivity).
      constructor; [right; simpl; lia|constructor].
Qed.

Lemma translate_after_disjoint_ops_witness :
  ∃ st, ctx_run 4096 default_ctx two_maps = Some st
    ∧ ∀ v, 0 ≤ v < UINT64_MAX →
        (∀ m, m ∈ ledger_run 4096 default_ctx [] two_maps → covers m v →
           iommu_vaddr_to_iova (iommu st) v = Some (Some (wrap64 (iova m + (v - vaddr m)))))
        ∧ ((∀ m, m ∈ ledger_run 4096 default_ctx [] two_maps → ¬ covers m v) →
           iommu_vaddr_to_iova (iommu st) v = Some None).
Proof.
  exact (translate_after_disjoint_ops 4096 [IovaRange 0x10000 0x7fffffffff] two_maps two_maps_ok).
Defined.

(** C6 as stated fails on a sequence that maps overlapping ranges: after
    [map(0x7f0000002000, 0x1000)], whose entry is linked on two levels,
    and [map(0x7f0000001000, 0x3000)], linked on one, both have succeeded,
    the second mapping is still mapped (nothing was unmapped) and contains
    [0x7f0000003800], yet [translate] reports no mapping for that address. *)
Lemma translate_misses_overlapping_entry :
  ∃ st, ctx_run 4096 default_ctx overlapping_maps = Some st
    ∧ Mapping 0x7f0000001000 0x3000 0x11000 ∈ ledger_run 4096 default_ctx [] overlapping_maps
    ∧ Mapping 0x7f0000001000 0x3000 0x11000 ∈ stored (level (heads (i_map (iommu st))) 0)
    ∧ covers (Mapping 0x7f0000001000 0x3000 0x11000) 0x7f0000003800
    ∧ iommu_vaddr_to_iova (iommu st) 0x7f0000003800 = Some None.
Proof.
  eexists. split; [reflexivity|]. split; [vm_compute; left|].
  split; [vm_compute; left|]. split; [unfold covers; simpl; lia|reflexivity].
Qed.

(** ** Worked scenarios *)

(** The spec's first end-to-end scenario: [map(0x7f0000000000, 4096)] gives
    IOVA [0x10000], [translate(0x7f0000000008)] gives [0x10008], and the two
    unmaps both return 0. *)
Example scenario_map_translate_unmap :
  ∃ st1 st2,
    vfio_map_vaddr 4096 (MapEnv None index_env) default_ctx 0x7f0000000000 4096
    = Some (Ok 0x10000, st1)
    ∧ iommu_vaddr_to_iova (iommu st1) 0x7f0000000008 = Some (Some 0x10008)
    ∧ vfio_unmap_vaddr None st1 0x7f0000000000 = Some (Ok (), st2)
    ∧ kernel st2 = []
    ∧ vfio_unmap_vaddr None st2 0x7f0000000000 = Some (Ok (), st2).
Proof. do 2 eexists. repeat split; reflexivity. Qed.

(** The spec's second scenario, sticky part: 4096 bytes at [0x10000], then
    8192 bytes at [0x11000], and the cursor at [0x13000]. *)
Example scenario_sticky_allocations :
  ∃ io1 io2,
    iommu_get_iova 4096 iommu_init 4096 = (Ok 0x10000, io1)
    ∧ iommu_get_iova 4096 io1 8192 = (Ok 0x11000, io2)
    ∧ i_next io2 = 0x13000.
Proof. do 2 eexists. repeat split; reflexivity. Qed.

(** The key of nil itself is outside what the index can be asked: the
    search for [UINT64_MAX] walks past nil and dereferences the NULL that
    [skip_list_next] returns there.  The results above are about keys below
    it. *)
Example find_nil_key_faults : iommu_find_mapping iova_map_init UINT64_MAX = None.
Proof. reflexivity. Qed.

(** [iova_map_add] itself takes a zero length (the check is in
    [iommu_add_mapping]); such an entry contains no address. *)
Example add_zero_length :
  ∃ m, iova_map_add index_env iova_map_init 0x1000 0 0x10000 = Some (0, None, m)
       ∧ iommu_find_mapping m 0x1000 = Some None
       ∧ fst <$> iommu_add_mapping index_env iommu_init 0x1000 0 0x10000 = Some (Err EINVAL).
Proof. eexists. repeat split; reflexivity. Qed.

(** * Further properties of the code *)

(** ** The index: what a lookup can return *)

Lemma find_result_linked (m : iova_map) (q : Z) (e : iova_map_entry) :
  iommu_find_mapping m q = Some (Some e) →
  e ∈ level (heads m) 0 ∧ contains e q = true.
Proof.
  unfold iommu_find_mapping, __iova_map_find_path, skip_list_next.
  destruct (find_descend (heads m) q sentinel (height m) empty_path) as [[p path']|];
    simpl; [|done].
  destruct (list_after (e_ptr p) (level (heads m) 0)) as [|p0 rest] eqn:Hafter;
    simpl; [done|].
  destruct (contains p0 q) eqn:Hc; intros [= <-]. split; [|done].
  apply (list_after_elem (e_ptr p)). rewrite Hafter. left.
Qed.

(** X1.  Whatever the state of the index, also one outside the data model,
    [iommu_vaddr_to_iova] answers only from an entry that is linked on
    level 0 and whose range holds the address, with the entry's IOVA plus the
    offset of the address in the entry; for an entry whose two ranges lie in
    the 64-bit space this IOVA lies in the entry's IOVA range. *)
Theorem translate_only_from_index (st : iommu_state) (v i : Z) :
  iommu_vaddr_to_iova st v = Some (Some i) →
  ∃ e, e ∈ level (heads (i_map st)) 0
       ∧ vaddr (mapping e) ≤ v < m_end e
       ∧ i = wrap64 (iova (mapping e) + (v - vaddr (mapping e)))
       ∧ (valid_entry e → 0 ≤ iova (mapping e) →
          iova (mapping e) + len (mapping e) ≤ UINT64_MAX + 1 →
          iova (mapping e) ≤ i < iova (mapping e) + len (mapping e)).
Proof.
  unfold iommu_vaddr_to_iova.
  destruct (iommu_find_mapping (i_map st) v) as [[e|]|] eqn:Hfind; simpl; [|done..].
  intros [= <-]. apply find_result_linked in Hfind as [Hin Hc].
  exists e. split; [done|].
  unfold contains in Hc. apply andb_true_iff in Hc as [H1 H2].
  apply Z.leb_le in H1. apply Z.ltb_lt in H2.
  split; [lia|]. split; [done|].
  intros Hv Hi Hend. rewrite (m_end_valid e Hv) in H2.
  unfold wrap64, UINT64_MAX in *. rewrite Z.mod_small; lia.
Qed.

Lemma translate_only_from_index_witness :
  ∃ e, e ∈ level (heads (i_map (iommu unmap_demo))) 0
       ∧ vaddr (mapping e) ≤ 0x7f0000000800 < m_end e
       ∧ 0x10800 = wrap64 (iova (mapping e) + (0x7f0000000800 - vaddr (mapping e)))
       ∧ (valid_entry e → 0 ≤ iova (mapping e) →
          iova (mapping e) + len (mapping e) ≤ UINT64_MAX + 1 →
          iova (mapping e) ≤ 0x10800 < iova (mapping e) + len (mapping e)).
Proof.
  apply (translate_only_from_index (iommu unmap_demo) 0x7f0000000800 0x10800).
  reflexivity.
Defined.

(** ** The index: failing inserts and removes *)

Lemma find_path_of_find (m : iova_map) (q : Z) (r : option iova_map_entry) :
  iommu_find_mapping m q = Some r →
  ∃ path, __iova_map_find_path m q empty_path = Some (r, path).
Proof.
  unfold iommu_find_mapping.
  destruct (__iova_map_find_path m q empty_path) as [[r' path]|]; simpl; [|done].
  intros [= <-]. by exists path.
Qed.

Lemma iommu_state_eta (st : iommu_state) :
  IommuState (i_map st) (i_next st) (i_ranges st) = st.
Proof. by destruct st. Qed.

(** X2.  The three ways [iommu_add_mapping] fails on an index of the data
    model, in the order the code tests them: a zero length is [EINVAL] before
    the index is looked at; a start address inside a stored entry is
    [EEXIST], whatever [calloc] would have returned; an address in no entry
    with [calloc] returning NULL is [ENOMEM].  Each leaves the state as it
    was. *)
Theorem add_mapping_failure_modes (env : add_env) (st : iommu_state) (v l i : Z) :
  skiplist_ok (i_map st) → 0 ≤ v < UINT64_MAX →
  (l = 0 → iommu_add_mapping env st v l i = Some (Err EINVAL, st))
  ∧ (l ≠ 0 → (∃ e, e ∈ level (heads (i_map st)) 0 ∧ inside e v) →
     iova_map_add env (i_map st) v l i = Some (-1, Some EEXIST, i_map st)
     ∧ iommu_add_mapping env st v l i = Some (Err EEXIST, st))
  ∧ (l ≠ 0 → (∀ e, e ∈ level (heads (i_map st)) 0 → ¬ inside e v) →
     alloc env = None →
     iova_map_add env (i_map st) v l i = Some (-1, Some ENOMEM, i_map st)
     ∧ iommu_add_mapping env st v l i = Some (Err ENOMEM, st)).
Proof.
  intros Hok Hv. split; [|split].
  - intros ->. reflexivity.
  - intros Hl (e & He & Hin).
    destruct (find_path_of_find _ _ _ (find_inside _ Hok v e Hv He Hin)) as [path Hp].
    assert (Hadd : iova_map_add env (i_map st) v l i = Some (-1, Some EEXIST, i_map st)).
    { unfold iova_map_add. rewrite Hp. reflexivity. }
    split; [done|]. unfold iommu_add_mapping. rewrite Hadd.
    apply Z.eqb_neq in Hl. rewrite Hl. reflexivity.
  - intros Hl Hout Halloc.
    destruct (find_path_of_find _ _ _ (find_outside _ Hok v Hv Hout)) as [path Hp].
    assert (Hadd : iova_map_add env (i_map st) v l i = Some (-1, Some ENOMEM, i_map st)).
    { unfold iova_map_add. rewrite Hp. simpl. rewrite Halloc. reflexivity. }
    split; [done|]. unfold iommu_add_mapping. rewrite Hadd.
    apply Z.eqb_neq in Hl. rewrite Hl. reflexivity.
Qed.

Lemma add_mapping_failure_modes_witness :
  (4096 = 0 → iommu_add_mapping index_env (iommu unmap_demo) 0x7f0000000800 4096 0x20000
              = Some (Err EINVAL, iommu unmap_demo))
  ∧ (4096 ≠ 0 →
     (∃ e, e ∈ level (heads (i_map (iommu unmap_demo))) 0 ∧ inside e 0x7f0000000800) →
     iova_map_add index_env (i_map (iommu unmap_demo)) 0x7f0000000800 4096 0x20000
     = Some (-1, Some EEXIST, i_map (iommu unmap_demo))
     ∧ iommu_add_mapping index_env (iommu unmap_demo) 0x7f0000000800 4096 0x20000
       = Some (Err EEXIST, iommu unmap_demo))
  ∧ (4096 ≠ 0 →
     (∀ e, e ∈ level (heads (i_map (iommu unmap_demo))) 0 → ¬ inside e 0x7f0000000800) →
     alloc index_env = None →
     iova_map_add index_env (i_map (iommu unmap_demo)) 0x7f0000000800 4096 0x20000
     = Some (-1, Some ENOMEM, i_map (iommu unmap_demo))
     ∧ iommu_add_mapping index_env (iommu unmap_demo) 0x7f0000000800 4096 0x20000
       = Some (Err ENOMEM, iommu unmap_demo)).
Proof.
  apply (add_mapping_failure_modes index_env (iommu unmap_demo) 0x7f0000000800 4096 0x20000).
  - exact unmap_demo_ok.
  - unfold UINT64_MAX. lia.
Defined.

(** X3.  [iova_map_remove] of an address that lies in no entry of an index
    of the data model returns -1 with [ENOENT] and leaves the index as it
    was; [iommu_remove_mapping], which drops that result, leaves the whole
    state as it was. *)
Theorem remove_missing_is_enoent (st : iommu_state) (v : Z) :
  skiplist_ok (i_map st) → 0 ≤ v < UINT64_MAX →
  (∀ e, e ∈ level (heads (i_map st)) 0 → ¬ inside e v) →
  iova_map_remove (i_map st) v = Some (-1, Some ENOENT, i_map st)
  ∧ iommu_remove_mapping st v = Some st.
Proof.
  intros Hok Hv Hout.
  destruct (find_path_of_find _ _ _ (find_outside _ Hok v Hv Hout)) as [path Hp].
  assert (Hrm : iova_map_remove (i_map st) v = Some (-1, Some ENOENT, i_map st)).
  { unfold iova_map_remove. rewrite Hp. reflexivity. }
  split; [done|]. unfold iommu_remove_mapping. rewrite Hrm. simpl.
  by rewrite iommu_state_eta.
Qed.

Lemma remove_missing_is_enoent_witness :
  iova_map_remove (i_map iommu_init) 0x1000 = Some (-1, Some ENOENT, i_map iommu_init)
  ∧ iommu_remove_mapping iommu_init 0x1000 = Some iommu_init.
Proof.
  apply (remove_missing_is_enoent iommu_init 0x1000).
  - exact iova_map_init_ok.
  - unfold UINT64_MAX. lia.
  - intros e He [H1 H2].
    change (level (heads (i_map iommu_init)) 0) with [sentinel; nil_entry] in He.
    apply elem_of_cons in He as [->|He]; [simpl in *; lia|].
    apply elem_of_cons in He as [->|He]; [simpl in *; lia|].
    by apply elem_of_nil in He.
Defined.

(** ** The index: inserts and removes keep the data model *)

Lemma iova_map_add_height (env : add_env) (m m' : iova_map) (v l i r : Z) (er : option Z) :
  iova_map_add env m v l i = Some (r, er, m') →
  (height m ≤ height m' ≤ S (height m))%nat.
Proof.
  unfold iova_map_add.
  destruct (__iova_map_find_path m v empty_path) as [[found update]|]; simpl; [|done].
  destruct found; [intros [= <- <- <-]; lia|].
  destruct (alloc env); [|intros [= <- <- <-]; lia].
  unfold __iova_map_add. destruct (decide (height m < random_level (rand env))%nat).
  - destruct (add_levels _ _ _ _); simpl; [|done]. intros [= <- <- <-]. simpl. lia.
  - destruct (add_levels _ _ _ _); simpl; [|done]. intros [= <- <- <-]. simpl. lia.
Qed.

Lemma stored_insert (n : iova_map_entry) (a b : list iova_map_entry) :
  e_ptr n ≠ PSentinel → e_ptr n ≠ PNil →
  stored (a ++ n :: b) ≡ₚ mapping n :: stored (a ++ b).
Proof.
  intros H1 H2. rewrite !stored_app. unfold stored at 2.
  rewrite filter_cons_True by done. rewrite fmap_cons.
  fold (stored b). by rewrite Permutation_middle.
Qed.

(** X4.  An insert of a non-empty range that meets no stored entry, into an
    index of the data model and with a block from [calloc] that is not in
    use, succeeds and keeps the data model: the entries are still ordered and
    apart, the index stores the old mappings and the new triple, the height
    grows by one level at most whatever [rand()] returns, and every address
    of an old entry is still found in that entry. *)
Theorem insert_keeps_data_model (env : add_env) (m : iova_map) (v l i : Z) (a : nat) :
  skiplist_ok m →
  0 ≤ v → 0 < l → v + l ≤ UINT64_MAX →
  range_free m v l →
  alloc env = Some a → PHeap a ∉ ptrs (level (heads m) 0) →
  ∃ m', iova_map_add env m v l i = Some (0, None, m')
    ∧ skiplist_ok m'
    ∧ stored (level (heads m') 0) ≡ₚ Mapping v l i :: stored (level (heads m) 0)
    ∧ (height m ≤ height m' ≤ S (height m))%nat
    ∧ ∀ q e, e ∈ level (heads m) 0 → inside e q →
        iommu_find_mapping m' q = Some (Some e).
Proof.
  intros Hok Hv Hl Hend Hfree Halloc Hfresh.
  destruct (iova_map_add_ok m Hok env v l i a Hv Hl Hend Hfree Halloc Hfresh)
    as (m' & Hadd & Hok' & Hl0).
  exists m'. split; [done|]. split; [done|].
  pose proof (ok_parted m Hok v) as Hpart. unfold parted in Hpart.
  split; [|split].
  - rewrite Hl0. rewrite stored_insert by done. simpl. by rewrite <- Hpart.
  - by eapply iova_map_add_height.
  - intros q e He Hin. apply (find_inside m' Hok'); [|rewrite Hl0|done].
    + eapply valid_inside_range; [|done]. by apply (ok_valid_entry m Hok).
    + rewrite Hpart in He. apply elem_of_app in He as [He|He].
      * apply elem_of_app. by left.
      * apply elem_of_app. right. by right.
Qed.

Lemma insert_keeps_data_model_witness :
  ∃ m', iova_map_add index_env iova_map_init 0x1000 0x2000 0x10000 = Some (0, None, m')
    ∧ skiplist_ok m'
    ∧ stored (level (heads m') 0)
      ≡ₚ Mapping 0x1000 0x2000 0x10000 :: stored (level (heads iova_map_init) 0)
    ∧ (height iova_map_init ≤ height m' ≤ S (height iova_map_init))%nat
    ∧ ∀ q e, e ∈ level (heads iova_map_init) 0 → inside e q →
        iommu_find_mapping m' q = Some (Some e).
Proof.
  apply (insert_keeps_data_model index_env iova_map_init 0x1000 0x2000 0x10000 0).
  - exact iova_map_init_ok.
  - lia.
  - lia.
  - unfold UINT64_MAX. lia.
  - intros e He. change (level (heads iova_map_init) 0) with [sentinel; nil_entry] in He.
    apply elem_of_cons in He as [->|He]; [right; simpl; lia|].
    apply elem_of_cons in He as [->|He]; [left; unfold nil_entry, UINT64_MAX; simpl; lia|].
    by apply elem_of_nil in He.
  - reflexivity.
  - change (ptrs (level (heads iova_map_init) 0)) with [PSentinel; PNil].
    intros He. apply elem_of_cons in He as [?|He]; [done|].
    apply elem_of_cons in He as [?|He]; [done|]. by apply elem_of_nil in He.
Defined.

Lemma iova_map_remove_heads (m m' : iova_map) (q : Z) :
  iova_map_remove m q = Some (0, None, m') →
  height m' = reduce_height (heads m') (height m).
Proof.
  unfold iova_map_remove.
  destruct (__iova_map_find_path m q empty_path) as [[found update]|]; simpl; [|done].
  destruct found as [p|]; [|done].
  unfold __iova_map_remove.
  destruct (remove_levels p update 0 (S (height m)) (heads m)); simpl; [|done].
  by intros [= <-].
Qed.

Lemma reduce_height_top (hd : list (list iova_map_entry)) (h : nat) :
  reduce_height hd h = 0%nat
  ∨ e_ptr <$> skip_list_next hd sentinel (reduce_height hd h) ≠ Some PNil.
Proof.
  induction h as [|h IH]; [by left|]. cbn [reduce_height].
  destruct (decide (e_ptr <$> skip_list_next hd sentinel (S h) = Some PNil)); [done|].
  by right.
Qed.

Lemma next_of_empty_level (hd : list (list iova_map_entry)) (k : nat) :
  level hd k = [sentinel; nil_entry] →
  e_ptr <$> skip_list_next hd sentinel k = Some PNil.
Proof. unfold skip_list_next. by intros ->. Qed.

Lemma elem_of_list_del_from (x : iova_map_entry) (p : node_ptr) (l : list iova_map_entry) :
  x ∈ list_del_from p l ↔ e_ptr x ≠ p ∧ x ∈ l.
Proof. unfold list_del_from. by rewrite list_elem_of_filter. Qed.

Lemma remove_lookups (m : iova_map) (v : Z) (e : iova_map_entry) :
  skiplist_ok m → e ∈ level (heads m) 0 → inside e v →
  ∃ m', iova_map_remove m v = Some (0, None, m')
    ∧ skiplist_ok m'
    ∧ level (heads m') 0 = list_del_from (e_ptr e) (level (heads m) 0)
    ∧ (∀ q, inside e q → iommu_find_mapping m' q = Some None)
    ∧ (∀ q e', e' ∈ level (heads m) 0 → e' ≠ e → inside e' q →
         iommu_find_mapping m' q = Some (Some e')).
Proof.
  intros Hok He Hin.
  destruct (iova_map_remove_ok m Hok v e He Hin) as (m' & Hrm & Hok' & Hl0).
  exists m'. split; [done|]. split; [done|]. split; [done|]. split.
  - intros q Hq. apply (find_outside m' Hok').
    + eapply valid_inside_range; [|done]. by apply (ok_valid_entry m Hok).
    + intros e' He'. rewrite Hl0 in He'. by apply (removed_not_inside m Hok q e e').
  - intros q e' He' Hne Hq. apply (find_inside m' Hok'); [| |done].
    + eapply valid_inside_range; [|done]. by apply (ok_valid_entry m Hok).
    + rewrite Hl0. apply elem_of_list_del_from. split; [|done].
      intros Hp. apply Hne.
      apply (ptr_unique (level (heads m) 0)); [|done..].
      apply (shape_nodup m (ok_shape m Hok)).
Qed.

(** X5.  A remove at any address of a stored entry of an index of the data
    model unlinks exactly that entry and keeps the data model; the height is
    lowered to the highest level that still links an entry (or to 0); no
    address of the removed range is found any more, and every address of
    another entry is still found in that entry. *)
Theorem remove_keeps_data_model (m : iova_map) (v : Z) (e : iova_map_entry) :
  skiplist_ok m → e ∈ level (heads m) 0 → inside e v →
  ∃ m', iova_map_remove m v = Some (0, None, m')
    ∧ skiplist_ok m'
    ∧ level (heads m') 0 = list_del_from (e_ptr e) (level (heads m) 0)
    ∧ (height m' ≤ height m)%nat
    ∧ (height m' = 0%nat ∨ level (heads m') (height m') ≠ [sentinel; nil_entry])
    ∧ (∀ q, inside e q → iommu_find_mapping m' q = Some None)
    ∧ (∀ q e', e' ∈ level (heads m) 0 → e' ≠ e → inside e' q →
         iommu_find_mapping m' q = Some (Some e')).
Proof.
  intros Hok He Hin.
  destruct (remove_lookups m v e Hok He Hin) as (m' & Hrm & Hok' & Hl0 & Hgone & Hkept).
  exists m'. split; [done|]. split; [done|]. split; [done|].
  pose proof (iova_map_remove_heads m m' v Hrm) as Hh.
  split; [|split; [|split; [done|done]]].
  - rewrite Hh. apply reduce_height_spec.
  - destruct (reduce_height_top (heads m') (height m)) as [H0|Htop].
    + left. by rewrite Hh.
    + right. intros Hlev. apply Htop. rewrite <- Hh. by apply next_of_empty_level.
Qed.

Lemma remove_keeps_data_model_witness :
  ∃ m', iova_map_remove (i_map (iommu unmap_demo)) 0x7f0000000800 = Some (0, None, m')
    ∧ skiplist_ok m'
    ∧ level (heads m') 0
      = list_del_from (PHeap 0) (level (heads (i_map (iommu unmap_demo))) 0)
    ∧ (height m' ≤ height (i_map (iommu unmap_demo)))%nat
    ∧ (height m' = 0%nat ∨ level (heads m') (height m') ≠ [sentinel; nil_entry])
    ∧ (∀ q, inside (Entry (PHeap 0) (Mapping 0x7f0000000000 4096 0x10000)) q →
         iommu_find_mapping m' q = Some None)
    ∧ (∀ q e', e' ∈ level (heads (i_map (iommu unmap_demo))) 0 →
         e' ≠ Entry (PHeap 0) (Mapping 0x7f0000000000 4096 0x10000) → inside e' q →
         iommu_find_mapping m' q = Some (Some e')).
Proof.
  apply (remove_keeps_data_model (i_map (iommu unmap_demo)) 0x7f0000000800
           (Entry (PHeap 0) (Mapping 0x7f0000000000 4096 0x10000))).
  - exact unmap_demo_ok.
  - right. left.
  - unfold inside. simpl. lia.
Defined.

Lemma stored_nil_interior (l : list iova_map_entry) :
  NoDup (ptrs (sentinel :: l ++ [nil_entry])) →
  stored (sentinel :: l ++ [nil_entry]) = mapping <$> l.
Proof.
  intros Hnd. unfold stored. f_equal.
  rewrite filter_cons_False by (simpl; tauto).
  rewrite filter_app.
  rewrite (filter_none _ [nil_entry]).
  2:{ intros x Hx. apply list_elem_of_singleton in Hx as ->. simpl. tauto. }
  rewrite app_nil_r. apply filter_all. intros x Hx.
  unfold ptrs in Hnd. rewrite fmap_cons, fmap_app in Hnd. simpl in Hnd.
  apply NoDup_cons in Hnd as [Hs Hnd]. apply NoDup_app in Hnd as (_ & Hn & _).
  split.
  - intros Hp. apply Hs. apply elem_of_app. left. rewrite <- Hp. by apply elem_of_ptrs.
  - intros Hp. apply (Hn (e_ptr x)); [by apply elem_of_ptrs|]. rewrite Hp. left.
Qed.

Lemma shape_empty_levels (m : iova_map) :
  skiplist_shape m → stored (level (heads m) 0) = [] →
  heads m = heads iova_map_init.
Proof.
  intros Hm Hst.
  assert (H0 : level (heads m) 0 = [sentinel; nil_entry]).
  { destruct (shape_ends m Hm 0%nat) as [l Hl]; [unfold SKIPLIST_LEVELS; lia|].
    pose proof (shape_nodup m Hm) as Hnd. rewrite Hl in Hnd, Hst.
    rewrite (stored_nil_interior l Hnd) in Hst.
    apply fmap_nil_inv in Hst. by rewrite Hl, Hst. }
  assert (Hk : ∀ k, (k < SKIPLIST_LEVELS)%nat → level (heads m) k = [sentinel; nil_entry]).
  { intros k Hk. destruct (shape_ends m Hm k Hk) as [l Hl].
    pose proof (level_sub m Hm 0 k ltac:(lia) Hk) as Hsub.
    rewrite H0, Hl in Hsub. apply sublist_length in Hsub.
    rewrite length_cons, length_app in Hsub. simpl in Hsub.
    destruct l; [done|simpl in Hsub; lia]. }
  apply list_eq. intros k.
  destruct (decide (k < SKIPLIST_LEVELS)%nat) as [Hlt|Hge].
  - pose proof (Hk k Hlt) as Hlev. unfold level in Hlev.
    destruct (heads m !! k) as [x|] eqn:Hx.
    + simpl in Hlev. subst x. symmetry.
      change (heads iova_map_init) with (replicate SKIPLIST_LEVELS [sentinel; nil_entry]).
      by apply lookup_replicate_2.
    + apply lookup_ge_None in Hx. rewrite (shape_length m Hm) in Hx. lia.
  - rewrite !lookup_ge_None_2; [done| |].
    + change (heads iova_map_init) with (replicate SKIPLIST_LEVELS [sentinel; nil_entry]).
      rewrite length_replicate. lia.
    + rewrite (shape_length m Hm). lia.
Qed.

(** X6.  Removing the only stored entry of an index of the data model gives
    back the index of [iova_map_init]: every level holds the sentinel and nil
    alone and the height is 0 again, whatever height the entry had been
    linked with. *)
Theorem remove_last_restores_init (m : iova_map) (v : Z) (e : iova_map_entry) :
  skiplist_ok m → e ∈ level (heads m) 0 → inside e v →
  stored (level (heads m) 0) = [mapping e] →
  iova_map_remove m v = Some (0, None, iova_map_init).
Proof.
  intros Hok He Hin Hst.
  destruct (iova_map_remove_ok m Hok v e He Hin) as (m' & Hrm & Hok' & Hl0).
  rewrite Hrm. do 3 f_equal.
  pose proof (iova_map_remove_heads m m' v Hrm) as Hh.
  assert (Hst' : stored (level (heads m') 0) = []).
  { destruct (shape_ends m (ok_shape m Hok) 0%nat) as [l Hl]; [unfold SKIPLIST_LEVELS; lia|].
    pose proof (shape_nodup m (ok_shape m Hok)) as Hnd. rewrite Hl in Hnd, Hst, He.
    rewrite (stored_nil_interior l Hnd) in Hst.
    destruct l as [|x [|y l]]; [done| |done].
    simpl in Hst. injection Hst as Hx.
    assert (x = e) as ->.
    { apply elem_of_cons in He as [->|He].
      - destruct Hin as [H1 H2]. simpl in *. lia.
      - apply elem_of_cons in He as [->|He]; [done|].
        apply list_elem_of_singleton in He as ->.
        destruct Hin as [H1 H2]. unfold nil_entry in *. simpl in *. lia. }
    rewrite Hl0, Hl. unfold list_del_from. simpl.
    unfold ptrs in Hnd. simpl in Hnd.
    apply NoDup_cons in Hnd as [Hs Hnd]. apply NoDup_cons in Hnd as [Hn _].
    rewrite filter_cons_True.
    2:{ simpl. intros Hp. apply Hs. rewrite Hp. left. }
    rewrite filter_cons_False by (simpl; tauto).
    rewrite filter_cons_True.
    2:{ simpl. intros Hp. apply Hn. rewrite <- Hp. left. }
    reflexivity. }
  pose proof (shape_empty_levels m' (ok_shape m' Hok') Hst') as Hheads.
  destruct m' as [h' hd']. cbn [heads height] in *. subst hd'.
  change iova_map_init with (IovaMap 0 (heads iova_map_init)). f_equal.
  rewrite Hh. pose proof (shape_height m (ok_shape m Hok)) as Hlt.
  clear -Hlt. induction (height m) as [|h IH]; [done|].
  cbn [reduce_height]. destruct (decide _) as [_|Hn]; [apply IH; lia|].
  exfalso. apply Hn. apply next_of_empty_level. by apply level_init.
Qed.

Lemma remove_last_restores_init_witness :
  iova_map_remove (i_map (iommu unmap_demo)) 0x7f0000000800 = Some (0, None, iova_map_init).
Proof.
  apply (remove_last_restores_init (i_map (iommu unmap_demo)) 0x7f0000000800
           (Entry (PHeap 0) (Mapping 0x7f0000000000 4096 0x10000))).
  - exact unmap_demo_ok.
  - right. left.
  - unfold inside. simpl. lia.
  - reflexivity.
Defined.

(** ** The levels an insert links *)

Lemma range_free_outside (m : iova_map) (v l : Z) :
  0 < l → range_free m v l → ∀ e, e ∈ level (heads m) 0 → ¬ inside e v.
Proof. intros Hl Hfree e He [H1 H2]. destruct (Hfree e He); lia. Qed.

Lemma random_level_from_spec (rand : nat → Z) :
  ∀ n k, (k ≤ random_level_from rand n k ≤ n + k)%nat
    ∧ (∀ j, (k ≤ j < random_level_from rand n k)%nat → RAND_MAX / 2 < rand j)
    ∧ ((random_level_from rand n k < n + k)%nat →
       rand (random_level_from rand n k) ≤ RAND_MAX / 2).
Proof.
  induction n as [|n IH]; intros k; simpl.
  - split; [lia|]. split; intros; lia.
  - destruct (RAND_MAX / 2 <? rand k) eqn:Hr.
    + destruct (IH (S k)) as (Hb & Hpre & Hstop). apply Z.ltb_lt in Hr.
      split; [lia|]. split.
      * intros j Hj. destruct (decide (j = k)) as [->|Hne]; [done|]. apply Hpre. lia.
      * intros Hlt. apply Hstop. lia.
    + apply Z.ltb_ge in Hr. split; [lia|]. split; [intros; lia|done].
Qed.

(** X7.  [random_level] counts the leading values of [rand()] above
    [RAND_MAX / 2], up to [SKIPLIST_LEVELS - 1]: it returns [k] exactly when
    [k] is at most 7, the first [k] values are above [RAND_MAX / 2], and,
    for [k] below 7, the next one is not. *)
Theorem random_level_counts (rand : nat → Z) (k : nat) :
  random_level rand = k
  ↔ (k ≤ SKIPLIST_LEVELS - 1)%nat
    ∧ (∀ j, (j < k)%nat → RAND_MAX / 2 < rand j)
    ∧ ((k < SKIPLIST_LEVELS - 1)%nat → rand k ≤ RAND_MAX / 2).
Proof.
  unfold random_level.
  destruct (random_level_from_spec rand (SKIPLIST_LEVELS - 1) 0) as (Hb & Hpre & Hstop).
  set (r := random_level_from rand (SKIPLIST_LEVELS - 1) 0) in *.
  split.
  - intros <-. split; [lia|]. split.
    + intros j Hj. apply Hpre. lia.
    + intros Hlt. apply Hstop. lia.
  - intros (Hk & Hkpre & Hkstop).
    destruct (lt_eq_lt_dec r k) as [[Hlt|Heq]|Hgt]; [|done|].
    + specialize (Hkpre r Hlt). specialize (Hstop ltac:(lia)). lia.
    + specialize (Hpre k ltac:(lia)). specialize (Hkstop ltac:(lia)). lia.
Qed.

(** X8.  Where an insert links the new entry: on an index of the data
    model, for a non-empty range that meets no stored entry, the entry is
    linked in address order (behind the entries that end at or below its
    start) on the levels 0 to [min(random_level(), height + 1)] and on no
    other level, and the height becomes [height + 1] exactly when
    [random_level()] is above it. *)
Theorem insert_links_levels (env : add_env) (m : iova_map) (v l i : Z) (a : nat) :
  skiplist_ok m →
  0 ≤ v → 0 < l → v + l ≤ UINT64_MAX →
  range_free m v l →
  alloc env = Some a → PHeap a ∉ ptrs (level (heads m) 0) →
  ∃ m', iova_map_add env m v l i = Some (0, None, m')
    ∧ height m' = (if decide (height m < random_level (rand env))%nat
                   then S (height m) else height m)
    ∧ ∀ j, (j < SKIPLIST_LEVELS)%nat →
        level (heads m') j
        = if decide (j ≤ random_level (rand env) `min` S (height m))%nat
          then lo v (level (heads m) j)
               ++ Entry (PHeap a) (Mapping v l i) :: hi v (level (heads m) j)
          else level (heads m) j.
Proof.
  intros Hok Hv Hl Hend Hfree Ha Hfresh.
  pose proof (ok_shape m Hok) as Hm.
  assert (Hq : 0 ≤ v < UINT64_MAX) by lia.
  pose proof (ok_parted m Hok v) as Hpart.
  pose proof (not_inside_contains m Hok v (range_free_outside m v l Hl Hfree)) as Hnc.
  pose proof (shape_height m Hm) as Hh.
  pose proof (random_level_lt (rand env)) as Hrl.
  unfold iova_map_add.
  destruct (find_path_spec m Hm v empty_path Hq Hpart eq_refl)
    as (c & t & path' & Hhi & -> & Hlen & Hle & _).
  cbn [mbind option_bind]. rewrite Hnc.
  2:{ rewrite Hpart, Hhi. apply elem_of_app. right. left. }
  rewrite Ha. unfold __iova_map_add.
  set (n := Entry (PHeap a) (Mapping v l i)).
  destruct (decide (height m < random_level (rand env))%nat) as [Hcase|Hcase].
  - destruct (add_levels_spec m Hm v Hq Hpart n
                (<[S (height m) := Some sentinel]> path') (S (height m)))
      with (hd := heads m) as (hd' & -> & Hlen' & Hle' & Hgt').
    + lia.
    + intros j Hj. unfold path_at. destruct (decide (j = S (height m))) as [->|Hne].
      * rewrite list_lookup_insert_eq by lia. simpl. symmetry.
        apply (lo_above m Hm v Hq). lia.
      * rewrite list_lookup_insert_ne by done. apply Hle. lia.
    + apply (shape_length m Hm).
    + done.
    + eexists. split; [done|]. split; [done|]. simpl. intros j Hj.
      replace (random_level (rand env) `min` S (height m))%nat with (S (height m)) by lia.
      destruct (decide (j ≤ S (height m))%nat); [by apply Hle'|]. apply Hgt'. lia.
  - destruct (add_levels_spec m Hm v Hq Hpart n path' (random_level (rand env)))
      with (hd := heads m) as (hd' & -> & Hlen' & Hle' & Hgt').
    + apply random_level_lt.
    + intros j Hj. apply Hle. lia.
    + apply (shape_length m Hm).
    + done.
    + eexists. split; [done|]. split; [done|]. simpl. intros j Hj.
      replace (random_level (rand env) `min` S (height m))%nat
        with (random_level (rand env)) by lia.
      destruct (decide (j ≤ random_level (rand env))%nat); [by apply Hle'|]. apply Hgt'. lia.
Qed.

Lemma insert_links_levels_witness :
  ∃ m', iova_map_add index_env iova_map_init 0x1000 0x2000 0x10000 = Some (0, None, m')
    ∧ height m' = (if decide (height iova_map_init < random_level (rand index_env))%nat
                   then S (height iova_map_init) else height iova_map_init)
    ∧ ∀ j, (j < SKIPLIST_LEVELS)%nat →
        level (heads m') j
        = if decide (j ≤ random_level (rand index_env) `min` S (height iova_map_init))%nat
          then lo 0x1000 (level (heads iova_map_init) j)
               ++ Entry (PHeap 0) (Mapping 0x1000 0x2000 0x10000)
                  :: hi 0x1000 (level (heads iova_map_init) j)
          else level (heads iova_map_init) j.
Proof.
  apply (insert_links_levels index_env iova_map_init 0x1000 0x2000 0x10000 0).
  - exact iova_map_init_ok.
  - lia.
  - lia.
  - unfold UINT64_MAX. lia.
  - intros e He. change (level (heads iova_map_init) 0) with [sentinel; nil_entry] in He.
    apply elem_of_cons in He as [->|He]; [right; simpl; lia|].
    apply elem_of_cons in He as [->|He]; [left; unfold nil_entry, UINT64_MAX; simpl; lia|].
    by apply elem_of_nil in He.
  - reflexivity.
  - change (ptrs (level (heads iova_map_init) 0)) with [PSentinel; PNil].
    intros He. apply elem_of_cons in He as [?|He]; [done|].
    apply elem_of_cons in He as [?|He]; [done|]. by apply elem_of_nil in He.
Defined.

(** ** The bump allocator: where an allocation lies *)

Lemma get_iova_ranges_Some (ranges : list iova_range) (cur l next : Z) :
  0 ≤ cur → 0 ≤ l → Forall (λ r, r_end r < UINT64_MAX) ranges →
  get_iova_ranges ranges cur l = Some next →
  ∃ r, r ∈ ranges ∧ next = Z.max cur (r_start r) ∧ next + l - 1 ≤ r_end r.
Proof.
  intros Hcur Hl Hr. induction Hr as [|r ranges Hend _ IH]; simpl; [done|].
  destruct (r_end r <? cur) eqn:H1.
  { intros H. destruct (IH H) as (r' & ? & ?). exists r'. split; [by right|done]. }
  destruct (r_end r <? Z.max cur (r_start r)) eqn:H2; simpl.
  { intros H. destruct (IH H) as (r' & ? & ?). exists r'. split; [by right|done]. }
  destruct (wrap64 (r_end r - Z.max cur (r_start r) + 1) <? l) eqn:H3.
  { intros H. destruct (IH H) as (r' & ? & ?). exists r'. split; [by right|done]. }
  intros [= <-]. exists r. split; [by left|]. split; [done|].
  apply Z.ltb_ge in H1, H2, H3.
  unfold wrap64, UINT64_MAX in *. rewrite Z.mod_small in H3; lia.
Qed.

Lemma get_iova_granted (pagesize : Z) (st st' : iommu_state) (l i : Z) :
  0 ≤ i_next st → 0 ≤ l → Forall (λ r, r_end r < UINT64_MAX) (i_ranges st) →
  iommu_get_iova pagesize st l = (Ok i, st') →
  i_next st ≤ i ∧ i_next st' = i + l ∧ i_ranges st' = i_ranges st.
Proof.
  intros Hcur Hl Hr. unfold iommu_get_iova.
  destruct (negb (ALIGNED l pagesize)); [done|].
  destruct (get_iova_ranges (i_ranges st) (i_next st) l) as [next|] eqn:Hget; [|done].
  intros [= <- <-]. simpl.
  destruct (get_iova_ranges_Some _ _ _ _ Hcur Hl Hr Hget) as (r & Hin & Hnext & Hfit).
  split; [lia|]. split; [|done].
  assert (r_end r < UINT64_MAX) by (eapply Forall_forall in Hr; done).
  unfold wrap64, UINT64_MAX in *. rewrite Z.mod_small; lia.
Qed.

(** X9.  On an allocator whose cursor is non-negative and whose ranges end
    below 2^64 - 1, an allocation that [iommu_get_iova] grants lies in one of
    the permitted ranges with all its [len] bytes, lies at or above the
    cursor, and moves the cursor to its end; the ranges and the index are not
    touched. *)
Theorem allocation_inside_permitted_range (pagesize : Z) (st st' : iommu_state) (l i : Z) :
  0 ≤ i_next st → 0 ≤ l → Forall (λ r, r_end r < UINT64_MAX) (i_ranges st) →
  iommu_get_iova pagesize st l = (Ok i, st') →
  (∃ r, r ∈ i_ranges st ∧ r_start r ≤ i ∧ i + l - 1 ≤ r_end r)
  ∧ i_next st ≤ i
  ∧ i_next st' = i + l
  ∧ i_ranges st' = i_ranges st
  ∧ i_map st' = i_map st.
Proof.
  intros Hcur Hl Hr. unfold iommu_get_iova.
  destruct (negb (ALIGNED l pagesize)); [done|].
  destruct (get_iova_ranges (i_ranges st) (i_next st) l) as [next|] eqn:Hget; [|done].
  intros [= <- <-]. simpl.
  destruct (get_iova_ranges_Some _ _ _ _ Hcur Hl Hr Hget) as (r & Hin & Hnext & Hfit).
  split; [exists r; split; [done|lia]|]. split; [lia|]. split; [|done].
  assert (r_end r < UINT64_MAX) by (eapply Forall_forall in Hr; done).
  unfold wrap64, UINT64_MAX in *. rewrite Z.mod_small; lia.
Qed.

Lemma allocation_inside_permitted_range_witness :
  (∃ r, r ∈ i_ranges iommu_init ∧ r_start r ≤ 0x10000 ∧ 0x10000 + 8192 - 1 ≤ r_end r)
  ∧ i_next iommu_init ≤ 0x10000
  ∧ i_next (IommuState iova_map_init 0x12000 [IovaRange 0x10000 (2 ^ 39 - 1)]) = 0x10000 + 8192
  ∧ i_ranges (IommuState iova_map_init 0x12000 [IovaRange 0x10000 (2 ^ 39 - 1)])
    = i_ranges iommu_init
  ∧ i_map (IommuState iova_map_init 0x12000 [IovaRange 0x10000 (2 ^ 39 - 1)])
    = i_map iommu_init.
Proof.
  apply (allocation_inside_permitted_range 4096 iommu_init
           (IommuState iova_map_init 0x12000 [IovaRange 0x10000 (2 ^ 39 - 1)]) 8192 0x10000).
  - simpl. unfold __VFN_IOVA_MIN. lia.
  - lia.
  - repeat constructor.
  - reflexivity.
Defined.

Lemma cursor_grows (pagesize : Z) (st : iommu_state) (l : Z) :
  0 ≤ i_next st → 0 ≤ l → Forall (λ r, r_end r < UINT64_MAX) (i_ranges st) →
  i_next st ≤ i_next (snd (iommu_get_iova pagesize st l))
  ∧ i_ranges (snd (iommu_get_iova pagesize st l)) = i_ranges st.
Proof.
  intros Hcur Hl Hr.
  destruct (iommu_get_iova pagesize st l) as [[i|e] st'] eqn:Hget.
  - destruct (get_iova_granted pagesize st st' l i Hcur Hl Hr Hget)
      as (Hle & Hnext & Hrs).
    simpl. split; [lia|done].
  - unfold iommu_get_iova in Hget.
    destruct (negb (ALIGNED l pagesize)); [by injection Hget as _ <-|].
    destruct (get_iova_ranges _ _ _); [done|]. by injection Hget as _ <-.
Qed.

Lemma cursor_grows_many (pagesize : Z) (ls : list Z) :
  ∀ st, 0 ≤ i_next st → Forall (λ l, 0 ≤ l) ls →
  Forall (λ r, r_end r < UINT64_MAX) (i_ranges st) →
  i_next st ≤ i_next (fold_left (λ s l, snd (iommu_get_iova pagesize s l)) ls st)
  ∧ i_ranges (fold_left (λ s l, snd (iommu_get_iova pagesize s l)) ls st) = i_ranges st.
Proof.
  induction ls as [|l ls IH]; intros st Hcur Hls Hr; simpl; [split; [lia|done]|].
  apply Forall_cons in Hls as [Hl Hls].
  destruct (cursor_grows pagesize st l Hcur Hl Hr) as [Hle Hrs].
  destruct (IH (snd (iommu_get_iova pagesize st l))) as [Hle' Hrs'];
    [lia|done|by rewrite Hrs|].
  split; [lia|congruence].
Qed.

(** X10.  Allocations never overlap: on an allocator whose cursor is
    non-negative and whose ranges end below 2^64 - 1, an allocation granted
    after an earlier one, with any number of calls of [iommu_get_iova] of any
    lengths in between (granted or not), begins at or behind the end of the
    earlier one. *)
Theorem allocations_never_overlap (pagesize : Z) (st st1 st2 : iommu_state)
    (l1 l2 i1 i2 : Z) (ls : list Z) :
  0 ≤ i_next st → Forall (λ r, r_end r < UINT64_MAX) (i_ranges st) →
  0 ≤ l1 → Forall (λ l, 0 ≤ l) ls → 0 ≤ l2 →
  iommu_get_iova pagesize st l1 = (Ok i1, st1) →
  iommu_get_iova pagesize
    (fold_left (λ s l, snd (iommu_get_iova pagesize s l)) ls st1) l2 = (Ok i2, st2) →
  i1 + l1 ≤ i2.
Proof.
  intros Hcur Hr Hl1 Hls Hl2 H1 H2.
  destruct (get_iova_granted pagesize st st1 l1 i1 Hcur Hl1 Hr H1)
    as (Hle1 & Hnext1 & Hrs1).
  destruct (cursor_grows_many pagesize ls st1) as [Hmid Hrs]; [lia|done|by rewrite Hrs1|].
  set (stm := fold_left (λ s l, snd (iommu_get_iova pagesize s l)) ls st1) in *.
  assert (Hcurm : 0 ≤ i_next stm) by lia.
  assert (Hrm : Forall (λ r, r_end r < UINT64_MAX) (i_ranges stm)) by (by rewrite Hrs, Hrs1).
  destruct (get_iova_granted pagesize stm st2 l2 i2 Hcurm Hl2 Hrm H2) as (Hle2 & _).
  lia.
Qed.

Lemma allocations_never_overlap_witness : 0x10000 + 4096 ≤ 0x13000.
Proof.
  apply (allocations_never_overlap 4096 iommu_init
           (IommuState iova_map_init 0x11000 [IovaRange 0x10000 (2 ^ 39 - 1)])
           (IommuState iova_map_init 0x15000 [IovaRange 0x10000 (2 ^ 39 - 1)])
           4096 8192 0x10000 0x13000 [8192; 4097; 0]).
  - simpl. unfold __VFN_IOVA_MIN. lia.
  - repeat constructor.
  - lia.
  - repeat constructor; lia.
  - lia.
  - reflexivity.
  - reflexivity.
Defined.

(** ** [vfio_map_vaddr] and [vfio_unmap_vaddr]: round trips and failures *)

Lemma translate_inside (st : iommu_state) (q : Z) (e : iova_map_entry) :
  skiplist_ok (i_map st) → e ∈ level (heads (i_map st)) 0 → inside e q →
  iommu_vaddr_to_iova st q
  = Some (Some (wrap64 (iova (mapping e) + (q - vaddr (mapping e))))).
Proof.
  intros Hok He Hin. unfold iommu_vaddr_to_iova.
  rewrite (find_inside _ Hok q e); [done| |done..].
  eapply valid_inside_range; [|done]. by apply (ok_valid_entry _ Hok).
Qed.

Lemma translate_outside (st : iommu_state) (q : Z) :
  skiplist_ok (i_map st) → 0 ≤ q < UINT64_MAX →
  (∀ e, e ∈ level (heads (i_map st)) 0 → ¬ inside e q) →
  iommu_vaddr_to_iova st q = Some None.
Proof.
  intros Hok Hq Hout. unfold iommu_vaddr_to_iova. by rewrite (find_outside _ Hok q).
Qed.

Lemma vfio_state_eta (st : vfio_state) : with_iommu st (iommu st) = st.
Proof. by destruct st. Qed.

(** X11.  The full success path of [vfio_map_vaddr] on a context whose index
    is in the data model: for a non-empty range that meets no stored entry,
    when the allocator grants [i], [DMA_MAP] goes through and [calloc] hands
    out a block that is not in use, the call returns [i], has issued exactly
    [DMA_MAP(vaddr, i, len)], and every address [vaddr + off] of the range
    translates to [i + off]; a later map of any address of the range, with
    any length, is answered from the index and changes nothing. *)
Theorem map_then_translate (pagesize : Z) (env : map_env) (st : vfio_state) (v l i : Z)
    (io1 : iommu_state) (a : nat) :
  skiplist_ok (i_map (iommu st)) →
  0 ≤ v → 0 < l → v + l ≤ UINT64_MAX →
  range_free (i_map (iommu st)) v l →
  iommu_get_iova pagesize (iommu st) l = (Ok i, io1) →
  dma_map_outcome env = None →
  alloc (insert_env env) = Some a → PHeap a ∉ ptrs (level (heads (i_map (iommu st))) 0) →
  ∃ st', vfio_map_vaddr pagesize env st v l = Some (Ok i, st')
    ∧ skiplist_ok (i_map (iommu st'))
    ∧ calls st' = calls st ++ [DMA_MAP v i l]
    ∧ kernel st' = kernel st ++ [Dma v i l]
    ∧ i_next (iommu st') = i_next io1
    ∧ (∀ off, 0 ≤ off < l →
         iommu_vaddr_to_iova (iommu st') (v + off) = Some (Some (wrap64 (i + off))))
    ∧ (∀ off l' env', 0 ≤ off < l →
         vfio_map_vaddr pagesize env' st' (v + off) l' = Some (Ok (wrap64 (i + off)), st')).
Proof.
  intros Hok Hv Hl Hend Hfree Hget Hdma Halloc Hfresh.
  pose proof (iommu_get_iova_map pagesize (iommu st) l) as Hmap. rewrite Hget in Hmap.
  simpl in Hmap.
  assert (Hok1 : skiplist_ok (i_map io1)) by (by rewrite Hmap).
  destruct (iova_map_add_ok (i_map io1) Hok1 (insert_env env) v l i a)
    as (m' & Hadd & Hok' & Hl0); [done|done|done|by rewrite Hmap|done|by rewrite Hmap|].
  set (st' := VfioState (IommuState m' (i_next io1) (i_ranges io1))
                (kernel st ++ [Dma v i l]) (calls st ++ [DMA_MAP v i l])).
  assert (Htr : ∀ off, 0 ≤ off < l →
            iommu_vaddr_to_iova (iommu st') (v + off) = Some (Some (wrap64 (i + off)))).
  { intros off Hoff.
    rewrite (translate_inside (iommu st') (v + off) (Entry (PHeap a) (Mapping v l i))).
    - simpl. do 3 f_equal. lia.
    - done.
    - simpl. rewrite Hl0. apply elem_of_app. right. left.
    - unfold inside. simpl. lia. }
  exists st'. split; [|split; [done|split; [done|split; [done|split; [done|split; [done|]]]]]].
  - unfold vfio_map_vaddr.
    rewrite (translate_outside (iommu st) v Hok);
      [|unfold UINT64_MAX in *; lia|by apply (range_free_outside _ v l)].
    rewrite Hget. unfold vfio_iommu_map_dma. rewrite Hdma. simpl.
    unfold iommu_add_mapping. replace (l =? 0) with false by (symmetry; apply Z.eqb_neq; lia).
    rewrite Hadd. reflexivity.
  - intros off l' env' Hoff. unfold vfio_map_vaddr. by rewrite (Htr off Hoff).
Qed.

Lemma map_then_translate_witness :
  ∃ st', vfio_map_vaddr 4096 (MapEnv None index_env) default_ctx 0x7f0000000000 8192
         = Some (Ok 0x10000, st')
    ∧ skiplist_ok (i_map (iommu st'))
    ∧ calls st' = calls default_ctx ++ [DMA_MAP 0x7f0000000000 0x10000 8192]
    ∧ kernel st' = kernel default_ctx ++ [Dma 0x7f0000000000 0x10000 8192]
    ∧ i_next (iommu st')
      = i_next (IommuState iova_map_init 0x12000 [IovaRange 0x10000 0x7fffffffff])
    ∧ (∀ off, 0 ≤ off < 8192 →
         iommu_vaddr_to_iova (iommu st') (0x7f0000000000 + off)
         = Some (Some (wrap64 (0x10000 + off))))
    ∧ (∀ off l' env', 0 ≤ off < 8192 →
         vfio_map_vaddr 4096 env' st' (0x7f0000000000 + off) l'
         = Some (Ok (wrap64 (0x10000 + off)), st')).
Proof.
  apply (map_then_translate 4096 (MapEnv None index_env) default_ctx 0x7f0000000000 8192
           0x10000 (IommuState iova_map_init 0x12000 [IovaRange 0x10000 0x7fffffffff]) 0).
  - exact iova_map_init_ok.
  - lia.
  - lia.
  - unfold UINT64_MAX. lia.
  - intros e He.
    change (level (heads (i_map (iommu default_ctx))) 0) with [sentinel; nil_entry] in He.
    apply elem_of_cons in He as [->|He]; [right; simpl; lia|].
    apply elem_of_cons in He as [->|He]; [left; unfold nil_entry, UINT64_MAX; simpl; lia|].
    by apply elem_of_nil in He.
  - reflexivity.
  - reflexivity.
  - reflexivity.
  - change (ptrs (level (heads (i_map (iommu default_ctx))) 0)) with [PSentinel; PNil].
    intros He. apply elem_of_cons in He as [?|He]; [done|].
    apply elem_of_cons in He as [?|He]; [done|]. by apply elem_of_nil in He.
Defined.

(** X12.  [vfio_unmap_vaddr] at any address of a stored entry, on a context
    whose index is in the data model.  When [DMA_UNMAP] goes through, the
    call issues [DMA_UNMAP(entry.iova, entry.len)] and takes the whole entry
    out of the index: no address of its range translates any more, every
    address of another entry translates as before, and the allocator is not
    touched (the IOVA range is not given back).  When [DMA_UNMAP] fails, the
    call returns -1 with that errno after the backend call and the index is
    as it was. *)
Theorem unmap_removes_whole_entry (st : vfio_state) (v : Z) (e : iova_map_entry) :
  skiplist_ok (i_map (iommu st)) →
  e ∈ level (heads (i_map (iommu st))) 0 → inside e v →
  (∃ st', vfio_unmap_vaddr None st v = Some (Ok (), st')
     ∧ skiplist_ok (i_map (iommu st'))
     ∧ calls st' = calls st ++ [DMA_UNMAP (iova (mapping e)) (len (mapping e))]
     ∧ kernel st' = filter (λ d, dma_iova d ≠ iova (mapping e)) (kernel st)
     ∧ i_next (iommu st') = i_next (iommu st)
     ∧ i_ranges (iommu st') = i_ranges (iommu st)
     ∧ (∀ q, inside e q → iommu_vaddr_to_iova (iommu st') q = Some None)
     ∧ (∀ q e', e' ∈ level (heads (i_map (iommu st))) 0 → e' ≠ e → inside e' q →
          iommu_vaddr_to_iova (iommu st') q = iommu_vaddr_to_iova (iommu st) q))
  ∧ (∀ er, vfio_unmap_vaddr (Some er) st v
           = Some (Err er,
                   VfioState (iommu st) (kernel st)
                     (calls st ++ [DMA_UNMAP (iova (mapping e)) (len (mapping e))]))).
Proof.
  intros Hok He Hin.
  assert (Hq : 0 ≤ v < UINT64_MAX).
  { eapply valid_inside_range; [|done]. by apply (ok_valid_entry _ Hok). }
  pose proof (find_inside _ Hok v e Hq He Hin) as Hfind.
  split.
  - assert (Hstart : inside e (vaddr (mapping e))) by (unfold inside in *; lia).
    destruct (remove_lookups _ _ e Hok He Hstart)
      as (m' & Hrm & Hok' & Hl0 & Hgone & Hkept).
    exists (VfioState (IommuState m' (i_next (iommu st)) (i_ranges (iommu st)))
              (filter (λ d, dma_iova d ≠ iova (mapping e)) (kernel st))
              (calls st ++ [DMA_UNMAP (iova (mapping e)) (len (mapping e))])).
    split; [|split; [done|split; [done|split; [done|split; [done|split; [done|split]]]]]].
    + unfold vfio_unmap_vaddr. rewrite Hfind. simpl.
      unfold iommu_remove_mapping. simpl. rewrite Hrm. reflexivity.
    + intros q Hinq. unfold iommu_vaddr_to_iova. simpl. by rewrite (Hgone q Hinq).
    + intros q e' He' Hne Hinq.
      rewrite (translate_inside (iommu st) q e' Hok He' Hinq).
      unfold iommu_vaddr_to_iova. simpl. by rewrite (Hkept q e' He' Hne Hinq).
  - intros er. unfold vfio_unmap_vaddr. rewrite Hfind. reflexivity.
Qed.

Lemma unmap_removes_whole_entry_witness :
  (∃ st', vfio_unmap_vaddr None unmap_demo 0x7f0000000800 = Some (Ok (), st')
     ∧ skiplist_ok (i_map (iommu st'))
     ∧ calls st' = calls unmap_demo ++ [DMA_UNMAP 0x10000 4096]
     ∧ kernel st' = filter (λ d, dma_iova d ≠ 0x10000) (kernel unmap_demo)
     ∧ i_next (iommu st') = i_next (iommu unmap_demo)
     ∧ i_ranges (iommu st') = i_ranges (iommu unmap_demo)
     ∧ (∀ q, inside (Entry (PHeap 0) (Mapping 0x7f0000000000 4096 0x10000)) q →
          iommu_vaddr_to_iova (iommu st') q = Some None)
     ∧ (∀ q e', e' ∈ level (heads (i_map (iommu unmap_demo))) 0 →
          e' ≠ Entry (PHeap 0) (Mapping 0x7f0000000000 4096 0x10000) → inside e' q →
          iommu_vaddr_to_iova (iommu st') q = iommu_vaddr_to_iova (iommu unmap_demo) q))
  ∧ (∀ er, vfio_unmap_vaddr (Some er) unmap_demo 0x7f0000000800
           = Some (Err er,
                   VfioState (iommu unmap_demo) (kernel unmap_demo)
                     (calls unmap_demo ++ [DMA_UNMAP 0x10000 4096]))).
Proof.
  apply (unmap_removes_whole_entry unmap_demo 0x7f0000000800
           (Entry (PHeap 0) (Mapping 0x7f0000000000 4096 0x10000))).
  - exact unmap_demo_ok.
  - right. left.
  - unfold inside. simpl. lia.
Defined.

Lemma map_vaddr_granted (pagesize : Z) (env : map_env) (st st' : vfio_state) (v l i : Z) :
  iommu_vaddr_to_iova (iommu st) v = Some None →
  vfio_map_vaddr pagesize env st v l = Some (Ok i, st') →
  ∃ io1, iommu_get_iova pagesize (iommu st) l = (Ok i, io1).
Proof.
  intros Htr. unfold vfio_map_vaddr. rewrite Htr. simpl.
  destruct (iommu_get_iova pagesize (iommu st) l) as [[i1|er] io1]; [|done].
  unfold vfio_iommu_map_dma. destruct (dma_map_outcome env); [done|].
  destruct (iommu_add_mapping _ _ _ _ _) as [[[[]|er] io3]|]; simpl; [|done..].
  intros [= <- _]. by exists io1.
Qed.

(** X13.  The two failures of [vfio_map_vaddr] in front of the insert, for
    an address in no entry of an index of the data model.  When the
    allocator refuses, the call returns its errno, issues no backend call and
    leaves the context as it was.  When [DMA_MAP] fails, the call returns
    that errno after the one backend call, nothing is installed and the index
    is as it was.  If moreover the cursor of the allocator is non-negative,
    [len] is non-negative and every permitted range ends below [2^64 - 1],
    the cursor then stays behind the range just granted, at [iova + len]: a
    later map of the same range that succeeds is given an IOVA at or behind
    [iova + len]. *)
Theorem map_failure_before_insert (pagesize : Z) (env : map_env) (st : vfio_state)
    (v l : Z) :
  skiplist_ok (i_map (iommu st)) → 0 ≤ v < UINT64_MAX →
  (∀ e, e ∈ level (heads (i_map (iommu st))) 0 → ¬ inside e v) →
  (∀ er, fst (iommu_get_iova pagesize (iommu st) l) = Err er →
     vfio_map_vaddr pagesize env st v l = Some (Err er, st))
  ∧ (∀ i io1 er,
       iommu_get_iova pagesize (iommu st) l = (Ok i, io1) →
       dma_map_outcome env = Some er →
       vfio_map_vaddr pagesize env st v l
       = Some (Err er, VfioState io1 (kernel st) (calls st ++ [DMA_MAP v i l]))
       ∧ i_map io1 = i_map (iommu st)
       ∧ (0 ≤ i_next (iommu st) → 0 ≤ l →
          Forall (λ r, r_end r < UINT64_MAX) (i_ranges (iommu st)) →
          i_next io1 = i + l
          ∧ ∀ env' i2 st2,
              vfio_map_vaddr pagesize env'
                (VfioState io1 (kernel st) (calls st ++ [DMA_MAP v i l])) v l
              = Some (Ok i2, st2) →
              i + l ≤ i2)).
Proof.
  intros Hok Hv Hout.
  pose proof (translate_outside (iommu st) v Hok Hv Hout) as Htr.
  split.
  - intros er Hget. unfold vfio_map_vaddr. rewrite Htr. simpl.
    destruct (iommu_get_iova pagesize (iommu st) l) as [[i|er'] io1] eqn:Hg; [done|].
    simpl in Hget. injection Hget as ->.
    assert (io1 = iommu st) as ->.
    { unfold iommu_get_iova in Hg. destruct (negb _); [by injection Hg|].
      destruct (get_iova_ranges _ _ _); [done|]. by injection Hg. }
    by rewrite vfio_state_eta.
  - intros i io1 er Hget Hdma.
    pose proof (iommu_get_iova_map pagesize (iommu st) l) as Hmap. rewrite Hget in Hmap.
    simpl in Hmap.
    split; [|split; [done|]].
    + unfold vfio_map_vaddr. rewrite Htr. simpl. rewrite Hget.
      unfold vfio_iommu_map_dma. rewrite Hdma. reflexivity.
    + intros Hcur Hl Hr.
      destruct (get_iova_granted pagesize _ _ l i Hcur Hl Hr Hget) as (Hle & Hnext & Hrs).
      split; [done|]. intros env' i2 st2 Hretry.
      apply map_vaddr_granted in Hretry as [io2 Hget2].
      * simpl in Hget2.
        destruct (get_iova_granted pagesize io1 io2 l i2) as (Hle2 & _); [lia|done| |done|lia].
        by rewrite Hrs.
      * simpl. apply translate_outside; [by rewrite Hmap|done|by rewrite Hmap].
Qed.

Lemma map_failure_before_insert_witness :
  (∀ er, fst (iommu_get_iova 4096 (iommu default_ctx) 4096) = Err er →
     vfio_map_vaddr 4096 (MapEnv (Some EIO) index_env) default_ctx 0x7f0000000000 4096
     = Some (Err er, default_ctx))
  ∧ (∀ i io1 er,
       iommu_get_iova 4096 (iommu default_ctx) 4096 = (Ok i, io1) →
       dma_map_outcome (MapEnv (Some EIO) index_env) = Some er →
       vfio_map_vaddr 4096 (MapEnv (Some EIO) index_env) default_ctx 0x7f0000000000 4096
       = Some (Err er,
               VfioState io1 (kernel default_ctx)
                 (calls default_ctx ++ [DMA_MAP 0x7f0000000000 i 4096]))
       ∧ i_map io1 = i_map (iommu default_ctx)
       ∧ (0 ≤ i_next (iommu default_ctx) → 0 ≤ 4096 →
          Forall (λ r, r_end r < UINT64_MAX) (i_ranges (iommu default_ctx)) →
          i_next io1 = i + 4096
          ∧ ∀ env' i2 st2,
              vfio_map_vaddr 4096 env'
                (VfioState io1 (kernel default_ctx)
                   (calls default_ctx ++ [DMA_MAP 0x7f0000000000 i 4096]))
                0x7f0000000000 4096
              = Some (Ok i2, st2) →
              i + 4096 ≤ i2)).
Proof.
  apply (map_failure_before_insert 4096 (MapEnv (Some EIO) index_env) default_ctx
           0x7f0000000000 4096).
  - exact iova_map_init_ok.
  - unfold UINT64_MAX. lia.
  - intros e He [H1 H2].
    change (level (heads (i_map (iommu default_ctx))) 0) with [sentinel; nil_entry] in He.
    apply elem_of_cons in He as [->|He]; [simpl in *; lia|].
    apply elem_of_cons in He as [->|He]; [simpl in *; lia|].
    by apply elem_of_nil in He.
Defined.

Lemma get_iova_refused (pagesize : Z) (io io1 : iommu_state) (l er : Z) :
  iommu_get_iova pagesize io l = (Err er, io1) → io1 = io.
Proof.
  unfold iommu_get_iova. destruct (negb _); [by intros [= _ <-]|].
  destruct (get_iova_ranges _ _ _); [done|]. by intros [= _ <-].
Qed.

(** X14.  A map of zero bytes at an address in no entry of an index of the
    data model never succeeds, and never changes the index.
    [vfio_map_vaddr] returns -1 with the errno of the allocator when the
    allocator refuses, and the context is then as it was; with the errno of
    [DMA_MAP] when that call fails, after the one backend call and with
    nothing installed; and otherwise with the [EINVAL] of
    [iommu_add_mapping], which is only reached after the [DMA_MAP] call has
    been made and its mapping installed. *)
Theorem map_zero_length_fails (pagesize : Z) (env : map_env) (st : vfio_state) (v : Z) :
  skiplist_ok (i_map (iommu st)) → 0 ≤ v < UINT64_MAX →
  (∀ e, e ∈ level (heads (i_map (iommu st))) 0 → ¬ inside e v) →
  ∃ er st', vfio_map_vaddr pagesize env st v 0 = Some (Err er, st')
    ∧ i_map (iommu st') = i_map (iommu st)
    ∧ (∀ e0, fst (iommu_get_iova pagesize (iommu st) 0) = Err e0 →
         er = e0 ∧ st' = st)
    ∧ (∀ i io1 e0, iommu_get_iova pagesize (iommu st) 0 = (Ok i, io1) →
         dma_map_outcome env = Some e0 →
         er = e0 ∧ calls st' = calls st ++ [DMA_MAP v i 0] ∧ kernel st' = kernel st)
    ∧ (∀ i io1, iommu_get_iova pagesize (iommu st) 0 = (Ok i, io1) →
         dma_map_outcome env = None →
         er = EINVAL ∧ calls st' = calls st ++ [DMA_MAP v i 0]
         ∧ kernel st' = kernel st ++ [Dma v i 0]).
Proof.
  intros Hok Hv Hout.
  pose proof (translate_outside (iommu st) v Hok Hv Hout) as Htr.
  pose proof (iommu_get_iova_map pagesize (iommu st) 0) as Hmap.
  unfold vfio_map_vaddr. rewrite Htr. simpl.
  destruct (iommu_get_iova pagesize (iommu st) 0) as [[i|er] io1] eqn:Hget; simpl in Hmap.
  - unfold vfio_iommu_map_dma. destruct (dma_map_outcome env) as [er|] eqn:Hdma; simpl.
    + exists er. eexists. split; [done|]. split; [done|].
      split; [intros ? [=]|]. split.
      * intros i' io1' e0 [= <- <-] [= <-]. done.
      * intros ? ? _ [=].
    + exists EINVAL. eexists. split; [done|]. split; [done|].
      split; [intros ? [=]|]. split.
      * intros ? ? ? _ [=].
      * intros i' io1' [= <- <-] _. done.
  - apply get_iova_refused in Hget as ->.
    exists er, st. rewrite vfio_state_eta. split; [done|]. split; [done|]. split.
    + intros e0 [= <-]. done.
    + split; [intros ? ? ? [=]|intros ? ? [=]].
Qed.

Lemma map_zero_length_fails_witness :
  ∃ er st', vfio_map_vaddr 4096 (MapEnv None index_env) default_ctx 0x7f0000000000 0
            = Some (Err er, st')
    ∧ i_map (iommu st') = i_map (iommu default_ctx)
    ∧ (∀ e0, fst (iommu_get_iova 4096 (iommu default_ctx) 0) = Err e0 →
         er = e0 ∧ st' = default_ctx)
    ∧ (∀ i io1 e0, iommu_get_iova 4096 (iommu default_ctx) 0 = (Ok i, io1) →
         dma_map_outcome (MapEnv None index_env) = Some e0 →
         er = e0 ∧ calls st' = calls default_ctx ++ [DMA_MAP 0x7f0000000000 i 0]
         ∧ kernel st' = kernel default_ctx)
    ∧ (∀ i io1, iommu_get_iova 4096 (iommu default_ctx) 0 = (Ok i, io1) →
         dma_map_outcome (MapEnv None index_env) = None →
         er = EINVAL ∧ calls st' = calls default_ctx ++ [DMA_MAP 0x7f0000000000 i 0]
         ∧ kernel st' = kernel default_ctx ++ [Dma 0x7f0000000000 i 0]).
Proof.
  apply (map_zero_length_fails 4096 (MapEnv None index_env) default_ctx 0x7f0000000000).
  - exact iova_map_init_ok.
  - unfold UINT64_MAX. lia.
  - intros e He [H1 H2].
    change (level (heads (i_map (iommu default_ctx))) 0) with [sentinel; nil_entry] in He.
    apply elem_of_cons in He as [->|He]; [simpl in *; lia|].
    apply elem_of_cons in He as [->|He]; [simpl in *; lia|].
    by apply elem_of_nil in He.
Defined.

(** ** The state [iommu_init] leaves *)

(** X15.  The state of [iommu_init]: its index is in the data model and
    holds no mapping, so every address below nil's key translates to
    nothing; and the allocator hands out [__VFN_IOVA_MIN] first, for every
    length that is a positive multiple of the page size up to the
    [2^39 - 0x10000] bytes of the default range, and refuses a longer
    multiple with [ENOMEM]. *)
Theorem iommu_init_state (pagesize : Z) :
  skiplist_ok (i_map iommu_init)
  ∧ stored (level (heads (i_map iommu_init)) 0) = []
  ∧ (∀ q, 0 ≤ q < UINT64_MAX → iommu_vaddr_to_iova iommu_init q = Some None)
  ∧ (∀ l, 0 < l → l mod pagesize = 0 →
       iommu_get_iova pagesize iommu_init l
       = if decide (l ≤ IOVA_MAX_39BITS - __VFN_IOVA_MIN)
         then (Ok __VFN_IOVA_MIN,
               IommuState iova_map_init (__VFN_IOVA_MIN + l) (i_ranges iommu_init))
         else (Err ENOMEM, iommu_init)).
Proof.
  split; [exact iova_map_init_ok|]. split; [reflexivity|]. split.
  - intros q Hq. apply translate_outside; [exact iova_map_init_ok|done|].
    intros e He [H1 H2].
    change (level (heads (i_map iommu_init)) 0) with [sentinel; nil_entry] in He.
    apply elem_of_cons in He as [->|He]; [simpl in *; lia|].
    apply elem_of_cons in He as [->|He]; [simpl in *; lia|].
    by apply elem_of_nil in He.
  - intros l Hl Hal. unfold iommu_get_iova, ALIGNED.
    apply Z.eqb_eq in Hal. rewrite Hal. simpl.
    unfold __VFN_IOVA_MIN, IOVA_MAX_39BITS.
    change (2 ^ 39 - 1 <? 65536) with false. cbn [orb negb].
    rewrite Z.max_id. change (2 ^ 39 - 1 <? 65536) with false. cbn [orb].
    change (wrap64 (2 ^ 39 - 1 - 65536 + 1)) with (2 ^ 39 - 65536).
    destruct (decide (l ≤ 2 ^ 39 - 65536)) as [Hle|Hgt].
    + replace (2 ^ 39 - 65536 <? l) with false by (symmetry; apply Z.ltb_ge; lia).
      do 2 f_equal. unfold wrap64. apply Z.mod_small. lia.
    + replace (2 ^ 39 - 65536 <? l) with true by (symmetry; apply Z.ltb_lt; lia).
      done.
Qed.

(** ** [nvme_set_errno_from_cqe] *)

(** X16.  [nvme_set_errno_from_cqe] looks at the status field alone: it
    returns 0 exactly when the field above the phase tag is zero, and -1 with
    [EIO] otherwise, and the phase tag does not change the answer.  It stores
    [errno] on both paths: a completion without error resets [errno] to 0. *)
Theorem set_errno_from_cqe_ignores_phase (cqe : nvme_cqe) :
  0 ≤ cqe_sfp cqe →
  nvme_set_errno_from_cqe cqe
  = (if decide (cqe_sfp cqe ≤ 1) then (0, 0) else (-1, EIO))
  ∧ nvme_set_errno_from_cqe (Cqe (cqe_dw0 cqe) (cqe_cid cqe) (Z.lxor (cqe_sfp cqe) 1))
    = nvme_set_errno_from_cqe cqe.
Proof.
  intros Hs. unfold nvme_set_errno_from_cqe. simpl. split.
  - rewrite Z.shiftr_div_pow2 by lia. change (2 ^ 1) with 2.
    destruct (decide (cqe_sfp cqe ≤ 1)) as [Hle|Hgt].
    + replace (cqe_sfp cqe / 2) with 0; [done|].
      symmetry. apply Z.div_small. lia.
    + destruct (cqe_sfp cqe / 2 =? 0) eqn:Hd; [|done].
      apply Z.eqb_eq in Hd. apply Z.div_small_iff in Hd; lia.
  - replace (Z.shiftr (Z.lxor (cqe_sfp cqe) 1) 1) with (Z.shiftr (cqe_sfp cqe) 1); [done|].
    rewrite Z.shiftr_lxor. change (Z.shiftr 1 1) with 0. by rewrite Z.lxor_0_r.
Qed.

Lemma set_errno_from_cqe_ignores_phase_witness :
  nvme_set_errno_from_cqe (Cqe 0 7 0x4005)
  = (if decide (cqe_sfp (Cqe 0 7 0x4005) ≤ 1) then (0, 0) else (-1, EIO))
  ∧ nvme_set_errno_from_cqe
      (Cqe (cqe_dw0 (Cqe 0 7 0x4005)) (cqe_cid (Cqe 0 7 0x4005))
         (Z.lxor (cqe_sfp (Cqe 0 7 0x4005)) 1))
    = nvme_set_errno_from_cqe (Cqe 0 7 0x4005).
Proof.
  apply (set_errno_from_cqe_ignores_phase (Cqe 0 7 0x4005)). simpl. lia.
Defined.

(** ** The polling loops *)

(** X17.  Asked for no completion ([n <= 0]), both polling loops still poll
    once, because the test comes after the body: [nvme_cq_get_cqes] reaps
    (and copies out) a completion that is there, and [nvme_cq_wait_cqes] with
    a deadline then returns [n - 1], a negative value, without storing
    [errno]. *)
Theorem nonpositive_count_polls_once (env : cq_env) (n : Z) (copy : bool) (fuel : nat) :
  n ≤ 0 →
  (∀ i cqes, nvme_cq_get_cqes (S fuel) env i n copy cqes
             = Some (cqes ++ reaped copy (cq_get_cqe env i)))
  ∧ (∀ timeout_ns, timeout_ns ≠ 0 →
       nvme_cq_wait_cqes (S fuel) env n copy timeout_ns
       = Some (match cq_get_cqe env 0 with Some _ => n - 1 | None => n end, None,
               reaped copy (cq_get_cqe env 0))).
Proof.
  intros Hn. split.
  - intros i cqes. cbn [nvme_cq_get_cqes]. unfold reaped.
    destruct (cq_get_cqe env i) as [cqe|].
    + replace (0 <? n - 1) with false by (symmetry; apply Z.ltb_ge; lia).
      destruct copy; [done|by rewrite app_nil_r].
    + replace (0 <? n) with false by (symmetry; apply Z.ltb_ge; lia).
      by rewrite app_nil_r.
  - intros t Ht. unfold nvme_cq_wait_cqes.
    apply Z.eqb_neq in Ht. rewrite Ht. cbn [wait_loop]. unfold reaped.
    destruct (cq_get_cqe env 0) as [cqe|].
    + replace (0 <? n - 1) with false by (symmetry; apply Z.ltb_ge; lia). simpl.
      replace (0 <? n - 1) with false by (symmetry; apply Z.ltb_ge; lia).
      by destruct copy.
    + replace (0 <? n) with false by (symmetry; apply Z.ltb_ge; lia). simpl.
      replace (0 <? n) with false by (symmetry; apply Z.ltb_ge; lia). done.
Qed.

Lemma nonpositive_count_polls_once_witness :
  (∀ i cqes, nvme_cq_get_cqes 1 late_cq i 0 true cqes
             = Some (cqes ++ reaped true (cq_get_cqe late_cq i)))
  ∧ (∀ timeout_ns, timeout_ns ≠ 0 →
       nvme_cq_wait_cqes 1 late_cq 0 true timeout_ns
       = Some (match cq_get_cqe late_cq 0 with Some _ => 0 - 1 | None => 0 end, None,
               reaped true (cq_get_cqe late_cq 0))).
Proof. apply (nonpositive_count_polls_once late_cq 0 true 0). lia. Defined.

Lemma wait_loop_posted (env : cq_env) (timeout : Z) :
  ∀ fuel i j n cqes r out,
  wait_loop fuel env i j n timeout true cqes = Some (r, out) →
  ∃ k, (1 ≤ k ≤ fuel)%nat
       ∧ out = cqes ++ posted env i k
       ∧ r = n - Z.of_nat (length (posted env i k))
       ∧ (0 < n → 0 ≤ r).
Proof.
  induction fuel as [|fuel IH]; intros i j n cqes r out; [done|].
  cbn [wait_loop].
  destruct (cq_get_cqe env i) as [cqe|] eqn:Hc.
  - destruct ((0 <? n - 1) && (get_ticks env j <? timeout)) eqn:Hcond.
    + intros Hrec. apply IH in Hrec as (k & Hk & -> & -> & Hpos).
      exists (S k). rewrite posted_S, Hc. split; [lia|]. split; [by rewrite <- app_assoc|].
      simpl length. split; [lia|]. intros _. apply Hpos.
      apply andb_true_iff in Hcond as [Hcond _]. by apply Z.ltb_lt in Hcond.
    + intros [= <- <-]. exists 1%nat. rewrite posted_S, Hc. split; [lia|].
      split; [done|]. simpl. split; lia.
  - destruct ((0 <? n) && (get_ticks env j <? timeout)) eqn:Hcond.
    + intros Hrec. apply IH in Hrec as (k & Hk & -> & -> & Hpos).
      exists (S k). rewrite posted_S, Hc. split; [lia|]. split; [done|].
      split; [done|]. intros Hn. by apply Hpos.
    + intros [= <- <-]. exists 1%nat. rewrite posted_S, Hc. split; [lia|].
      split; [by rewrite app_nil_r|]. simpl. split; lia.
Qed.

(** X18.  What a return of [nvme_cq_wait_cqes] with a deadline accounts for:
    the completions copied out are exactly those the controller posted
    during the polls made, in their order; the return value is [n] minus
    their number and is not negative for [n > 0]; and [errno] is set, to
    [ETIMEDOUT], exactly when the return value is positive. *)
Theorem wait_accounts_for_completions (env : cq_env) (fuel : nat) (n timeout_ns r : Z)
    (err : option Z) (cqes : list nvme_cqe) :
  timeout_ns ≠ 0 →
  nvme_cq_wait_cqes fuel env n true timeout_ns = Some (r, err, cqes) →
  ∃ k, (1 ≤ k ≤ fuel)%nat
       ∧ cqes = posted env 0 k
       ∧ r = n - Z.of_nat (length cqes)
       ∧ (0 < n → 0 ≤ r)
       ∧ (err = Some ETIMEDOUT ↔ 0 < r)
       ∧ (err = None ↔ r ≤ 0).
Proof.
  intros Ht. unfold nvme_cq_wait_cqes. apply Z.eqb_neq in Ht. rewrite Ht.
  destruct (wait_loop fuel env 0 1 n _ true []) as [[r' out]|] eqn:Hloop; simpl; [|done].
  intros [= <- <- <-].
  apply wait_loop_posted in Hloop as (k & Hk & -> & -> & Hpos).
  exists k. simpl. split; [done|]. split; [done|]. split; [done|]. split; [done|].
  destruct (0 <? n - Z.of_nat (length (posted env 0 k))) eqn:Hr.
  - apply Z.ltb_lt in Hr. split; split; try done; lia.
  - apply Z.ltb_ge in Hr. split; split; try done; lia.
Qed.

Lemma wait_accounts_for_completions_witness :
  ∃ k, (1 ≤ k ≤ 5)%nat
       ∧ [Cqe 0 7 0] = posted coarse_clock_cq 0 k
       ∧ 1 = 2 - Z.of_nat (length [Cqe 0 7 0])
       ∧ (0 < 2 → 0 ≤ 1)
       ∧ (Some ETIMEDOUT = Some ETIMEDOUT ↔ 0 < 1)
       ∧ (Some ETIMEDOUT = None ↔ 1 ≤ 0).
Proof.
  apply (wait_accounts_for_completions coarse_clock_cq 5 2 3 1 (Some ETIMEDOUT) [Cqe 0 7 0]).
  - lia.
  - vm_compute. reflexivity.
Defined.

Lemma wait_loop_deadline (env : cq_env) (timeout : Z) (copy : bool) :
  ∀ t i j n cqes, timeout ≤ get_ticks env (j + t) →
  ∃ res, ∀ extra, wait_loop (S t + extra) env i j n timeout copy cqes = Some res.
Proof.
  induction t as [|t IH]; intros i j n cqes Hdl.
  - rewrite Nat.add_0_r in Hdl.
    assert (Hlt : (get_ticks env j <? timeout) = false) by (apply Z.ltb_ge; lia).
    destruct (cq_get_cqe env i) as [cqe|] eqn:Hc.
    + exists (n - 1, if copy then cqes ++ [cqe] else cqes). intros extra.
      cbn [Nat.add wait_loop]. rewrite Hc, Hlt, andb_false_r. done.
    + exists (n, cqes). intros extra.
      cbn [Nat.add wait_loop]. rewrite Hc, Hlt, andb_false_r. done.
  - replace (j + S t)%nat with (S j + t)%nat in Hdl by lia.
    destruct (cq_get_cqe env i) as [cqe|] eqn:Hc.
    + destruct ((0 <? n - 1) && (get_ticks env j <? timeout)) eqn:Hcond.
      * destruct (IH (S i) (S j) (n - 1) (if copy then cqes ++ [cqe] else cqes) Hdl)
          as [res Hres].
        exists res. intros extra.
        change (S (S t) + extra)%nat with (S (S t + extra)).
        cbn [wait_loop]. rewrite Hc, Hcond. apply Hres.
      * exists (n - 1, if copy then cqes ++ [cqe] else cqes). intros extra.
        change (S (S t) + extra)%nat with (S (S t + extra)).
        cbn [wait_loop]. rewrite Hc, Hcond. done.
    + destruct ((0 <? n) && (get_ticks env j <? timeout)) eqn:Hcond.
      * destruct (IH (S i) (S j) n cqes Hdl) as [res Hres].
        exists res. intros extra.
        change (S (S t) + extra)%nat with (S (S t + extra)).
        cbn [wait_loop]. rewrite Hc, Hcond. apply Hres.
      * exists (n, cqes). intros extra.
        change (S (S t) + extra)%nat with (S (S t + extra)).
        cbn [wait_loop]. rewrite Hc, Hcond. done.
Qed.

(** X19.  A wait with a deadline ends: once a reading of the tick counter
    inside the loop, the [t]-th say, has reached the deadline, the call has
    returned within [t + 1] polls, whatever the controller does and however
    many completions are still missing. *)
Theorem wait_returns_by_deadline (env : cq_env) (n timeout_ns : Z) (copy : bool) (t : nat) :
  timeout_ns ≠ 0 →
  wait_deadline env timeout_ns ≤ get_ticks env (S t) →
  ∃ res, ∀ extra, nvme_cq_wait_cqes (S t + extra) env n copy timeout_ns = Some res.
Proof.
  intros Ht Hdl. unfold nvme_cq_wait_cqes. apply Z.eqb_neq in Ht. rewrite Ht.
  fold (wait_deadline env timeout_ns).
  destruct (wait_loop_deadline env (wait_deadline env timeout_ns) copy t 0 1 n [] Hdl)
    as [[r out] Hres].
  exists (r, if 0 <? r then Some ETIMEDOUT else None, out).
  intros extra. by rewrite Hres.
Qed.

Lemma wait_returns_by_deadline_witness :
  ∃ res, ∀ extra, nvme_cq_wait_cqes (S 2 + extra) coarse_clock_cq 2 true 3 = Some res.
Proof.
  apply (wait_returns_by_deadline coarse_clock_cq 2 3 true 2).
  - lia.
  - vm_compute. congruence.
Defined.

(** X20.  The deadline is [timeout_ns * 1000] times the tick frequency in
    whole MHz.  With a tick frequency below 1 MHz that product is 0: on a
    clock that does not run backwards, a wait with any non-zero timeout then
    polls once and returns, with [ETIMEDOUT] if completions are missing. *)
Theorem wait_below_one_mhz_polls_once (env : cq_env) (n timeout_ns : Z) (copy : bool)
    (fuel : nat) :
  timeout_ns ≠ 0 →
  0 ≤ __vfn_ticks_freq env < 1000000 →
  0 ≤ get_ticks env 0 < 2 ^ 64 → get_ticks env 0 ≤ get_ticks env 1 →
  wait_deadline env timeout_ns = get_ticks env 0
  ∧ nvme_cq_wait_cqes (S fuel) env n copy timeout_ns
    = Some (let r := match cq_get_cqe env 0 with Some _ => n - 1 | None => n end in
            (r, if 0 <? r then Some ETIMEDOUT else None, reaped copy (cq_get_cqe env 0))).
Proof.
  intros Ht Hf Ht0 Hmono.
  assert (Hdl : wait_deadline env timeout_ns = get_ticks env 0).
  { unfold wait_deadline. rewrite (Z.div_small (__vfn_ticks_freq env)) by lia.
    rewrite Z.mul_0_r. unfold wrap64. rewrite Z.mod_0_l by lia.
    rewrite Z.add_0_r. apply Z.mod_small. lia. }
  split; [done|].
  unfold nvme_cq_wait_cqes. apply Z.eqb_neq in Ht. rewrite Ht.
  fold (wait_deadline env timeout_ns). rewrite Hdl.
  cbn [wait_loop].
  assert (Hlt : (get_ticks env 1 <? get_ticks env 0) = false) by (apply Z.ltb_ge; lia).
  rewrite Hlt. unfold reaped.
  destruct (cq_get_cqe env 0) as [cqe|]; rewrite andb_false_r; simpl; by destruct copy.
Qed.

Lemma wait_below_one_mhz_polls_once_witness :
  wait_deadline (CqEnv (λ _, None) (λ j, Z.of_nat j) 32768) 1000000000
  = get_ticks (CqEnv (λ _, None) (λ j, Z.of_nat j) 32768) 0
  ∧ nvme_cq_wait_cqes 1 (CqEnv (λ _, None) (λ j, Z.of_nat j) 32768) 1 true 1000000000
    = Some (let r := match cq_get_cqe (CqEnv (λ _, None) (λ j, Z.of_nat j) 32768) 0 with
                     | Some _ => 1 - 1
                     | None => 1
                     end in
            (r, if 0 <? r then Some ETIMEDOUT else None,
             reaped true (cq_get_cqe (CqEnv (λ _, None) (λ j, Z.of_nat j) 32768) 0))).
Proof.
  apply (wait_below_one_mhz_polls_once (CqEnv (λ _, None) (λ j, Z.of_nat j) 32768)
           1 1000000000 true 0); simpl; lia.
Defined.

(** ** [nvme_oneshot]: the calls it makes *)

Lemma spin_loop_inv (env : oneshot_env) :
  ∀ fuel i s s', spin_loop fuel env i s = Some s' →
  ∃ k, trace s' = trace s ++ replicate (S k) CallSpin
    ∧ ((0 ≤ c_ret (rq_spin env (i + k)) ∧ ret s' = ret s)
       ∨ (c_ret (rq_spin env (i + k)) < 0 ∧ ret s' = -1)).
Proof.
  induction fuel as [|fuel IH]; intros i s s'; [done|].
  cbn [spin_loop].
  destruct (c_ret (rq_spin env i) <? 0) eqn:Hret.
  - destruct (errno (called CallSpin (rq_spin env i) s) =? EAGAIN).
    + intros Hrec. apply IH in Hrec as (k & Htr & Hend).
      exists (S k). split.
      * rewrite Htr. simpl. by rewrite <- app_assoc.
      * by replace (i + S k)%nat with (S i + k)%nat by lia.
    + intros [= <-]. exists 0%nat. rewrite Nat.add_0_r. split; [done|].
      right. apply Z.ltb_lt in Hret. done.
  - intros [= <-]. exists 0%nat. rewrite Nat.add_0_r. split; [done|].
    left. apply Z.ltb_ge in Hret. done.
Qed.

(** X21.  The calls of a [nvme_oneshot] that returns.  Without a slot it
    returns -1 at once.  With a slot, the last call is the one release of the
    slot, and in front of it: a failed ephemeral map alone (its return value
    is passed on); or the map, a failed PRP set-up and the unmap, without
    submitting; or the maps if a buffer was passed, the submit, one or more
    polls, and the unmap if a buffer was passed.  The call reports success
    only if the last poll and the unmap succeeded. *)
Theorem oneshot_call_protocol (fuel : nat) (env : oneshot_env) (errno0 : Z) (buf : bool)
    (r e : Z) (tr : list oneshot_call) :
  nvme_oneshot fuel env errno0 buf = Some (r, e, tr) →
  (acquire_ok env = false → tr = [CallAcquire] ∧ r = -1)
  ∧ (acquire_ok env = true →
     ∃ body, tr = CallAcquire :: body ++ [CallRelease]
       ∧ ((buf = true ∧ c_ret (map_ephemeral env) ≠ 0
           ∧ body = [CallMapEphemeral] ∧ r = c_ret (map_ephemeral env))
          ∨ (buf = true ∧ c_ret (map_ephemeral env) = 0 ∧ c_ret (map_prp env) ≠ 0
             ∧ body = [CallMapEphemeral; CallMapPrp; CallUnmapEphemeral] ∧ r ≠ 0)
          ∨ (∃ k, (buf = true → c_ret (map_ephemeral env) = 0 ∧ c_ret (map_prp env) = 0)
               ∧ body = oneshot_body buf k
               ∧ (r = 0 ∨ r = -1)
               ∧ (r = 0 ↔ 0 ≤ c_ret (rq_spin env k)
                          ∧ (buf = true → c_ret (unmap_ephemeral env) = 0))))).
Proof.
  unfold nvme_oneshot. destruct (acquire_ok env); simpl.
  2:{ intros [= <- <- <-]. split; [done|]. intros [=]. }
  intros Hres. split; [intros [=]|]. intros _. revert Hres.
  destruct buf; simpl.
  - destruct (c_ret (map_ephemeral env) =? 0) eqn:Hmap; simpl.
    2:{ intros [= <- <- <-]. exists [CallMapEphemeral]. split; [done|]. left.
        apply Z.eqb_neq in Hmap. done. }
    apply Z.eqb_eq in Hmap.
    destruct (c_ret (map_prp env) =? 0) eqn:Hprp; simpl.
    2:{ apply Z.eqb_neq in Hprp. unfold oneshot_unmap. simpl.
        destruct (c_ret (unmap_ephemeral env) =? 0); simpl;
          intros [= <- <- <-];
          (exists [CallMapEphemeral; CallMapPrp; CallUnmapEphemeral]; split; [done|];
           right; left; repeat split; done). }
    apply Z.eqb_eq in Hprp.
    destruct (spin_loop fuel env 0 _) as [s'|] eqn:Hspin; simpl; [|done].
    apply spin_loop_inv in Hspin as (k & Htr & Hend). simpl in Htr, Hend.
    unfold oneshot_unmap. simpl.
    destruct (c_ret (unmap_ephemeral env) =? 0) eqn:Hun; simpl; intros [= <- <- <-].
    + apply Z.eqb_eq in Hun. exists (oneshot_body true k). split.
      { rewrite Htr. unfold oneshot_body. simpl. rewrite <- !app_assoc. done. }
      right. right. exists k. split; [done|]. split; [done|].
      destruct Hend as [[Hk Hr]|[Hk Hr]]; rewrite Hr, ?Hprp.
      * split; [by left|]. done.
      * split; [by right|]. split; [done|]. intros [? _]. lia.
    + apply Z.eqb_neq in Hun. exists (oneshot_body true k). split.
      { rewrite Htr. unfold oneshot_body. simpl. rewrite <- !app_assoc. done. }
      right. right. exists k. split; [done|]. split; [done|].
      split; [by right|]. split; [done|]. intros [_ H]. by specialize (H eq_refl).
  - destruct (spin_loop fuel env 0 _) as [s'|] eqn:Hspin; simpl; [|done].
    apply spin_loop_inv in Hspin as (k & Htr & Hend). simpl in Htr, Hend.
    unfold oneshot_unmap. simpl. intros [= <- <- <-].
    exists (oneshot_body false k). split.
    { rewrite Htr. unfold oneshot_body. simpl. rewrite app_nil_r. done. }
    right. right. exists k. split; [done|]. split; [done|].
    destruct Hend as [[Hk Hr]|[Hk Hr]]; rewrite Hr.
    + split; [by left|]. done.
    + split; [by right|]. split; [done|]. intros [? _]. lia.
Qed.

Lemma oneshot_call_protocol_witness :
  (acquire_ok (unmap_fails EIO) = false →
   [CallAcquire; CallMapEphemeral; CallMapPrp; CallExec; CallSpin; CallUnmapEphemeral;
    CallRelease] = [CallAcquire] ∧ -1 = -1)
  ∧ (acquire_ok (unmap_fails EIO) = true →
     ∃ body,
       [CallAcquire; CallMapEphemeral; CallMapPrp; CallExec; CallSpin; CallUnmapEphemeral;
        CallRelease] = CallAcquire :: body ++ [CallRelease]
       ∧ ((true = true ∧ c_ret (map_ephemeral (unmap_fails EIO)) ≠ 0
           ∧ body = [CallMapEphemeral] ∧ -1 = c_ret (map_ephemeral (unmap_fails EIO)))
          ∨ (true = true ∧ c_ret (map_ephemeral (unmap_fails EIO)) = 0
             ∧ c_ret (map_prp (unmap_fails EIO)) ≠ 0
             ∧ body = [CallMapEphemeral; CallMapPrp; CallUnmapEphemeral] ∧ -1 ≠ 0)
          ∨ (∃ k, (true = true → c_ret (map_ephemeral (unmap_fails EIO)) = 0
                                 ∧ c_ret (map_prp (unmap_fails EIO)) = 0)
               ∧ body = oneshot_body true k
               ∧ (-1 = 0 ∨ -1 = -1)
               ∧ (-1 = 0 ↔ 0 ≤ c_ret (rq_spin (unmap_fails EIO) k)
                           ∧ (true = true → c_ret (unmap_ephemeral (unmap_fails EIO)) = 0))))).
Proof.
  apply (oneshot_call_protocol 1 (unmap_fails EIO) 0 true (-1) 0
           [CallAcquire; CallMapEphemeral; CallMapPrp; CallExec; CallSpin; CallUnmapEphemeral;
            CallRelease]).
  reflexivity.
Defined.







(** ** CRC-64-NVMe: chaining and range *)

(** X23.  [nvme_crc64] over a buffer in two pieces: the checksum of [a ++ b]
    is the checksum of [b] started from the checksum of [a] with the final
    inversion undone, that is from [nvme_crc64(crc, a) ^ ~0]. *)
Theorem nvme_crc64_append (table : Z → Z) (crc : Z) (a b : list Byte.byte) :
  nvme_crc64 table crc (a ++ b) (length (a ++ b))
  = c ← nvme_crc64 table crc a (length a);
    nvme_crc64 table (Z.lxor c UINT64_MAX) b (length b).
Proof.
  unfold nvme_crc64.
  rewrite !crc64_loop_fold by (simpl; lia). simpl.
  rewrite !crc64_loop_fold by (simpl; lia). simpl.
  rewrite !drop_0, !firstn_all.
  rewrite fold_left_app.
  rewrite Z.lxor_assoc, Z.lxor_nilpotent, Z.lxor_0_r. done.
Qed.

Lemma lxor_bound (a b n : Z) :
  0 ≤ n → 0 ≤ a < 2 ^ n → 0 ≤ b < 2 ^ n → 0 ≤ Z.lxor a b < 2 ^ n.
Proof.
  intros Hn Ha Hb.
  assert (Hnn : 0 ≤ Z.lxor a b) by (apply Z.lxor_nonneg; lia).
  split; [done|].
  destruct (Z.eq_dec n 0) as [->|Hn0].
  { assert (a = 0) as -> by (change (2 ^ 0) with 1 in Ha; lia).
    assert (b = 0) as -> by (change (2 ^ 0) with 1 in Hb; lia). done. }
  destruct (Z.eq_dec (Z.lxor a b) 0) as [->|Hne]; [apply Z.pow_pos_nonneg; lia|].
  apply Z.log2_lt_pow2; [lia|].
  eapply Z.le_lt_trans; [apply Z.log2_lxor; lia|].
  apply Z.max_lub_lt.
  - destruct (Z.eq_dec a 0) as [->|?]; [simpl; lia|]. apply Z.log2_lt_pow2; lia.
  - destruct (Z.eq_dec b 0) as [->|?]; [simpl; lia|]. apply Z.log2_lt_pow2; lia.
Qed.

Lemma crc64_step_range (table : Z → Z) (crc : Z) (b : Byte.byte) :
  (∀ i, 0 ≤ i < 256 → 0 ≤ table i < 2 ^ 64) → 0 ≤ crc < 2 ^ 64 →
  0 ≤ Z.lxor (Z.land crc 0xff) (byte_val b) < 256
  ∧ 0 ≤ Z.lxor (Z.shiftr crc 8) (table (Z.lxor (Z.land crc 0xff) (byte_val b))) < 2 ^ 64.
Proof.
  intros Htab Hcrc.
  assert (Hidx : 0 ≤ Z.lxor (Z.land crc 0xff) (byte_val b) < 256).
  { apply (lxor_bound _ _ 8); [lia| |apply byte_val_range].
    change 0xff with (Z.ones 8). rewrite Z.land_ones by lia.
    apply Z.mod_pos_bound. lia. }
  split; [done|].
  apply (lxor_bound _ _ 64); [lia| |by apply Htab].
  rewrite Z.shiftr_div_pow2 by lia. split.
  - apply Z.div_pos; lia.
  - apply Z.div_lt_upper_bound; lia.
Qed.

Lemma crc64_loop_range (table : Z → Z) (buffer : list Byte.byte) :
  (∀ i, 0 ≤ i < 256 → 0 ≤ table i < 2 ^ 64) →
  ∀ cnt i crc, (i + cnt ≤ length buffer)%nat → 0 ≤ crc < 2 ^ 64 →
  ∃ c, crc64_loop table buffer i cnt crc = Some c ∧ 0 ≤ c < 2 ^ 64.
Proof.
  intros Htab. induction cnt as [|cnt IH]; intros i crc Hlen Hcrc; [by exists crc|].
  cbn [crc64_loop].
  destruct (buffer !! i) as [b|] eqn:Hb.
  2:{ apply lookup_ge_None in Hb. lia. }
  simpl. apply IH; [lia|]. by apply crc64_step_range.
Qed.

(** X24.  [nvme_crc64] stays inside the table and inside 64 bits: for a seed
    below 2^64 and a table whose 256 entries are below 2^64, every index
    [(crc & 0xff) ^ buffer[i]] it forms lies in [0, 255], and over any [len]
    bytes of the buffer it returns a value below 2^64 (entries of the table
    outside [0, 255] are not read: nothing is assumed of them). *)
Theorem nvme_crc64_in_range (table : Z → Z) (crc : Z) (buffer : list Byte.byte) (l : nat) :
  (∀ i, 0 ≤ i < 256 → 0 ≤ table i < 2 ^ 64) →
  0 ≤ crc < 2 ^ 64 → (l ≤ length buffer)%nat →
  (∃ c, nvme_crc64 table crc buffer l = Some c ∧ 0 ≤ c < 2 ^ 64)
  ∧ ∀ c b, 0 ≤ c < 2 ^ 64 → 0 ≤ Z.lxor (Z.land c 0xff) (byte_val b) < 256.
Proof.
  intros Htab Hcrc Hl. split.
  - destruct (crc64_loop_range table buffer Htab l 0 crc) as (c & Hc & Hr); [lia|done|].
    unfold nvme_crc64. rewrite Hc. simpl. eexists. split; [done|].
    apply (lxor_bound _ _ 64); [lia|done|]. unfold UINT64_MAX. lia.
  - intros c b Hc. by apply (crc64_step_range table).
Qed.

Lemma nvme_crc64_in_range_witness :
  (∃ c, nvme_crc64 (λ i, i * 0x9a6c9329ac4bc9b5 mod 2 ^ 64) 0
          [Byte.x31; Byte.x32; Byte.x33] 3 = Some c ∧ 0 ≤ c < 2 ^ 64)
  ∧ ∀ c b, 0 ≤ c < 2 ^ 64 → 0 ≤ Z.lxor (Z.land c 0xff) (byte_val b) < 256.
Proof.
  apply (nvme_crc64_in_range (λ i, i * 0x9a6c9329ac4bc9b5 mod 2 ^ 64) 0
           [Byte.x31; Byte.x32; Byte.x33] 3).
  - intros i _. apply Z.mod_pos_bound. lia.
  - lia.
  - simpl. lia.
Defined.

(** ** [vfio_open]: what is closed when it fails *)

(** X25.  The descriptors of [vfio_open].  A successful call closes nothing.
    A failing call closes, as its last calls, exactly what it had opened:
    nothing when the container could not be opened, the container when the
    group had not been opened, the group and then the container otherwise.
    Of the failures behind [vfio_iommu_init], only that of the second
    [VFIO_IOMMU_GET_INFO] calls [vfio_iommu_close]; when the first one fails
    the IOMMU state is left initialised. *)
Theorem vfio_open_closes_what_it_opened (info_size : Z) (env : open_env) (r : Z)
    (tr : list vfio_call) :
  vfio_open_calls info_size env = (r, tr) →
  (r = 0 ∧ Forall (λ c, c ≠ CloseGroup ∧ c ≠ CloseContainer ∧ c ≠ IommuClose) tr)
  ∨ (r = -1
     ∧ ∃ pre, Forall (λ c, c ≠ CloseGroup ∧ c ≠ CloseContainer) pre
         ∧ ((open_container env < 0 ∧ tr = pre)
            ∨ (0 ≤ open_container env ∧ (OpenGroup ∉ pre ∨ open_group env < 0)
               ∧ tr = pre ++ [CloseContainer])
            ∨ (0 ≤ open_container env ∧ OpenGroup ∈ pre ∧ 0 ≤ open_group env
               ∧ tr = pre ++ [CloseGroup; CloseContainer]))
         ∧ (IommuClose ∈ pre ↔ IommuInit ∈ pre ∧ iommu_get_info env = 0)).
Proof.
  unfold vfio_open_calls, open_err, open_err_close_container.
  destruct (open_container env <? 0) eqn:Hc.
  { intros [= <- <-]. right. split; [done|]. exists [OpenContainer].
    apply Z.ltb_lt in Hc.
    split; [no_close|]. split; [by left|]. split; [list_notin|]. intros [H _]. revert H. list_notin. }
  apply Z.ltb_ge in Hc.
  destruct (get_api_version env =? VFIO_API_VERSION); simpl.
  2:{ intros [= <- <-]. right. split; [done|]. exists [OpenContainer; GetApiVersion].
      split; [no_close|]. split.
      - right. left. split; [done|]. split; [left; list_notin|done].
      - split; [list_notin|]. intros [H _]. revert H. list_notin. }
  destruct (check_extension env =? 0); simpl.
  { intros [= <- <-]. right. split; [done|].
    exists [OpenContainer; GetApiVersion; CheckExtension].
    split; [no_close|]. split.
    - right. left. split; [done|]. split; [left; list_notin|done].
    - split; [list_notin|]. intros [H _]. revert H. list_notin. }
  destruct (open_group env <? 0) eqn:Hg.
  { intros [= <- <-]. right. split; [done|].
    exists [OpenContainer; GetApiVersion; CheckExtension; OpenGroup].
    apply Z.ltb_lt in Hg.
    split; [no_close|]. split.
    - right. left. split; [done|]. split; [by right|done].
    - split; [list_notin|]. intros [H _]. revert H. list_notin. }
  apply Z.ltb_ge in Hg.
  destruct (group_get_status env =? 0); simpl.
  2:{ intros [= <- <-].
      group_closed [OpenContainer; GetApiVersion; CheckExtension; OpenGroup; GroupGetStatus].
      split; [list_notin|]. intros [H _]. revert H. list_notin. }
  destruct (Z.land (group_status_flags env) VFIO_GROUP_FLAGS_VIABLE =? 0).
  { intros [= <- <-].
    group_closed [OpenContainer; GetApiVersion; CheckExtension; OpenGroup; GroupGetStatus].
    split; [list_notin|]. intros [H _]. revert H. list_notin. }
  destruct (group_set_container env =? 0); simpl.
  2:{ intros [= <- <-].
      group_closed [OpenContainer; GetApiVersion; CheckExtension; OpenGroup; GroupGetStatus;
                    GroupSetContainer].
      split; [list_notin|]. intros [H _]. revert H. list_notin. }
  destruct (set_iommu env =? 0); simpl.
  2:{ intros [= <- <-].
      group_closed [OpenContainer; GetApiVersion; CheckExtension; OpenGroup; GroupGetStatus;
                    GroupSetContainer; SetIommu].
      split; [list_notin|]. intros [H _]. revert H. list_notin. }
  destruct (iommu_get_info env =? 0) eqn:Hinfo; simpl.
  2:{ intros [= <- <-].
      group_closed [OpenContainer; GetApiVersion; CheckExtension; OpenGroup; GroupGetStatus;
                    GroupSetContainer; SetIommu; IommuInit; IommuGetInfo info_size].
      apply Z.eqb_neq in Hinfo. split; [list_notin|]. by intros [_ ?]. }
  apply Z.eqb_eq in Hinfo.
  destruct (info_size <? iommu_info_argsz env).
  2:{ intros [= <- <-]. left. split; [done|]. no_close. }
  destruct (iommu_get_extended_info env =? 0); simpl.
  2:{ intros [= <- <-].
      group_closed [OpenContainer; GetApiVersion; CheckExtension; OpenGroup; GroupGetStatus;
                    GroupSetContainer; SetIommu; IommuInit; IommuGetInfo info_size;
                    IommuGetInfo (iommu_info_argsz env); IommuClose].
      split; [|intros _; list_in]. intros _. split; [list_in|done]. }
  destruct (Z.land (iommu_info_flags env) VFIO_IOMMU_INFO_CAPS =? 0); simpl;
    intros [= <- <-]; left; (split; [done|no_close]).
Qed.

Lemma vfio_open_closes_what_it_opened_witness :
  (-1 = 0
   ∧ Forall (λ c, c ≠ CloseGroup ∧ c ≠ CloseContainer ∧ c ≠ IommuClose)
       [OpenContainer; GetApiVersion; CheckExtension; OpenGroup; GroupGetStatus;
        GroupSetContainer; SetIommu; IommuInit; IommuGetInfo 24; CloseGroup; CloseContainer])
  ∨ (-1 = -1
     ∧ ∃ pre, Forall (λ c, c ≠ CloseGroup ∧ c ≠ CloseContainer) pre
         ∧ ((open_container (OpenEnv 3 0 1 4 0 1 0 0 (-1) 0 0 0) < 0
             ∧ [OpenContainer; GetApiVersion; CheckExtension; OpenGroup; GroupGetStatus;
                GroupSetContainer; SetIommu; IommuInit; IommuGetInfo 24; CloseGroup;
                CloseContainer] = pre)
            ∨ (0 ≤ open_container (OpenEnv 3 0 1 4 0 1 0 0 (-1) 0 0 0)
               ∧ (OpenGroup ∉ pre ∨ open_group (OpenEnv 3 0 1 4 0 1 0 0 (-1) 0 0 0) < 0)
               ∧ [OpenContainer; GetApiVersion; CheckExtension; OpenGroup; GroupGetStatus;
                  GroupSetContainer; SetIommu; IommuInit; IommuGetInfo 24; CloseGroup;
                  CloseContainer] = pre ++ [CloseContainer])
            ∨ (0 ≤ open_container (OpenEnv 3 0 1 4 0 1 0 0 (-1) 0 0 0) ∧ OpenGroup ∈ pre
               ∧ 0 ≤ open_group (OpenEnv 3 0 1 4 0 1 0 0 (-1) 0 0 0)
               ∧ [OpenContainer; GetApiVersion; CheckExtension; OpenGroup; GroupGetStatus;
                  GroupSetContainer; SetIommu; IommuInit; IommuGetInfo 24; CloseGroup;
                  CloseContainer] = pre ++ [CloseGroup; CloseContainer]))
         ∧ (IommuClose ∈ pre
            ↔ IommuInit ∈ pre ∧ iommu_get_info (OpenEnv 3 0 1 4 0 1 0 0 (-1) 0 0 0) = 0)).
Proof.
  apply (vfio_open_closes_what_it_opened 24 (OpenEnv 3 0 1 4 0 1 0 0 (-1) 0 0 0)).
  reflexivity.
Defined.

(** ** [vfio_set_irq]: the size of the request *)

(** X26.  [vfio_set_irq] on a device whose interrupt does not take eventfds
    fails with [EINVAL] before anything is allocated.  Otherwise it copies
    [sizeof(int) * count] bytes behind the header of a block of
    [irq_set_size] bytes, and [irq_set_size], a [uint32_t], holds the header
    and those bytes exactly when [count] is at most 1073741818; for a larger
    [count] the sum is cut to 32 bits and the block is too small for the
    copy. *)
Theorem set_irq_request_size (irq_flags irq_index count ioctl_ret : Z) :
  0 ≤ count < 2 ^ 32 →
  (Z.land irq_flags VFIO_IRQ_INFO_EVENTFD = 0 →
   vfio_set_irq irq_flags irq_index count ioctl_ret = (-1, Some EINVAL, []))
  ∧ (Z.land irq_flags VFIO_IRQ_INFO_EVENTFD ≠ 0 →
     ∃ size bytes,
       vfio_set_irq irq_flags irq_index count ioctl_ret
       = (if ioctl_ret =? 0 then 0 else -1, None,
          [Malloc size; Memcpy SIZEOF_VFIO_IRQ_SET bytes;
           SetIrqs size 36 irq_index 0 count; Free])
       ∧ bytes = 4 * count
       ∧ (count ≤ 1073741818 → size = 20 + 4 * count)
       ∧ (SIZEOF_VFIO_IRQ_SET + bytes ≤ size ↔ count ≤ 1073741818)).
Proof.
  intros Hc. unfold vfio_set_irq. split.
  - intros Hf. apply Z.eqb_eq in Hf. by rewrite Hf.
  - intros Hf. apply Z.eqb_neq in Hf. rewrite Hf.
    exists (wrap32 (SIZEOF_VFIO_IRQ_SET + wrap64 (SIZEOF_INT * count))),
           (wrap64 (SIZEOF_INT * count)).
    assert (Hb : wrap64 (SIZEOF_INT * count) = 4 * count).
    { unfold wrap64, SIZEOF_INT. apply Z.mod_small. lia. }
    split; [by destruct (ioctl_ret =? 0)|]. split; [done|]. rewrite Hb.
    unfold wrap32, SIZEOF_VFIO_IRQ_SET. split.
    + intros Hle. apply Z.mod_small. lia.
    + split.
      * intros Hfit. destruct (Z_le_gt_dec count 1073741818) as [|Hgt]; [done|].
        pose proof (Z.mod_pos_bound (20 + 4 * count) (2 ^ 32) ltac:(lia)) as Hm.
        lia.
      * intros Hle. rewrite Z.mod_small; lia.
Qed.

Lemma set_irq_request_size_witness :
  (Z.land 1 VFIO_IRQ_INFO_EVENTFD = 0 →
   vfio_set_irq 1 0 1073741819 0 = (-1, Some EINVAL, []))
  ∧ (Z.land 1 VFIO_IRQ_INFO_EVENTFD ≠ 0 →
     ∃ size bytes,
       vfio_set_irq 1 0 1073741819 0
       = (if 0 =? 0 then 0 else -1, None,
          [Malloc size; Memcpy SIZEOF_VFIO_IRQ_SET bytes;
           SetIrqs size 36 0 0 1073741819; Free])
       ∧ bytes = 4 * 1073741819
       ∧ (1073741819 ≤ 1073741818 → size = 20 + 4 * 1073741819)
       ∧ (SIZEOF_VFIO_IRQ_SET + bytes ≤ size ↔ 1073741819 ≤ 1073741818)).
Proof. apply (set_irq_request_size 1 0 1073741819 0). lia. Defined.
